(** * A Sudoku constraint-satisfaction engine: model and verification

    The development embeds the search engine of the repository
    (file [search.ts], together with the earlier draft of the same logic)
    and the component of the interface that calls it ([App.tsx]), and
    settles the properties stated about them.

    Conventions of the embedding.
    - A cell [number | null] is an [option Z]; [None] is [null].
    - A matrix is a list of rows.  Reading [m[i][j]] is [cell_at m i j],
      an [option]: [None] stands for JavaScript's [undefined], the value of
      a read past the end of a row.
    - [for] loops with an early [return] or [break] are written with
      [first_some] and [existsb] over the index range of the loop.
    - The process-wide [metrics] object is threaded explicitly.
    - The [while] loop of the tree searches takes a bound on the number of
      its iterations and reports when the bound is reached.
    - Positions are pairs of natural numbers.  Where the program would read
      a row that does not exist (an exception) or write past the end of an
      array (which grows it), the functions below read [undefined] and
      leave the array as it is; the statements concern 9x9 matrices and
      positions of the grid, where neither happens.  Module [Heap] models
      the exceptions of [updateDomain]. *)

From Stdlib Require Import ZArith Lia Bool ZifyNat Ascii.
From stdpp Require Import base option list gmap strings pretty sorting.

Set Default Proof Using "Type".
Set Warnings "-register-all,-clear-no-such-hyp".

(** ** Data model *)

Record Position := mkPos { row : nat; col : nat }.

Global Instance Position_eq_dec : EqDecision Position.
Proof. solve_decision. Defined.

Global Instance Position_inhabited : Inhabited Position := populate (mkPos 0 0).

(** [number | null] *)
Abbreviation Cell := (option Z).

Abbreviation Grid := (list (list Cell)).
Abbreviation Domain := (list (list (list Z))).
Abbreviation Fixed := (list (list bool)).

Record SudokuProblem := mkProblem {
  state : Grid;
  domain : Domain;
  fixed : Fixed
}.

Inductive Node := mkNode {
  problem : SudokuProblem;
  parent : option Node;
  lastAssigned : Position
}.

Record Metrics := mkMetrics {
  nodesExpanded : nat;
  childrenGenerated : nat;
  maxDepth : nat;
  iterations : nat
}.

(** [metrics.reset()] *)
Definition reset : Metrics := mkMetrics 0 0 0 0.

(** ** Reading matrices and writing loops *)

(** [m[i][j]]; [None] is [undefined]. *)
Definition cell_at {A} (m : list (list A)) (i j : nat) : option A :=
  m !! i ≫= λ r, r !! j.

(** Reading a matrix at a position. *)
Definition at_pos {A} (m : list (list A)) (p : Position) : option A :=
  cell_at m (row p) (col p).

(** [state[i][j] === null] *)
Definition is_null (state : Grid) (i j : nat) : bool :=
  match cell_at state i j with
  | Some None => true
  | _ => false
  end.

(** [m[i][j] = x], for a position inside the matrix. *)
Definition set_cell {A} (i j : nat) (x : A) (m : list (list A)) : list (list A) :=
  alter (λ r, <[j := x]> r) i m.

(** The indices visited by [for (let k = from; k < to; k++)]. *)
Definition range (from to : nat) : list nat := seq from (to - from).

(** A loop whose body may [return]: the first iteration that returns wins. *)
Fixpoint first_some {A B} (f : A → option B) (l : list A) : option B :=
  match l with
  | [] => None
  | x :: l' =>
      match f x with
      | Some y => Some y
      | None => first_some f l'
      end
  end.

(** ** Scanning for the next empty cell *)

(** [getNextPosition] of [search.ts]. *)
Definition getNextPosition (state : Grid) (currentPosition : option Position)
  : option Position :=
  let size := length state in
  let startRow := match currentPosition with Some p => row p | None => 0 end in
  let startCol := match currentPosition with Some p => col p + 1 | None => 0 end in
  let '(startRow, startCol) :=
    if size <=? startCol then (startRow + 1, 0) else (startRow, startCol) in
  first_some (λ i,
    first_some (λ j, if is_null state i j then Some (mkPos i j) else None)
               (range (if i =? startRow then startCol else 0) size))
    (range startRow size).

Module Draft.

(** [getNextPosition] of the earlier draft: no adjustment at the end of a row. *)
Definition getNextPosition (state : Grid) (currentPosition : option Position)
  : option Position :=
  let size := length state in
  let startRow := match currentPosition with Some p => row p | None => 0 end in
  let startCol := match currentPosition with Some p => col p + 1 | None => 0 end in
  first_some (λ i,
    first_some (λ j, if is_null state i j then Some (mkPos i j) else None)
               (range (if i =? startRow then startCol else 0) size))
    (range startRow size).

End Draft.

(** ** Initialisation *)

Definition full_domain : list Z := [1; 2; 3; 4; 5; 6; 7; 8; 9]%Z.

(** [inititationHelper]: both matrices are first allocated with the width of
    row 0 and then filled row by row; a row shorter than row 0 keeps the
    allocated entries at its end. *)
Definition inititationHelper (state : Grid) : Domain * Fixed :=
  let width := length (state !!! 0) in
  (map (λ r, map (λ c : Cell, match c with Some _ => [] | None => full_domain end) r
             ++ replicate (width - length r) []) state,
   map (λ r, map (λ c : Cell, match c with Some _ => true | None => false end) r
             ++ replicate (width - length r) false) state).

Definition initiate (state : Grid) : SudokuProblem :=
  let '(domain, fixed) := inititationHelper state in
  mkProblem state domain fixed.

(** ** Consistency *)

(** The first loop of [consistent]: [hashmap.get(value).push(pos)], after
    creating the entry when it is missing. *)
Definition hashmap_push (value : Z) (pos : Position)
    (hashmap : gmap Z (list Position)) : gmap Z (list Position) :=
  let hashmap :=
    if decide (is_Some (hashmap !! value)) then hashmap
    else <[value := []]> hashmap in
  alter (λ positions, positions ++ [pos]) value hashmap.

(** The map from each value to the positions that hold it, in the order of
    the scan. *)
Definition collect (state : Grid) : gmap Z (list Position) :=
  foldl (λ hashmap i,
    foldl (λ hashmap j,
      match cell_at state i j with
      | Some (Some value) => hashmap_push value (mkPos i j) hashmap
      | _ => hashmap
      end) hashmap (range 0 (length (state !!! i))))
    ∅ (range 0 (length state)).

(** The template string [`${Math.floor(row / 3)}-${Math.floor(col / 3)}`]. *)
Definition subgridKey (row col : nat) : string :=
  pretty (row / 3) +:+ "-" +:+ pretty (col / 3).

(** The inner loop of [consistent] over the positions of one value. *)
Fixpoint check_positions (positions : list Position)
    (rows cols : gset nat) (subgrids : gset string) : bool :=
  match positions with
  | [] => true
  | pos :: positions =>
      if decide (row pos ∈ rows) then false
      else if decide (col pos ∈ cols) then false
      else if decide (subgridKey (row pos) (col pos) ∈ subgrids) then false
      else check_positions positions ({[row pos]} ∪ rows) ({[col pos]} ∪ cols)
                           ({[subgridKey (row pos) (col pos)]} ∪ subgrids)
  end.

(** [consistent] reads the grid only. *)
Definition consistent_grid (state : Grid) : bool :=
  forallb (λ entry, check_positions entry.2 ∅ ∅ ∅) (map_to_list (collect state)).

Definition consistent (problem : SudokuProblem) : bool :=
  consistent_grid (state problem).

Definition isgoal (problem : SudokuProblem) : bool :=
  if existsb (λ i, existsb (λ j, is_null (state problem) i j)
                           (range 0 (length (state problem !!! i))))
             (range 0 (length (state problem)))
  then false
  else consistent problem.

(** ** Domain propagation *)

(** [if (cell.includes(value)) cell = cell.filter(v => v !== value)] *)
Definition strike (value : Z) (cell : list Z) : list Z :=
  if decide (value ∈ cell) then filter (λ v, v ≠ value) cell else cell.

(** [newDomain[i][j]] is struck in place. *)
Definition strike_at (value : Z) (i j : nat) (newDomain : Domain) : Domain :=
  alter (alter (strike value) j) i newDomain.

(** [updateDomain], on values: the deep copy made on entry is the identity
    here (module [Heap] below models the arrays as shared mutable objects).
    The source throws when [position] lies outside the matrix. *)
Definition updateDomain (domain : Domain) (position : Position) (value : Z) : Domain :=
  let newDomain := domain in
  let '(mkPos row col) := position in
  let newDomain :=
    foldl (λ d j, strike_at value row j d) newDomain
          (range 0 (length (newDomain !!! row))) in
  let newDomain :=
    foldl (λ d i, strike_at value i col d) newDomain
          (range 0 (length newDomain)) in
  let subgridRowStart := row / 3 * 3 in
  let subgridColStart := col / 3 * 3 in
  let newDomain :=
    foldl (λ d i,
      foldl (λ d j, strike_at value i j d) d
            (range subgridColStart (subgridColStart + 3)))
      newDomain (range subgridRowStart (subgridRowStart + 3)) in
  set_cell row col [] newDomain.

(** ** Search metrics *)

(** [metrics.maxDepth = Math.max(metrics.maxDepth, depth)] *)
Definition note_depth (depth : nat) (m : Metrics) : Metrics :=
  mkMetrics (nodesExpanded m) (childrenGenerated m) (maxDepth m `max` depth) (iterations m).

(** [metrics.childrenGenerated += n] *)
Definition note_children (n : nat) (m : Metrics) : Metrics :=
  mkMetrics (nodesExpanded m) (childrenGenerated m + n) (maxDepth m) (iterations m).

(** [metrics.nodesExpanded++] *)
Definition note_expanded (m : Metrics) : Metrics :=
  mkMetrics (nodesExpanded m + 1) (childrenGenerated m) (maxDepth m) (iterations m).

(** [metrics.iterations++] *)
Definition note_iteration (m : Metrics) : Metrics :=
  mkMetrics (nodesExpanded m) (childrenGenerated m) (maxDepth m) (iterations m + 1).

(** [getDepth]: the length of the chain of parents. *)
Fixpoint getDepth (node : Node) : nat :=
  match node with
  | mkNode _ (Some parent) _ => S (getDepth parent)
  | mkNode _ None _ => 0
  end.

(** ** Expanding a node *)

(** [domain[row][col]] read as a list of values; the source throws where the
    entry does not exist. *)
Definition domain_at (domain : Domain) (row col : nat) : list Z :=
  default [] (cell_at domain row col).

(** The child built for [value] by [getChildren] and [getChildren_forwarding];
    both branches on [nextPosition] build the same problem and differ in
    [lastAssigned] only. *)
Definition child_of (parent : Node) (nextPosition : option Position)
    (newState : Grid) (domain : Domain) : Node :=
  mkNode (mkProblem newState domain (fixed (problem parent)))
         (Some parent)
         (match nextPosition with
          | None => lastAssigned parent
          | Some next => next
          end).

Definition getChildren (parent : Node) (metrics : Metrics) : list Node * Metrics :=
  let '(mkPos row col) := lastAssigned parent in
  let actions := domain_at (domain (problem parent)) row col in
  let nextPosition :=
    getNextPosition (state (problem parent)) (Some (lastAssigned parent)) in
  let currentDepth := getDepth parent in
  let metrics := note_depth (currentDepth + 1) metrics in
  let children :=
    map (λ value,
      let newState := set_cell row col (Some value) (state (problem parent)) in
      let domain := updateDomain (domain (problem parent)) (lastAssigned parent) value in
      child_of parent nextPosition newState domain) actions in
  (children, note_children (length children) metrics).

(** The forward check: some cell that is [null] in [newState] has an empty
    domain.  The scan follows the shape of [domain]. *)
Definition hasEmptyDomain (newState : Grid) (domain : Domain) : bool :=
  existsb (λ r,
    existsb (λ c, is_null newState r c && (length (domain_at domain r c) =? 0))
            (range 0 (length (domain !!! r))))
    (range 0 (length domain)).

Definition getChildren_forwarding (parent : Node) (metrics : Metrics)
  : list Node * Metrics :=
  let '(mkPos row col) := lastAssigned parent in
  let actions := domain_at (domain (problem parent)) row col in
  let nextPosition :=
    getNextPosition (state (problem parent)) (Some (lastAssigned parent)) in
  let currentDepth := getDepth parent in
  let metrics := note_depth (currentDepth + 1) metrics in
  let children :=
    omap (λ value,
      let newState := set_cell row col (Some value) (state (problem parent)) in
      let domain := updateDomain (domain (problem parent)) (lastAssigned parent) value in
      if hasEmptyDomain newState domain then None
      else Some (child_of parent nextPosition newState domain)) actions in
  (children, note_children (length children) metrics).

(** ** The depth-first loop *)

Inductive Outcome :=
  | Found (node : Node)
  | NoSolution
  | OutOfFuel.

(** [fringe.pop()]: the last element of the array. *)
Definition pop {A} (fringe : list A) : option (A * list A) :=
  match reverse fringe with
  | [] => None
  | current :: rest => Some (current, reverse rest)
  end.

(** The [while (fringe.length > 0)] loop, which the three backtracking
    procedures repeat word for word around their own expansion function.
    [fuel] bounds the number of iterations. *)
Fixpoint search (expand : Node → Metrics → list Node * Metrics)
    (fuel : nat) (fringe : list Node) (metrics : Metrics) : Outcome * Metrics :=
  match pop fringe with
  | None => (NoSolution, metrics)
  | Some (current, fringe) =>
      match fuel with
      | 0 => (OutOfFuel, metrics)
      | S fuel =>
          let metrics := note_expanded metrics in
          if consistent (problem current) then
            if isgoal (problem current) then (Found current, metrics)
            else
              let '(children, metrics) := expand current metrics in
              search expand fuel (fringe ++ children) metrics
          else search expand fuel fringe metrics
      end
  end.

Definition backtack (fuel : nat) (state : Grid) : Outcome * Metrics :=
  let metrics := reset in
  let problem := initiate state in
  match getNextPosition state None with
  | None => (Found (mkNode problem None (mkPos 0 0)), metrics)
  | Some firstEmpty =>
      search getChildren fuel [mkNode problem None firstEmpty] metrics
  end.

Definition backtack_forward (fuel : nat) (state : Grid) : Outcome * Metrics :=
  let metrics := reset in
  let problem := initiate state in
  match getNextPosition state None with
  | None => (Found (mkNode problem None (mkPos 0 0)), metrics)
  | Some firstEmpty =>
      search getChildren_forwarding fuel [mkNode problem None firstEmpty] metrics
  end.

(** ** Minimum remaining values, least constraining value *)

(** [getMRVPosition]: [minDomainSize] starts at [Infinity], here [None]. *)
Definition getMRVPosition (problem : SudokuProblem) : option Position :=
  snd (foldl (λ acc i,
    foldl (λ '(minDomainSize, bestPos) j,
      if is_null (state problem) i j then
        let domainSize := length (domain_at (domain problem) i j) in
        if (match minDomainSize with
            | None => true
            | Some m => domainSize <? m
            end) && (0 <? domainSize)
        then (Some domainSize, Some (mkPos i j))
        else (minDomainSize, bestPos)
      else (minDomainSize, bestPos)) acc (range 0 9))
    (None, None) (range 0 9)).

(** [state[i][j] === null && domain[i][j].includes(value)] *)
Definition open_with (problem : SudokuProblem) (value : Z) (i j : nat) : bool :=
  is_null (state problem) i j && bool_decide (value ∈ domain_at (domain problem) i j).

(** The tally [getLCV] computes for one value. *)
Definition lcv_count (problem : SudokuProblem) (pos : Position) (value : Z) : nat :=
  let '(mkPos row col) := pos in
  let count :=
    foldl (λ count i,
      let count := if open_with problem value row i then count + 1 else count in
      if open_with problem value i col then count + 1 else count)
      0 (range 0 9) in
  let subgridRowStart := row / 3 * 3 in
  let subgridColStart := col / 3 * 3 in
  foldl (λ count i,
    foldl (λ count j, if open_with problem value i j then count + 1 else count)
          count (range subgridColStart (subgridColStart + 3)))
    count (range subgridRowStart (subgridRowStart + 3)).

(** [Array.prototype.sort] is stable, so its result is determined by the
    keys: each element goes before the first later element that does not
    compare smaller. *)
Fixpoint insert_by_count (x : Z * nat) (sorted : list (Z * nat)) : list (Z * nat) :=
  match sorted with
  | [] => [x]
  | y :: rest =>
      if x.2 <=? y.2 then x :: y :: rest else y :: insert_by_count x rest
  end.

Definition sort_by_count (constraints : list (Z * nat)) : list (Z * nat) :=
  foldr insert_by_count [] constraints.

Definition getLCV (problem : SudokuProblem) (pos : Position) : list Z :=
  let values := domain_at (domain problem) (row pos) (col pos) in
  let constraints := map (λ value, (value, lcv_count problem pos value)) values in
  map fst (sort_by_count constraints).

Definition getChildren_MRV_LCV (parent : Node) (metrics : Metrics)
  : list Node * Metrics :=
  match getMRVPosition (problem parent) with
  | None => ([], metrics)
  | Some nextPosition =>
      let currentDepth := getDepth parent in
      let metrics := note_depth (currentDepth + 1) metrics in
      let actions := getLCV (problem parent) nextPosition in
      let children :=
        omap (λ value,
          let newState :=
            set_cell (row nextPosition) (col nextPosition) (Some value)
                     (state (problem parent)) in
          let domain := updateDomain (domain (problem parent)) nextPosition value in
          if hasEmptyDomain newState domain then None
          else
            let updatedProblem := mkProblem newState domain (fixed (problem parent)) in
            let nextMRVPosition := getMRVPosition updatedProblem in
            Some (mkNode updatedProblem (Some parent)
                         (default nextPosition nextMRVPosition))) actions in
      (children, note_children (length children) metrics)
  end.

Definition backtrack_MRV_LCV (fuel : nat) (state : Grid) : Outcome * Metrics :=
  let metrics := reset in
  let problem := initiate state in
  match getMRVPosition problem with
  | None => (Found (mkNode problem None (mkPos 0 0)), metrics)
  | Some firstMRV =>
      search getChildren_MRV_LCV fuel [mkNode problem None firstMRV] metrics
  end.

(** ** The objective of the local search *)

(** The body shared by the two inner loops of [countConflicts]:
    [if (seen.has(x)) conflicts++; seen.add(x)].  A [Set] holds any value,
    also [null] and [undefined]. *)
Definition see (acc : nat * gset (option Cell)) (x : option Cell)
  : nat * gset (option Cell) :=
  let '(conflicts, seen) := acc in
  (if decide (x ∈ seen) then conflicts + 1 else conflicts, {[x]} ∪ seen).

Definition countConflicts (state : Grid) : nat :=
  let conflicts := 0 in
  let conflicts :=
    foldl (λ conflicts i,
      (foldl (λ acc j, see acc (cell_at state i j)) (conflicts, ∅) (range 0 9)).1)
      conflicts (range 0 9) in
  foldl (λ conflicts j,
    (foldl (λ acc i, see acc (cell_at state i j)) (conflicts, ∅) (range 0 9)).1)
    conflicts (range 0 9).

(** ** Simulated annealing *)

(** The nine cells of block ([blockRow], [blockCol]), in the order of the
    two nested loops over [i] and [j]. *)
Definition block_cells (blockRow blockCol : nat) : list Position :=
  i ← range 0 3; j ← range 0 3; [mkPos (blockRow * 3 + i) (blockCol * 3 + j)].

(** The nine blocks in the order [randomCompleteAssignment] visits them, and
    the block a position lies in. *)
Definition all_blocks : list (nat * nat) :=
  blockRow ← range 0 3; blockCol ← range 0 3; [(blockRow, blockCol)].

Definition block_of (p : Position) : nat * nat := (row p / 3, col p / 3).

(** [[l[i], l[j]] = [l[j], l[i]]] for two indices inside the array. *)
Definition swap_entries {A} (i j : nat) (l : list A) : list A :=
  match l !! i, l !! j with
  | Some x, Some y => <[j := x]> (<[i := y]> l)
  | _, _ => l
  end.

(** The exchange of two cells of the grid. *)
Definition swap_cells (a b : Position) (g : Grid) : Grid :=
  match at_pos g a, at_pos g b with
  | Some x, Some y => set_cell (row b) (col b) x (set_cell (row a) (col a) y g)
  | _, _ => g
  end.

(** What one executed step of the annealing loop did.  The log of steps is
    kept for the statements only; the program has no such record. *)
Inductive Step :=
  | SkipFewCells
  | SkipSameCell
  | Move (accepted : bool).

(** A step counts as an attempted swap unless it was skipped because the
    chosen block had fewer than two cells that are not fixed. *)
Definition attempted (s : Step) : bool :=
  match s with
  | SkipFewCells => false
  | _ => true
  end.

Section Annealing.

(** The source of randomness and the floating-point arithmetic of the
    temperature are parameters of the model:
    - [random k] is the value of the [k]-th call of [Math.random()];
    - [scale r n] is [Math.floor(r * n)];
    - [T_start] is [1.0], and [cool] is
      [T *= alpha; if (T < T_min) T = T_min];
    - [metropolis r delta T] is [r < Math.exp(-delta / T)].
    Every function below takes the number of draws made so far and
    returns the number made when it is done. *)
Context {R Temp : Type}.
Variable random : nat → R.
Variable scale : R → nat → nat.
Variable T_start : Temp.
Variable cool : Temp → Temp.
Variable metropolis : R → Z → Temp → bool.

(** The shuffle of [missing]: [for (let i = missing.length - 1; i > 0; i--)]. *)
Definition shuffle (missing : list Z) (k : nat) : list Z * nat :=
  foldl (λ '(missing, k) i,
    let j := scale (random k) (i + 1) in
    (swap_entries i j missing, S k))
    (missing, k) (reverse (range 1 (length missing))).

(** The numbers already in the block. *)
Definition present_in (newState : Grid) (block : list Position) : gset Z :=
  foldl (λ present p,
    match at_pos newState p with
    | Some (Some val) => {[val]} ∪ present
    | _ => present
    end) ∅ block.

(** The empty cells of the block take [missing[0]], [missing[1]], ... in
    turn.  A read past the end of [missing] yields [undefined], which is
    written as [None] like [null]; no later test tells them apart, since
    each cell lies in one block only. *)
Definition fill_block (missing : list Z) (block : list Position) (newState : Grid)
  : Grid :=
  (foldl (λ '(newState, idx) p,
     if is_null newState (row p) (col p)
     then (set_cell (row p) (col p) (missing !! idx) newState, S idx)
     else (newState, idx)) (newState, 0) block).1.

Definition randomCompleteAssignment (state : Grid) (k : nat) : Grid * nat :=
  let newState := state in
  foldl (λ acc blockRow,
    foldl (λ '(newState, k) blockCol,
      let block := block_cells blockRow blockCol in
      let present := present_in newState block in
      let missing := filter (λ n, n ∉ present) full_domain in
      let '(missing, k) := shuffle missing k in
      (fill_block missing block newState, k)) acc (range 0 3))
    (newState, k) (range 0 3).

(** What [randomCompleteAssignment] does to one block. *)
Definition seed_block (acc : Grid * nat) (b : nat * nat) : Grid * nat :=
  let '(newState, k) := acc in
  let block := block_cells b.1 b.2 in
  let present := present_in newState block in
  let missing := filter (λ n, n ∉ present) full_domain in
  let '(missing, k) := shuffle missing k in
  (fill_block missing block newState, k).

(** The body of the [for] loop of [simulatedAnnealing], repeated while
    [step < maxSteps && currentConflicts > 0]; [steps] is
    [maxSteps - step]. *)
Fixpoint anneal (steps : nat) (fixed : Fixed) (current : Grid)
    (currentConflicts : nat) (T : Temp) (metrics : Metrics) (k : nat)
    (trace : list Step) : option Grid * Metrics * list Step :=
  match steps with
  | 0 => (if currentConflicts =? 0 then Some current else None, metrics, trace)
  | S steps =>
      if currentConflicts =? 0 then (Some current, metrics, trace)
      else
        let metrics := note_iteration metrics in
        let blockRow := scale (random k) 3 in
        let blockCol := scale (random (k + 1)) 3 in
        let cells :=
          filter (λ p, at_pos fixed p ≠ Some true) (block_cells blockRow blockCol) in
        if length cells <? 2 then
          anneal steps fixed current currentConflicts T metrics (k + 2)
                 (trace ++ [SkipFewCells])
        else
          let a := cells !!! scale (random (k + 2)) (length cells) in
          let b := cells !!! scale (random (k + 3)) (length cells) in
          if decide (a = b) then
            anneal steps fixed current currentConflicts T metrics (k + 4)
                   (trace ++ [SkipSameCell])
          else
            let next := swap_cells a b current in
            let nextConflicts := countConflicts next in
            let delta := (Z.of_nat nextConflicts - Z.of_nat currentConflicts)%Z in
            let '(accept, k) :=
              if (delta <? 0)%Z then (true, k + 4)
              else (metropolis (random (k + 4)) delta T, k + 5) in
            let '(current, currentConflicts) :=
              if accept then (next, nextConflicts)
              else (current, currentConflicts) in
            let T := cool T in
            if currentConflicts =? 0
            then (Some current, metrics, trace ++ [Move accept])
            else anneal steps fixed current currentConflicts T metrics k
                        (trace ++ [Move accept])
  end.

Definition simulatedAnnealing (state : Grid) (fixed : Fixed) (maxSteps : nat)
  : option Grid * Metrics * list Step :=
  let metrics := reset in
  let '(current, k) := randomCompleteAssignment state 0 in
  let currentConflicts := countConflicts current in
  if currentConflicts =? 0 then (Some current, metrics, [])
  else anneal maxSteps fixed current currentConflicts T_start metrics k [].

End Annealing.

(** ** Domain propagation on the heap

    In the program a matrix is an array object that holds references to row
    arrays, which hold references to arrays of numbers; [updateDomain]
    receives a reference.  This module runs [updateDomain] on a heap of
    array objects, with allocation and in-place writes, to state what the
    call does to the objects of its caller. *)
Module Heap.

Abbreviation ref := nat.

Inductive object :=
  | Numbers (cell : list Z)
  | Refs (entries : list ref).

(** The object at address [r] of heap [h] is [h !! r]; a new object takes
    the next address. *)
Abbreviation heap := (list object).

(** A computation on the heap that may throw ([None]). *)
Definition M (A : Type) : Type := heap → option (A * heap).

Definition ret {A} (x : A) : M A := λ h, Some (x, h).

Definition bind {A B} (c : M A) (k : A → M B) : M B :=
  λ h, match c h with
       | Some (x, h') => k x h'
       | None => None
       end.

Declare Scope heap_scope.
Delimit Scope heap_scope with heap.
Notation "'let*' x := c 'in' k" := (bind c (λ x, k))
  (at level 10, x name, c at level 100, k at level 200) : heap_scope.
Notation "c ;; k" := (bind c (λ _, k))
  (at level 100, k at level 200, right associativity) : heap_scope.
Local Open Scope heap_scope.

(** A value that must be defined: reading a property of [undefined] throws. *)
Definition defined {A} (x : option A) : M A := λ h, (., h) <$> x.

Definition alloc (o : object) : M ref := λ h, Some (length h, h ++ [o]).

Definition read_refs (r : ref) : M (list ref) :=
  λ h, match h !! r with
       | Some (Refs entries) => Some (entries, h)
       | _ => None
       end.

Definition read_numbers (r : ref) : M (list Z) :=
  λ h, match h !! r with
       | Some (Numbers cell) => Some (cell, h)
       | _ => None
       end.

(** [array[i] = x] for an index inside the array of references at [r]. *)
Definition write_entry (r : ref) (i : nat) (x : ref) : M unit :=
  λ h, match h !! r with
       | Some (Refs entries) =>
           if decide (i < length entries)
           then Some (tt, <[r := Refs (<[i := x]> entries)]> h)
           else None
       | _ => None
       end.

Fixpoint mapM {A B} (f : A → M B) (l : list A) : M (list B) :=
  match l with
  | [] => ret []
  | x :: l => let* y := f x in let* ys := mapM f l in ret (y :: ys)
  end.

Fixpoint forM {A} (l : list A) (f : A → M unit) : M unit :=
  match l with
  | [] => ret tt
  | x :: l => f x;; forM l f
  end.

(** [[...cell]] *)
Definition copy_cell (cell : ref) : M ref :=
  let* numbers := read_numbers cell in alloc (Numbers numbers).

(** [row.map(cell => [...cell])] *)
Definition copy_row (row : ref) : M ref :=
  let* cells := read_refs row in
  let* cells := mapM copy_cell cells in
  alloc (Refs cells).

(** [domain.map(row => row.map(cell => [...cell]))] *)
Definition copy_domain (domain : ref) : M ref :=
  let* rows := read_refs domain in
  let* rows := mapM copy_row rows in
  alloc (Refs rows).

(** [newDomain[i]] *)
Definition row_of (newDomain : ref) (i : nat) : M ref :=
  let* rows := read_refs newDomain in defined (rows !! i).

(** [newDomain[i][j] = numbers], where [numbers] is a new array. *)
Definition store (newDomain : ref) (i j : nat) (numbers : list Z) : M unit :=
  let* cell := alloc (Numbers numbers) in
  let* row := row_of newDomain i in
  write_entry row j cell.

(** [if (newDomain[i][j].includes(value))
       newDomain[i][j] = newDomain[i][j].filter(v => v !== value)] *)
Definition strike_entry (value : Z) (newDomain : ref) (i j : nat) : M unit :=
  let* row := row_of newDomain i in
  let* cells := read_refs row in
  let* cell := defined (cells !! j) in
  let* numbers := read_numbers cell in
  if decide (value ∈ numbers)
  then store newDomain i j (filter (λ v, v ≠ value) numbers)
  else ret tt.

Definition updateDomain (domain : ref) (position : Position) (value : Z) : M ref :=
  let* newDomain := copy_domain domain in
  let '(mkPos row col) := position in
  let* cells := (let* r := row_of newDomain row in read_refs r) in
  forM (range 0 (length cells)) (λ j, strike_entry value newDomain row j);;
  let* rows := read_refs newDomain in
  forM (range 0 (length rows)) (λ i, strike_entry value newDomain i col);;
  let subgridRowStart := row / 3 * 3 in
  let subgridColStart := col / 3 * 3 in
  forM (range subgridRowStart (subgridRowStart + 3)) (λ i,
    forM (range subgridColStart (subgridColStart + 3)) (λ j,
      strike_entry value newDomain i j));;
  store newDomain row col [];;
  ret newDomain.

(** An array literal for a matrix: every array is a new object. *)
Definition literal (domain : Domain) : M ref :=
  let* rows :=
    mapM (λ row,
      let* cells := mapM (λ cell, alloc (Numbers cell)) row in
      alloc (Refs cells)) domain in
  alloc (Refs rows).

(** The matrix an address stands for in a heap. *)
Definition holds_cell (h : heap) (r : ref) (cell : list Z) : Prop :=
  h !! r = Some (Numbers cell).

Definition holds_row (h : heap) (r : ref) (row : list (list Z)) : Prop :=
  ∃ cells, h !! r = Some (Refs cells) ∧ Forall2 (holds_cell h) cells row.

Definition holds (h : heap) (r : ref) (domain : Domain) : Prop :=
  ∃ rows, h !! r = Some (Refs rows) ∧ Forall2 (holds_row h) rows domain.

(** The copy under construction: a matrix whose outer array and row
    arrays were allocated after the heap [h0] of the caller and are
    pairwise different objects; [h0] itself is untouched. *)
Definition holds_fresh (h0 h : heap) (r : ref) (domain : Domain) : Prop :=
  h0 `prefix_of` h ∧
  ∃ rows, h !! r = Some (Refs rows) ∧ Forall2 (holds_row h) rows domain
          ∧ NoDup (r :: rows) ∧ Forall (λ x, length h0 ≤ x) (r :: rows).

End Heap.

(** ** The search of the earlier draft

    The draft has the same [initiate], [consistent], [isgoal] and
    [updateDomain] as [search.ts]; it keeps no counters, places the root at
    the top-left corner, and its expansion functions give up when no empty
    cell follows the current one. *)
Module DraftSearch.

(** [Actions]: the candidates of a cell. *)
Definition Actions (problem : SudokuProblem) (pos : Position) : list Z :=
  domain_at (domain problem) (row pos) (col pos).

Definition getChildren (parent : Node) : list Node :=
  match Draft.getNextPosition (state (problem parent)) (Some (lastAssigned parent)) with
  | None => []
  | Some nextPosition =>
      let actions := Actions (problem parent) (lastAssigned parent) in
      map (λ value,
        let newState :=
          set_cell (row (lastAssigned parent)) (col (lastAssigned parent)) (Some value)
                   (state (problem parent)) in
        let domain := updateDomain (domain (problem parent)) (lastAssigned parent) value in
        mkNode (mkProblem newState domain (fixed (problem parent)))
               (Some parent) nextPosition) actions
  end.

Definition getChildren_forwarding (parent : Node) : list Node :=
  match Draft.getNextPosition (state (problem parent)) (Some (lastAssigned parent)) with
  | None => []
  | Some nextPosition =>
      let actions := Actions (problem parent) (lastAssigned parent) in
      omap (λ value,
        let newState :=
          set_cell (row (lastAssigned parent)) (col (lastAssigned parent)) (Some value)
                   (state (problem parent)) in
        let domain := updateDomain (domain (problem parent)) (lastAssigned parent) value in
        if hasEmptyDomain newState domain then None
        else Some (mkNode (mkProblem newState domain (fixed (problem parent)))
                          (Some parent) nextPosition)) actions
  end.

(** The [while] loop of the draft; [fuel] bounds its iterations. *)
Fixpoint search (expand : Node → list Node) (fuel : nat) (fringe : list Node)
  : Outcome :=
  match pop fringe with
  | None => NoSolution
  | Some (current, fringe) =>
      match fuel with
      | 0 => OutOfFuel
      | S fuel =>
          if consistent (problem current) then
            if isgoal (problem current) then Found current
            else search expand fuel (fringe ++ expand current)
          else search expand fuel fringe
      end
  end.

Definition backtack (fuel : nat) (state : Grid) : Outcome :=
  let problem := initiate state in
  let root := mkNode problem None (mkPos 0 0) in
  search getChildren fuel [root].

Definition backtack_forward (fuel : nat) (state : Grid) : Outcome :=
  let problem := initiate state in
  let root := mkNode problem None (mkPos 0 0) in
  search getChildren_forwarding fuel [root].

End DraftSearch.

(** ** The user interface

    The component of [App.tsx] keeps the board, lets the user type into its
    cells and runs the chosen solver.  The board and what the solver hands
    back are modelled; the timing and the rendering are not. *)
Module App.

(** [emptyBoard()] *)
Definition emptyBoard : Grid := replicate 9 (replicate 9 None).

(** [findFirstEmpty]: the scan follows the length of each row. *)
Definition findFirstEmpty (board : Grid) : option Position :=
  first_some (λ i,
    first_some (λ j, if is_null board i j then Some (mkPos i j) else None)
               (range 0 (length (board !!! i))))
    (range 0 (length board)).

(** [board.map(row => row.map(cell => cell !== null))], the mask handed to
    simulated annealing. *)
Definition fixed_mask (board : Grid) : Fixed :=
  map (map (λ cell : Cell, bool_decide (cell ≠ None))) board.

(** The character class [[1-9]]. *)
Definition is_1_to_9 (c : ascii) : bool :=
  (49 <=? nat_of_ascii c) && (nat_of_ascii c <=? 57).

(** [text.replace(/[^1-9]/, "")]: the pattern has no [g] flag, so the first
    character outside the class is removed and the rest is kept.  A text is
    a string of 8-bit characters here. *)
Fixpoint strip_first (text : string) : string :=
  match text with
  | EmptyString => EmptyString
  | String c rest => if is_1_to_9 c then String c (strip_first rest) else rest
  end.

(** The value of a decimal digit. *)
Definition digit_value (c : ascii) : option Z :=
  if (48 <=? nat_of_ascii c) && (nat_of_ascii c <=? 57)
  then Some (Z.of_nat (nat_of_ascii c - 48))
  else None.

Fixpoint decimal (acc : Z) (value : string) : option Z :=
  match value with
  | EmptyString => Some acc
  | String c rest => d ← digit_value c; decimal (10 * acc + d) rest
  end.

(** [Number(value)] for a text of at most fifteen decimal digits, which
    [Number] reads as a decimal numeral without rounding.  Other texts are
    outside the model ([None]). *)
Definition Number (value : string) : option Z :=
  if String.length value <=? 15 then decimal 0 value else None.

(** [handleInput]: the new board; [None] where [Number] is outside the
    model. *)
Definition handleInput (board : Grid) (row col : nat) (value : string)
  : option Grid :=
  let newBoard := board in
  if decide (value = EmptyString) then Some (set_cell row col None newBoard)
  else v ← Number value; Some (set_cell row col (Some v) newBoard).

(** The [onChange] handler of the cell in row [i] and column [j]. *)
Definition onChange (board : Grid) (i j : nat) (text : string) : option Grid :=
  handleInput board i j (strip_first text).

(** The boards the user can build: the empty board, and a board after a
    text of at most one character (the [maxLength] of the input element) has
    come in for one of its cells. *)
Inductive typed : Grid → Prop :=
  | typed_empty : typed emptyBoard
  | typed_input board i j text board' :
      typed board → i < 9 → j < 9 → String.length text ≤ 1 →
      onChange board i j text = Some board' → typed board'.

(** What a solver call leaves in [solution]: the grid of the node, or
    [null]; [None] when the loop has not returned within the bound. *)
Definition solution_of (outcome : Outcome) : option (option Grid) :=
  match outcome with
  | Found node => Some (Some (state (problem node)))
  | NoSolution => Some None
  | OutOfFuel => None
  end.

(** The default of [maxSteps] in [simulatedAnnealing]. *)
Definition maxSteps_default : nat := 100 * 1000.

Definition complete_message : string := "Board is already complete.".
Definition failure_message : string :=
  "No solution found. The puzzle might be impossible to solve or too complex for the algorithm.".

Section Solver.

Context {R Temp : Type}.
Variable random : nat → R.
Variable scale : R → nat → nat.
Variable T_start : Temp.
Variable cool : Temp → Temp.
Variable metropolis : R → Z → Temp → bool.

(** [runSolver]: the pair handed to [setResult] and [setMessage] at the
    end.  [fuel] bounds the iterations of a backtracking loop, and the
    result is [None] when the loop has not returned within it.  Simulated
    annealing runs with its default number of steps.  The functions of the
    model do not throw, so the [catch] branch is left out. *)
Definition runSolver (fuel : nat) (algorithm : string) (board : Grid)
  : option (option Grid * option string) :=
  match findFirstEmpty board with
  | None => Some (Some board, Some complete_message)
  | Some _ =>
      let solution : option (option Grid) :=
        if decide (algorithm = "backtracking") then
          solution_of (backtack fuel board).1
        else if decide (algorithm = "forward") then
          solution_of (backtack_forward fuel board).1
        else if decide (algorithm = "mrv_lcv") then
          solution_of (backtrack_MRV_LCV fuel board).1
        else if decide (algorithm = "annealing") then
          let fixed := fixed_mask board in
          Some (simulatedAnnealing random scale T_start cool metropolis
                                   board fixed maxSteps_default).1.1
        else Some None in
      solution ← solution;
      Some (solution,
            match solution with
            | Some _ => None
            | None => Some failure_message
            end)
  end.

End Solver.

End App.

(** ** Vocabulary of the statements *)

(** A matrix with nine rows of nine entries. *)
Definition grid9 {A} (m : list (list A)) : Prop :=
  length m = 9 ∧ Forall (λ r, length r = 9) m.

Definition in_grid (p : Position) : Prop := row p < 9 ∧ col p < 9.

Definition same_block (p q : Position) : Prop :=
  row p / 3 = row q / 3 ∧ col p / 3 = col q / 3.

(** Two positions share a row, a column or a 3x3 block. *)
Definition share_group (p q : Position) : Prop :=
  row p = row q ∨ col p = col q ∨ same_block p q.

Global Instance share_group_dec p q : Decision (share_group p q).
Proof. unfold share_group, same_block. apply _. Defined.

(** The 81 positions of the grid, row by row. *)
Definition all_positions : list Position :=
  i ← range 0 9; j ← range 0 9; [mkPos i j].

(** The ordering of values as the specification words it: the tally of a
    value is the number of peers of [pos] (unassigned cells other than [pos]
    that share its row, column or block) whose domain holds the value. *)
Definition peer_count (problem : SudokuProblem) (pos : Position) (value : Z) : nat :=
  length (filter (λ q, q ≠ pos ∧ share_group pos q
                       ∧ open_with problem value (row q) (col q) = true)
                 all_positions).

Definition lcv_by_peers (problem : SudokuProblem) (pos : Position) : list Z :=
  let values := domain_at (domain problem) (row pos) (col pos) in
  map fst (sort_by_count (map (λ value, (value, peer_count problem pos value)) values)).

(** The problem obtained from a node by assigning [value] at [pos] and
    propagating: what a child carries when it is generated. *)
Definition candidate (parent : Node) (pos : Position) (value : Z) : SudokuProblem :=
  mkProblem (set_cell (row pos) (col pos) (Some value) (state (problem parent)))
            (updateDomain (domain (problem parent)) pos value)
            (fixed (problem parent)).

(** No cell that is unassigned in the state has an empty domain. *)
Definition no_dead_end (p : SudokuProblem) : Prop :=
  ∀ r c, cell_at (state p) r c = Some None → cell_at (domain p) r c ≠ Some [].

(** No two filled cells that share a row, a column or a block hold the same
    value. *)
Definition no_conflict (state : Grid) : Prop :=
  ∀ p q v, p ≠ q → share_group p q →
    at_pos state p = Some (Some v) → at_pos state q ≠ Some (Some v).

(** The cells of a grid in the order the loops of [consistent] visit them. *)
Definition cells (state : Grid) : list Position :=
  i ← range 0 (length state); j ← range 0 (length (state !!! i)); [mkPos i j].

(** A string without the separator of [subgridKey]. *)
Fixpoint no_dash (s : string) : Prop :=
  match s with
  | EmptyString => True
  | String c s => c ≠ "-"%char ∧ no_dash s
  end.

(** Row [i] and column [j] as [countConflicts] reads them. *)
Definition row_line (state : Grid) (i : nat) : list (option Cell) :=
  (λ j, cell_at state i j) <$> range 0 9.
Definition col_line (state : Grid) (j : nat) : list (option Cell) :=
  (λ i, cell_at state i j) <$> range 0 9.

(** The number of unordered pairs of places of a line that hold equal values. *)
Fixpoint equal_pairs (line : list (option Cell)) : nat :=
  match line with
  | [] => 0
  | x :: rest => length (filter (λ y, y = x) rest) + equal_pairs rest
  end.

(** The number of places of a line beyond the first occurrence of their
    value: the length less the number of distinct values. *)
Definition repeats (line : list (option Cell)) : nat :=
  length line - size (list_to_set line : gset (option Cell)).

(** A grid without an empty cell. *)
Definition no_empty_cell (state : Grid) : Prop :=
  Forall (Forall (λ c : Cell, is_Some c)) state.

(** [Math.floor(r * n)] stays below [n], as [Math.random()] is below one. *)
Definition scale_ok {R} (scale : R → nat → nat) : Prop :=
  ∀ r n, 0 < n → scale r n < n.

(** A digit of the puzzle. *)
Definition digit (v : Z) : Prop := (1 ≤ v ≤ 9)%Z.

(** Every filled cell of the grid holds a digit. *)
Definition digits_grid (state : Grid) : Prop :=
  Forall (Forall (λ c : Cell, from_option digit True c)) state.

(** Every candidate of every domain is a digit. *)
Definition digits_domain (domain : Domain) : Prop :=
  Forall (Forall (Forall digit)) domain.

Definition has_empty_cell (state : Grid) : Prop :=
  ∃ i j, cell_at state i j = Some None.

(** The cells of row [i] and of column [j]. *)
Definition row_cells (i : nat) : list Position := mkPos i <$> range 0 9.
Definition col_cells (j : nat) : list Position := (λ i, mkPos i j) <$> range 0 9.

(** The cells of a line hold every digit from 1 to 9 exactly once. *)
Definition complete (state : Grid) (line : list Position) : Prop :=
  at_pos state <$> line ≡ₚ (λ v, Some (Some v)) <$> full_domain.

Definition rows_complete (state : Grid) : Prop :=
  ∀ i, i < 9 → complete state (row_cells i).
Definition columns_complete (state : Grid) : Prop :=
  ∀ j, j < 9 → complete state (col_cells j).
Definition blocks_complete (state : Grid) : Prop :=
  ∀ blockRow blockCol, blockRow < 3 → blockCol < 3 →
    complete state (block_cells blockRow blockCol).

(** Every cell of the grid holds a digit. *)
Definition all_digits (state : Grid) : Prop :=
  ∀ p, in_grid p → ∃ v, at_pos state p = Some (Some v) ∧ digit v.

(** A solved puzzle. *)
Definition solved (state : Grid) : Prop :=
  no_empty_cell state ∧ rows_complete state ∧ columns_complete state
  ∧ blocks_complete state.

(** No block of the grid holds the same value in two of its filled cells. *)
Definition blocks_clean (state : Grid) : Prop :=
  ∀ p q v, p ≠ q → in_grid p → in_grid q → same_block p q →
    at_pos state p = Some (Some v) → at_pos state q ≠ Some (Some v).

(** A line of nine different cells of the grid, any two of which share a
    row, a column or a block. *)
Definition group_line (line : list Position) : Prop :=
  NoDup line ∧ length line = 9 ∧ Forall in_grid line
  ∧ Forall (λ p, Forall (share_group p) line) line.

(** What the searches keep true of every node: both matrices are 9x9, the
    filled cells hold digits and the candidates are digits. *)
Definition node_ok (n : Node) : Prop :=
  grid9 (state (problem n)) ∧ grid9 (domain (problem n))
  ∧ digits_grid (state (problem n)) ∧ digits_domain (domain (problem n)).

(** The values a block holds once its empty cells have taken
    [missing[idx]], [missing[idx + 1]], ... in turn. *)
Fixpoint fill_values (missing : list Z) (idx : nat) (vals : list (option Cell))
  : list (option Cell) :=
  match vals with
  | [] => []
  | Some None :: rest => Some (missing !! idx) :: fill_values missing (S idx) rest
  | x :: rest => x :: fill_values missing idx rest
  end.

(** The number held by a cell that has been read, if any. *)
Definition cell_value (x : option Cell) : option Z :=
  match x with
  | Some (Some v) => Some v
  | _ => None
  end.

(** Row-major order on positions. *)
Definition pos_lt (p q : Position) : Prop :=
  row p < row q ∨ (row p = row q ∧ col p < col q).

Global Instance pos_lt_dec p q : Decision (pos_lt p q).
Proof. unfold pos_lt. apply _. Defined.

(** The positions a scan visits when it starts after [currentPosition]. *)
Definition after (currentPosition : option Position) (q : Position) : Prop :=
  match currentPosition with
  | Some p => pos_lt p q
  | None => True
  end.

(** [result] holds every value that [grid] holds. *)
Definition extends (grid result : Grid) : Prop :=
  ∀ p v, at_pos grid p = Some (Some v) → at_pos result p = Some (Some v).

(** The number of empty cells. *)
Definition count_nulls (state : Grid) : nat :=
  length (filter (λ c : Cell, c = None) (concat state)).

(** The puzzle has a solution: a solved grid that keeps the givens. *)
Definition solvable (grid : Grid) : Prop :=
  ∃ solution, solved solution ∧ extends grid solution.

(** The number of candidates left for a cell. *)
Definition remaining (problem : SudokuProblem) (q : Position) : nat :=
  length (domain_at (domain problem) (row q) (col q)).

(** A cell the MRV rule may choose: empty in the state, with a candidate
    left. *)
Definition eligible (problem : SudokuProblem) (q : Position) : Prop :=
  is_null (state problem) (row q) (col q) = true ∧ 0 < remaining problem q.

(** The three backtracking procedures. *)
Definition procedures : list (nat → Grid → Outcome * Metrics) :=
  [backtack; backtack_forward; backtrack_MRV_LCV].

(** The cells [getLCV] looks at for a position, each as many times as its
    loops visit it: the row, the column and the block of the position. *)
Definition lcv_cells (pos : Position) : list Position :=
  row_cells (row pos) ++ col_cells (col pos)
  ++ block_cells (row pos / 3) (col pos / 3).

(** The number of elements of a list that pass a test. *)
Definition tally {A} (f : A → bool) (l : list A) : nat :=
  length (filter (λ x, f x = true) l).

(** ** Auxiliary definitions of the proofs *)

(** The effect of a pass on one cell: struck when the pass visits it. *)
Definition struck_if (P : Prop) `{!Decision P} (value : Z) (c : option (list Z))
  : option (list Z) :=
  if decide P then strike value <$> c else c.

(** The step of the first loop of [consistent] at one position. *)
Definition collect_step (state : Grid) (hashmap : gmap Z (list Position))
    (p : Position) : gmap Z (list Position) :=
  match at_pos state p with
  | Some (Some value) => hashmap_push value p hashmap
  | _ => hashmap
  end.

(** The step of the two loops of [getMRVPosition] at one cell. *)
Definition mrv_step (problem : SudokuProblem) (acc : option nat * option Position)
    (p : Position) : option nat * option Position :=
  let '(minDomainSize, bestPos) := acc in
  if is_null (state problem) (row p) (col p) then
    let domainSize := length (domain_at (domain problem) (row p) (col p)) in
    if (match minDomainSize with
        | None => true
        | Some m => domainSize <? m
        end) && (0 <? domainSize)
    then (Some domainSize, Some p)
    else (minDomainSize, bestPos)
  else (minDomainSize, bestPos).

Global Instance in_grid_dec p : Decision (in_grid p).
Proof. unfold in_grid. apply _. Defined.

Global Instance group_line_dec line : Decision (group_line line).
Proof. unfold group_line. apply _. Defined.

Global Instance digit_dec v : Decision (digit v).
Proof. unfold digit. apply _. Defined.

(** Linear arithmetic with division by a constant. *)
Ltac Zify.zify_post_hook ::= Z.to_euclidean_division_equations.

(** Closed decidable facts are settled by evaluation. *)
Ltac by_evaluation :=
  match goal with
  | |- ?P => apply (bool_decide_unpack P); vm_compute; exact I
  end.

(** The cells the double loop of [getNextPosition] visits when it starts at
    row [sr] and column [sc]: the cells of row [sr] from column [sc] on, and
    the rows below. *)
Definition scan_from (sr sc : nat) (q : Position) : Prop :=
  sr < row q ∨ (row q = sr ∧ sc ≤ col q).

(** The cell a node is about to fill is empty, unless the node has no
    candidate for it. *)
Definition open_or_dead (n : Node) : Prop :=
  is_null (state (problem n)) (row (lastAssigned n)) (col (lastAssigned n)) = true
  ∨ domain_at (domain (problem n)) (row (lastAssigned n)) (col (lastAssigned n)) = [].

(** What ties a node of a search to the grid the search was started on:
    the node keeps the values of the grid, and it has filled one empty cell
    per level of the tree. *)
Definition tracks (grid : Grid) (n : Node) : Prop :=
  extends grid (state (problem n))
  ∧ getDepth n + count_nulls (state (problem n)) = count_nulls grid
  ∧ open_or_dead n.

(** How an expansion function may change the counters. *)
Definition counts_children (expand : Node → Metrics → list Node * Metrics) : Prop :=
  ∀ n m,
    nodesExpanded (expand n m).2 = nodesExpanded m
    ∧ childrenGenerated (expand n m).2 = childrenGenerated m + length (expand n m).1
    ∧ iterations (expand n m).2 = iterations m.

(** The number of empty cells of a row. *)
Definition row_nulls (r : list Cell) : nat :=
  length (filter (λ c : Cell, c = None) r).

(** The accumulator of [getMRVPosition] once the cells [seen] have been
    visited: the best cell is the first of the eligible cells with the
    fewest candidates. *)
Definition mrv_inv (problem : SudokuProblem) (seen : list Position)
    (acc : option nat * option Position) : Prop :=
  match acc with
  | (None, None) => ∀ q, q ∈ seen → ¬ eligible problem q
  | (Some m, Some p) =>
      eligible problem p ∧ m = remaining problem p
      ∧ ∃ l1 l2, seen = l1 ++ p :: l2
          ∧ (∀ q, q ∈ l1 → eligible problem q → m < remaining problem q)
          ∧ (∀ q, q ∈ l2 → eligible problem q → m ≤ remaining problem q)
  | _ => False
  end.

(** How an expansion function places its children in the tree and records
    the depth. *)
Definition deepens (expand : Node → Metrics → list Node * Metrics) : Prop :=
  ∀ n m,
    Forall (λ c, getDepth c = getDepth n + 1) (expand n m).1
    ∧ maxDepth m ≤ maxDepth (expand n m).2
    ∧ maxDepth (expand n m).2 ≤ maxDepth m `max` (getDepth n + 1)
    ∧ ((expand n m).1 ≠ [] → getDepth n + 1 ≤ maxDepth (expand n m).2).

(** The fringe and the depth counter during a search started on [grid]. *)
Definition depth_inv (grid : Grid) (fringe : list Node) (m : Metrics) : Prop :=
  Forall (tracks grid) fringe
  ∧ Forall (λ n, getDepth n ≤ maxDepth m) fringe
  ∧ maxDepth m ≤ count_nulls grid.

(** The expansion functions of the three procedures. *)
Definition expansions : list (Node → Metrics → list Node * Metrics) :=
  [getChildren; getChildren_forwarding; getChildren_MRV_LCV].

(** The loop disposes of the nodes [l] on top of the fringe within a bounded
    number of iterations: it returns a goal, or it goes on with the
    fringe below them. *)
Definition settles (expand : Node → Metrics → list Node * Metrics) (l : list Node)
  : Prop :=
  ∀ fringe m, ∃ used m',
    (∀ fuel, search expand (used + fuel) (fringe ++ l) m = search expand fuel fringe m')
    ∨ (∃ node, ∀ fuel, search expand (used + fuel) (fringe ++ l) m = (Found node, m')).

(** A node on the way to [solution]: its state holds values of the
    solution only, and the value the solution has for an empty cell is
    still a candidate of that cell. *)
Definition leads_to (solution : Grid) (n : Node) : Prop :=
  node_ok n
  ∧ extends (state (problem n)) solution
  ∧ ∀ q v, is_null (state (problem n)) (row q) (col q) = true →
           at_pos solution q = Some (Some v) →
           v ∈ domain_at (domain (problem n)) (row q) (col q).

(** The node is placed on the first empty cell of its state, if there is
    one. *)
Definition at_first_empty (n : Node) : Prop :=
  (∀ r, pos_lt r (lastAssigned n) → at_pos (state (problem n)) r ≠ Some None)
  ∧ (is_null (state (problem n)) (row (lastAssigned n)) (col (lastAssigned n)) = true
     ∨ no_empty_cell (state (problem n))).

(** The order of the pairs of a value and its tally. *)
Definition by_count (a b : Z * nat) : Prop := a.2 ≤ b.2.

(** The case analysis on the three expansion functions. *)
Ltac each_expansion H :=
  unfold expansions in H;
  repeat (apply elem_of_cons in H as [->|H]); [| | |by apply elem_of_nil in H].

(** ** Sample inputs *)

(** The grid without givens and its initial problem. *)
Definition empty_grid : Grid := replicate 9 (replicate 9 None).
Definition empty_problem : SudokuProblem := initiate empty_grid.

(** A full grid holding the same digit everywhere. *)
Definition ones_grid : Grid := replicate 9 (replicate 9 (Some 1%Z)).

(** The mask that marks every cell as given. *)
Definition all_fixed : Fixed := replicate 9 (replicate 9 true).

(** A source of randomness that always draws zero, with a temperature
    without content and a Metropolis test that always rejects. *)
Definition zero_random (k : nat) : nat := 0.
Definition zero_scale (r n : nat) : nat := 0.
Definition no_cooling (T : unit) : unit := T.
Definition never_accept (r : nat) (delta : Z) (T : unit) : bool := false.

(** A solved grid, and the puzzle left when six of its cells are emptied:
    three in row 0 and the three below them in row 4. *)
Definition sample_solution : Grid :=
  map (map Some)
    [[5; 3; 4; 6; 7; 8; 9; 1; 2];
     [6; 7; 2; 1; 9; 5; 3; 4; 8];
     [1; 9; 8; 3; 4; 2; 5; 6; 7];
     [8; 5; 9; 7; 6; 1; 4; 2; 3];
     [4; 2; 6; 8; 5; 3; 7; 9; 1];
     [7; 1; 3; 9; 2; 4; 8; 5; 6];
     [9; 6; 1; 5; 3; 7; 2; 8; 4];
     [2; 8; 7; 4; 1; 9; 6; 3; 5];
     [3; 4; 5; 2; 8; 6; 1; 7; 9]]%Z.

Definition sample_puzzle : Grid :=
  foldr (λ p g, set_cell (row p) (col p) None g) sample_solution
        [mkPos 0 4; mkPos 0 5; mkPos 0 8; mkPos 4 4; mkPos 4 5; mkPos 4 8].

(** The problem the MRV search of [sample_puzzle] holds once row 0 has been
    completed with 7, 8 and 2: the cells (4,4), (4,5) and (4,8) are open, and
    their domains have lost 7, 8 and 2 respectively. *)
Definition sample_open_row : SudokuProblem :=
  let root := mkNode (initiate sample_puzzle) None (mkPos 0 4) in
  let n1 := mkNode (candidate root (mkPos 0 4) 7) (Some root) (mkPos 0 5) in
  let n2 := mkNode (candidate n1 (mkPos 0 5) 8) (Some n1) (mkPos 0 8) in
  candidate n2 (mkPos 0 8) 2.

(** The ancestors of a node, nearest first. *)
Fixpoint ancestors (node : Node) : list Node :=
  match node with
  | mkNode _ (Some parent) _ => parent :: ancestors parent
  | mkNode _ None _ => []
  end.

(** The cyclic Latin square: every row and every column holds each digit
    once, and the blocks repeat digits. *)
Definition latin_grid : Grid :=
  map (λ i, map (λ j, Some (Z.of_nat ((i + j) mod 9) + 1)%Z) (seq 0 9)) (seq 0 9).

(** A heap that holds the initial domains of the grid without givens, and
    the address of the matrix in it. *)
Definition sample_heap : Heap.heap * Heap.ref :=
  match Heap.literal (domain empty_problem) [] with
  | Some (r, h) => (h, r)
  | None => ([], 0)
  end.

(** A puzzle without a solution: row 0 of [sample_solution] with its first
    cell emptied and a second 4 next to it. *)
Definition sample_clash : Grid :=
  set_cell 0 0 None (set_cell 0 1 (Some 4%Z) sample_solution).


(** ** Theorems *)

Lemma first_some_ext_in {A B} (f g : A → option B) l :
  (∀ x, x ∈ l → f x = g x) → first_some f l = first_some g l.
Proof.
  induction l as [|x l IH]; intros Hfg; [done|]. cbn.
  rewrite (Hfg x) by left.
  destruct (g x); [done|]. apply IH. intros y Hy. apply Hfg. by right.
Qed.

Lemma range_cons from to : from < to → range from to = from :: range (S from) to.
Proof.
  unfold range. intros H.
  replace (to - from) with (S (to - S from)) by lia. done.
Qed.

Lemma range_nil from to : to ≤ from → range from to = [].
Proof. unfold range. intros H. by replace (to - from) with 0 by lia. Qed.

Lemma elem_of_range k from to : k ∈ range from to ↔ from ≤ k < to.
Proof. unfold range. rewrite elem_of_seq. lia. Qed.

(** C10: the two copies of [getNextPosition] return the same position (or
    both none) on every grid and every current position; the explicit
    end-of-row adjustment of [search.ts] changes nothing. *)
Theorem getNextPosition_copies_agree (state : Grid) (currentPosition : option Position) :
  getNextPosition state currentPosition = Draft.getNextPosition state currentPosition.
Proof.
  unfold getNextPosition, Draft.getNextPosition.
  set (size := length state).
  set (startRow := match currentPosition with Some p => row p | None => 0 end).
  set (startCol := match currentPosition with Some p => col p + 1 | None => 0 end).
  destruct (Nat.leb_spec size startCol) as [Hle|Hlt]; [|done].
  replace (startRow + 1) with (S startRow) by lia.
  destruct (decide (startRow < size)) as [Hr|Hr].
  - rewrite (range_cons startRow size) by done. cbn [first_some].
    rewrite Nat.eqb_refl, (range_nil startCol size) by done. cbn [first_some].
    apply first_some_ext_in. intros i [Hi _]%elem_of_range.
    destruct (Nat.eqb_spec i (S startRow)), (Nat.eqb_spec i startRow); done || lia.
  - by rewrite !range_nil by lia.
Qed.

(** ** Domain propagation, pointwise *)

Lemma grid9_cell_at {A} (m : list (list A)) i j :
  grid9 m → i < 9 → j < 9 → is_Some (cell_at m i j).
Proof.
  intros [Hlen Hrows] Hi Hj. unfold cell_at.
  destruct (lookup_lt_is_Some_2 m i) as [r Hr]; [lia|].
  rewrite Hr. cbn. apply lookup_lt_is_Some_2.
  rewrite Forall_lookup in Hrows. rewrite (Hrows _ _ Hr). done.
Qed.

Lemma grid9_row_length {A} `{!Inhabited (list A)} (m : list (list A)) i :
  grid9 m → i < 9 → length (m !!! i) = 9.
Proof.
  intros [Hlen Hrows] Hi.
  destruct (lookup_lt_is_Some_2 m i) as [r Hr]; [lia|].
  rewrite (list_lookup_total_correct _ _ _ Hr).
  rewrite Forall_lookup in Hrows. eauto.
Qed.

Lemma strike_filter value cell : strike value cell = filter (λ v, v ≠ value) cell.
Proof.
  unfold strike. case_decide as Hin; [done|].
  induction cell as [|x cell IH]; [done|].
  rewrite filter_cons. rewrite not_elem_of_cons in Hin. destruct Hin as [Hx Hin].
  rewrite decide_True by done. f_equal. auto.
Qed.

Lemma strike_idemp value cell : strike value (strike value cell) = strike value cell.
Proof.
  rewrite !strike_filter. induction cell as [|x cell IH]; [done|].
  rewrite filter_cons. case_decide; [|done].
  rewrite filter_cons, decide_True by done. by f_equal.
Qed.

Lemma cell_at_strike_at value i j d i' j' :
  cell_at (strike_at value i j d) i' j'
  = struck_if (i' = i ∧ j' = j) value (cell_at d i' j').
Proof.
  unfold strike_at, cell_at, struck_if.
  destruct (decide (i' = i)) as [->|Hi].
  - rewrite list_lookup_alter_eq. destruct (d !! i) as [r|]; cbn.
    + destruct (decide (j' = j)) as [->|Hj].
      * rewrite list_lookup_alter_eq. by rewrite decide_True.
      * rewrite list_lookup_alter_ne by done. rewrite decide_False; [done|]. tauto.
    + by case_decide.
  - rewrite list_lookup_alter_ne by done. rewrite decide_False; [done|]. tauto.
Qed.

Lemma struck_if_twice (P Q : Prop) `{!Decision P, !Decision Q}
    value c :
  struck_if P value (struck_if Q value c) = struck_if (P ∨ Q) value c.
Proof.
  unfold struck_if. repeat case_decide; try done; try tauto.
  rewrite <-option_fmap_compose. apply option_fmap_ext. intros ?. apply strike_idemp.
Qed.

Lemma struck_if_iff (P Q : Prop) `{!Decision P, !Decision Q} value c :
  (P ↔ Q) → struck_if P value c = struck_if Q value c.
Proof. intros HPQ. unfold struck_if. repeat case_decide; done || tauto. Qed.

Lemma cell_at_strike_cols value i js d i' j' :
  cell_at (foldl (λ d j, strike_at value i j d) d js) i' j'
  = struck_if (i' = i ∧ j' ∈ js) value (cell_at d i' j').
Proof.
  revert d. induction js as [|j js IH]; intros d; cbn.
  - unfold struck_if. rewrite decide_False; [done|]. rewrite elem_of_nil. tauto.
  - rewrite IH, cell_at_strike_at, struck_if_twice.
    apply struck_if_iff. rewrite elem_of_cons. tauto.
Qed.

Lemma cell_at_strike_rows value j ks d i' j' :
  cell_at (foldl (λ d i, strike_at value i j d) d ks) i' j'
  = struck_if (i' ∈ ks ∧ j' = j) value (cell_at d i' j').
Proof.
  revert d. induction ks as [|i ks IH]; intros d; cbn.
  - unfold struck_if. rewrite decide_False; [done|]. rewrite elem_of_nil. tauto.
  - rewrite IH, cell_at_strike_at, struck_if_twice.
    apply struck_if_iff. rewrite elem_of_cons. tauto.
Qed.

Lemma cell_at_strike_block value ks js d i' j' :
  cell_at (foldl (λ d i, foldl (λ d j, strike_at value i j d) d js) d ks) i' j'
  = struck_if (i' ∈ ks ∧ j' ∈ js) value (cell_at d i' j').
Proof.
  revert d. induction ks as [|i ks IH]; intros d; cbn.
  - unfold struck_if. rewrite decide_False; [done|]. rewrite elem_of_nil. tauto.
  - rewrite IH, cell_at_strike_cols, struck_if_twice.
    apply struck_if_iff. rewrite elem_of_cons. tauto.
Qed.

Lemma cell_at_set_cell {A} i j (x : A) (m : list (list A)) i' j' :
  cell_at (set_cell i j x m) i' j'
  = if decide (i' = i ∧ j' = j) then cell_at m i' j' ≫= λ _, Some x
    else cell_at m i' j'.
Proof.
  unfold set_cell, cell_at.
  destruct (decide (i' = i)) as [->|Hi].
  - rewrite list_lookup_alter_eq. destruct (m !! i) as [r|]; cbn.
    + destruct (decide (j' = j)) as [->|Hj].
      * rewrite decide_True by done.
        destruct (r !! j) eqn:Hr; cbn.
        -- apply list_lookup_insert_eq. by eapply lookup_lt_Some.
        -- by apply list_lookup_insert_None.
      * rewrite list_lookup_insert_ne by done. rewrite decide_False; [done|]. tauto.
    + by case_decide.
  - rewrite list_lookup_alter_ne by done. rewrite decide_False; [done|]. tauto.
Qed.

Lemma length_strike_at value i j d : length (strike_at value i j d) = length d.
Proof. apply length_alter. Qed.

Lemma length_foldl_strike_at value i js d :
  length (foldl (λ d j, strike_at value i j d) d js) = length d.
Proof.
  revert d. induction js as [|j js IH]; intros d; cbn; [done|].
  by rewrite IH, length_strike_at.
Qed.

Lemma same_block_range i r : i ∈ range (r / 3 * 3) (r / 3 * 3 + 3) ↔ r / 3 = i / 3.
Proof. rewrite elem_of_range. lia. Qed.

(** Every cell of the result of [updateDomain], in one equation. *)
Lemma cell_at_updateDomain (domain : Domain) (p q : Position) (value : Z) :
  grid9 domain → in_grid p → in_grid q →
  at_pos (updateDomain domain p value) q
  = if decide (q = p) then Some []
    else struck_if (share_group p q) value (at_pos domain q).
Proof.
  intros Hd [Hpr Hpc] [Hqr Hqc]. destruct p as [r c], q as [i j]. cbn [row col] in *.
  unfold at_pos, updateDomain. cbn [row col].
  rewrite cell_at_set_cell, cell_at_strike_block, cell_at_strike_rows, cell_at_strike_cols.
  rewrite !struck_if_twice.
  rewrite length_foldl_strike_at, (proj1 Hd), grid9_row_length by done.
  destruct (decide (i = r ∧ j = c)) as [[-> ->]|Hne].
  - rewrite decide_True by done.
    destruct (grid9_cell_at domain r c Hd Hpr Hpc) as [x Hx].
    unfold struck_if. case_decide; rewrite Hx; done.
  - rewrite decide_False by (intros [= -> ->]; tauto).
    apply struck_if_iff. unfold share_group, same_block; cbn [row col].
    rewrite !same_block_range, !elem_of_range. lia.
Qed.

Lemma grid9_alter {A} (f : list A → list A) i (m : list (list A)) :
  (∀ r, length (f r) = length r) → grid9 m → grid9 (alter f i m).
Proof.
  intros Hf [Hlen Hrows]. split; [by rewrite length_alter|].
  rewrite Forall_lookup in Hrows. apply Forall_lookup. intros k r.
  destruct (decide (k = i)) as [->|Hk].
  - rewrite list_lookup_alter_eq. destruct (m !! i) as [r0|] eqn:Hr0; [|done].
    intros [= <-]. rewrite Hf. eauto.
  - rewrite list_lookup_alter_ne by done. eauto.
Qed.

Lemma grid9_strike_at value i j d : grid9 d → grid9 (strike_at value i j d).
Proof. apply grid9_alter. intros r. apply length_alter. Qed.

Lemma grid9_set_cell {A} i j (x : A) m : grid9 m → grid9 (set_cell i j x m).
Proof. apply grid9_alter. intros r. apply length_insert. Qed.

Lemma grid9_foldl {A B} (f : list (list A) → B → list (list A)) l m :
  (∀ m x, grid9 m → grid9 (f m x)) → grid9 m → grid9 (foldl f m l).
Proof. intros Hf. revert m. induction l; cbn; auto. Qed.

Lemma grid9_updateDomain domain p value :
  grid9 domain → grid9 (updateDomain domain p value).
Proof.
  intros Hd. destruct p as [r c]. unfold updateDomain.
  apply grid9_set_cell.
  apply grid9_foldl.
  { intros m i Hm. apply grid9_foldl; [|done]. intros m' j Hm'. by apply grid9_strike_at. }
  apply grid9_foldl; [intros; by apply grid9_strike_at|].
  apply grid9_foldl; [intros; by apply grid9_strike_at|done].
Qed.

(** C4: on a 9x9 domain matrix and a position [p] of the grid,
    [updateDomain] empties the domain at [p], removes [value] from the domain
    of every other cell that shares the row, the column or the block of [p],
    and leaves every remaining cell's domain as it was. *)
Theorem updateDomain_spec (domain : Domain) (p : Position) (value : Z) :
  grid9 domain → in_grid p →
  at_pos (updateDomain domain p value) p = Some [] ∧
  (∀ q, in_grid q → q ≠ p → share_group p q →
     at_pos (updateDomain domain p value) q
     = filter (λ v, v ≠ value) <$> at_pos domain q) ∧
  (∀ q, in_grid q → ¬ share_group p q →
     at_pos (updateDomain domain p value) q = at_pos domain q).
Proof.
  intros Hd Hp. split; [|split].
  - rewrite cell_at_updateDomain by done. by rewrite decide_True.
  - intros q Hq Hne Hshare. rewrite cell_at_updateDomain by done.
    rewrite decide_False by done. unfold struck_if. rewrite decide_True by done.
    apply option_fmap_ext. intros c. apply strike_filter.
  - intros q Hq Hshare. rewrite cell_at_updateDomain by done.
    rewrite decide_False.
    + unfold struck_if. by rewrite decide_False.
    + intros ->. apply Hshare. by left.
Qed.

Lemma grid9_empty_domain : grid9 (domain empty_problem).
Proof. split; [reflexivity|]. repeat constructor. Qed.

Lemma updateDomain_spec_witness :
  at_pos (updateDomain (domain empty_problem) (mkPos 4 4) 5) (mkPos 4 4) = Some [].
Proof.
  apply (updateDomain_spec (domain empty_problem) (mkPos 4 4) 5).
  - exact grid9_empty_domain.
  - unfold in_grid. cbn. lia.
Defined.

(** ** Forward checking *)

Lemma existsb_true_iff {A} (f : A → bool) l :
  existsb f l = true ↔ ∃ x, x ∈ l ∧ f x = true.
Proof.
  induction l as [|y l IH]; cbn.
  - split; [done|]. intros (x & Hx & _). by apply elem_of_nil in Hx.
  - rewrite orb_true_iff, IH. setoid_rewrite elem_of_cons. naive_solver.
Qed.

Lemma cell_at_Some {A} `{!Inhabited (list A)} (m : list (list A)) r c x :
  cell_at m r c = Some x → r < length m ∧ c < length (m !!! r).
Proof.
  unfold cell_at. destruct (m !! r) as [rw|] eqn:Hr; [|done]. cbn. intros Hc.
  split; [by eapply lookup_lt_Some|].
  rewrite (list_lookup_total_correct _ _ _ Hr). by eapply lookup_lt_Some.
Qed.

Lemma hasEmptyDomain_true newState domain :
  hasEmptyDomain newState domain = true
  ↔ ∃ r c, cell_at newState r c = Some None ∧ cell_at domain r c = Some [].
Proof.
  unfold hasEmptyDomain. rewrite existsb_true_iff. split.
  - intros (r & Hr & (c & Hc & Hrc)%existsb_true_iff).
    apply elem_of_range in Hr, Hc. apply andb_true_iff in Hrc as [Hnull Hlen].
    exists r, c. split.
    + unfold is_null in Hnull. by destruct (cell_at newState r c) as [[?|]|].
    + unfold domain_at in Hlen. apply Nat.eqb_eq in Hlen.
      destruct (cell_at domain r c) as [cell|] eqn:Hcell.
      * cbn in Hlen. by destruct cell.
      * unfold cell_at in Hcell.
        destruct (lookup_lt_is_Some_2 domain r) as [rw Hrw]; [lia|].
        rewrite (list_lookup_total_correct _ _ _ Hrw) in Hc.
        rewrite Hrw in Hcell. cbn in Hcell. apply lookup_ge_None in Hcell. lia.
  - intros (r & c & Hst & Hdom). apply cell_at_Some in Hdom as Hin.
    exists r. split; [apply elem_of_range; lia|].
    apply existsb_true_iff. exists c. split; [apply elem_of_range; lia|].
    unfold is_null, domain_at. by rewrite Hst, Hdom.
Qed.

Lemma hasEmptyDomain_false newState domain fixed :
  hasEmptyDomain newState domain = false
  ↔ no_dead_end (mkProblem newState domain fixed).
Proof.
  rewrite <-not_true_iff_false, hasEmptyDomain_true. unfold no_dead_end. cbn.
  naive_solver.
Qed.

Lemma forwarding_children parent metrics :
  problem <$> (getChildren_forwarding parent metrics).1
  = omap (λ value,
      if hasEmptyDomain (state (candidate parent (lastAssigned parent) value))
                        (domain (candidate parent (lastAssigned parent) value))
      then None else Some (candidate parent (lastAssigned parent) value))
    (domain_at (domain (problem parent))
               (row (lastAssigned parent)) (col (lastAssigned parent))).
Proof.
  unfold getChildren_forwarding. destruct (lastAssigned parent) as [r c] eqn:Hp.
  cbn [fst row col]. rewrite list_fmap_omap. apply list_omap_ext, Forall2_same_length_lookup.
  split; [done|]. intros i value value' Hv Hv'. assert (value' = value) as -> by congruence.
  unfold candidate. cbn [state domain row col]. by destruct (hasEmptyDomain _ _).
Qed.

Lemma MRV_LCV_children parent metrics nextPosition :
  getMRVPosition (problem parent) = Some nextPosition →
  problem <$> (getChildren_MRV_LCV parent metrics).1
  = omap (λ value,
      if hasEmptyDomain (state (candidate parent nextPosition value))
                        (domain (candidate parent nextPosition value))
      then None else Some (candidate parent nextPosition value))
    (getLCV (problem parent) nextPosition).
Proof.
  unfold getChildren_MRV_LCV. intros ->.
  cbn [fst]. rewrite list_fmap_omap. apply list_omap_ext, Forall2_same_length_lookup.
  split; [done|]. intros i value value' Hv Hv'. assert (value' = value) as -> by congruence.
  unfold candidate. cbn [state domain]. by destruct (hasEmptyDomain _ _).
Qed.

(** What survives the forward check among the candidates of a list of
    values: exactly the candidates without a dead end. *)
Lemma forward_check_survivors parent pos (actions : list Z) (p : SudokuProblem) :
  p ∈ omap (λ value,
        if hasEmptyDomain (state (candidate parent pos value))
                          (domain (candidate parent pos value))
        then None else Some (candidate parent pos value)) actions
  ↔ ∃ value, value ∈ actions ∧ p = candidate parent pos value ∧ no_dead_end p.
Proof.
  rewrite list_elem_of_omap. split.
  - intros (value & Hin & Hsome).
    destruct (hasEmptyDomain _ _) eqn:Hcheck; [done|]. injection Hsome as <-.
    exists value. split_and!; [done..|].
    by apply (hasEmptyDomain_false _ _ (fixed (problem parent))) in Hcheck.
  - intros (value & Hin & -> & Hok). exists value. split; [done|].
    apply (hasEmptyDomain_false _ _ (fixed (problem parent))) in Hok.
    unfold candidate at 1 2. cbn [state domain]. by rewrite Hok.
Qed.

(** C3: every child generated by [getChildren_forwarding] or by
    [getChildren_MRV_LCV] carries a domain matrix without an empty domain at
    a cell that is unassigned in the child's state; a candidate assignment
    whose propagated domains have such a cell yields no child, and every
    other candidate yields one. *)
Theorem forward_checking_children (parent : Node) (metrics : Metrics) :
  (∀ child, child ∈ (getChildren_forwarding parent metrics).1 →
            no_dead_end (problem child)) ∧
  (∀ value,
     value ∈ domain_at (domain (problem parent))
                       (row (lastAssigned parent)) (col (lastAssigned parent)) →
     (∃ child, child ∈ (getChildren_forwarding parent metrics).1
               ∧ problem child = candidate parent (lastAssigned parent) value)
     ↔ no_dead_end (candidate parent (lastAssigned parent) value)) ∧
  (∀ child, child ∈ (getChildren_MRV_LCV parent metrics).1 →
            no_dead_end (problem child)) ∧
  (∀ nextPosition value,
     getMRVPosition (problem parent) = Some nextPosition →
     value ∈ getLCV (problem parent) nextPosition →
     (∃ child, child ∈ (getChildren_MRV_LCV parent metrics).1
               ∧ problem child = candidate parent nextPosition value)
     ↔ no_dead_end (candidate parent nextPosition value)).
Proof.
  assert (∀ (children : list Node) pos actions,
    problem <$> children
    = omap (λ value,
        if hasEmptyDomain (state (candidate parent pos value))
                          (domain (candidate parent pos value))
        then None else Some (candidate parent pos value)) actions →
    (∀ child, child ∈ children → no_dead_end (problem child)) ∧
    (∀ value, value ∈ actions →
       (∃ child, child ∈ children ∧ problem child = candidate parent pos value)
       ↔ no_dead_end (candidate parent pos value))) as Hgen.
  { intros children pos actions Heq. split.
    - intros child Hchild.
      assert (problem child ∈ problem <$> children) as Hin
        by (apply list_elem_of_fmap; eauto).
      rewrite Heq in Hin. apply forward_check_survivors in Hin. naive_solver.
    - intros value Hvalue. split.
      + intros (child & Hchild & Hp).
        assert (problem child ∈ problem <$> children) as Hin
          by (apply list_elem_of_fmap; eauto).
        rewrite Heq in Hin. apply forward_check_survivors in Hin.
        destruct Hin as (_ & _ & _ & Hok). by rewrite <-Hp.
      + intros Hok.
        assert (candidate parent pos value ∈ problem <$> children) as Hin.
        { rewrite Heq. apply forward_check_survivors. eauto. }
        apply list_elem_of_fmap in Hin as (child & Hp & Hchild). eauto. }
  destruct (Hgen _ _ _ (forwarding_children parent metrics)) as [H1 H2].
  split_and!; [done|done|..].
  - intros child Hchild.
    destruct (getMRVPosition (problem parent)) as [nextPosition|] eqn:Hmrv.
    + by apply (Hgen _ _ _ (MRV_LCV_children parent metrics nextPosition Hmrv)).
    + unfold getChildren_MRV_LCV in Hchild. rewrite Hmrv in Hchild.
      by apply elem_of_nil in Hchild.
  - intros nextPosition value Hmrv.
    by apply (Hgen _ _ _ (MRV_LCV_children parent metrics nextPosition Hmrv)).
Qed.

(** ** Consistency *)

Lemma no_dash_pretty_N_go x s : no_dash s → no_dash (pretty_N_go x s).
Proof.
  revert s. induction (N.lt_wf_0 x) as [x _ IH]; intros s Hs.
  assert (x = 0 ∨ 0 < x)%N as [->|Hx] by lia.
  - by rewrite pretty_N_go_0.
  - rewrite pretty_N_go_step by done. apply IH; [by apply N.div_lt|].
    split; [|done]. unfold pretty_N_char. by repeat case_match.
Qed.

Lemma no_dash_pretty (n : nat) : no_dash (pretty n).
Proof.
  unfold pretty, pretty_nat, pretty, pretty_N. case_decide; [by cbn|].
  by apply no_dash_pretty_N_go.
Qed.

Lemma append_dash_inj u u' s s' :
  no_dash u → no_dash u' →
  u +:+ String "-" s = u' +:+ String "-" s' → u = u' ∧ s = s'.
Proof.
  revert u'. induction u as [|c u IH]; intros [|c' u']; cbn.
  - by intros _ _ [= ->].
  - intros _ [Hc' _] [= <- _]. done.
  - intros [Hc _] _ [= -> _]. done.
  - intros [_ Hu] [_ Hu'] [= -> Heq]. destruct (IH _ Hu Hu' Heq) as [-> ->]. done.
Qed.

Lemma subgridKey_inj r c r' c' :
  subgridKey r c = subgridKey r' c' ↔ r / 3 = r' / 3 ∧ c / 3 = c' / 3.
Proof.
  unfold subgridKey. split; [|by intros [-> ->]].
  intros Heq. apply append_dash_inj in Heq as [Hr Hc]; [|apply no_dash_pretty..].
  by apply (inj pretty) in Hr, Hc.
Qed.

Lemma hashmap_push_lookup value pos hashmap v :
  hashmap_push value pos hashmap !! v
  = if decide (v = value) then Some (default [] (hashmap !! value) ++ [pos])
    else hashmap !! v.
Proof.
  unfold hashmap_push. destruct (decide (v = value)) as [->|Hne].
  - rewrite lookup_alter_eq. case_decide as Hsome.
    + destruct Hsome as [ps ->]. done.
    + rewrite lookup_insert_eq. apply eq_None_not_Some in Hsome. by rewrite Hsome.
  - rewrite lookup_alter_ne by done. case_decide; [done|]. by rewrite lookup_insert_ne.
Qed.

Lemma foldl_ext_eq {A B} (f g : A → B → A) a l :
  (∀ a x, f a x = g a x) → foldl f a l = foldl g a l.
Proof.
  intros Hfg. revert a. induction l as [|x l IH]; intros a; [done|].
  cbn. by rewrite Hfg, IH.
Qed.

Lemma foldl_bind {A B C} (f : A → C → A) (g : B → list C) a l :
  foldl f a (l ≫= g) = foldl (λ a x, foldl f a (g x)) a l.
Proof.
  revert a. induction l as [|x l IH]; intros a; [done|].
  change ((x :: l) ≫= g) with (g x ++ (l ≫= g)).
  by rewrite foldl_app, IH.
Qed.

Lemma collect_cells state :
  collect state = foldl (collect_step state) ∅ (cells state).
Proof.
  unfold collect, cells. rewrite foldl_bind.
  apply foldl_ext_eq. intros hm i. rewrite foldl_bind.
  apply foldl_ext_eq. intros hm' j. done.
Qed.

Lemma collect_step_lookup state hashmap ps v :
  foldl (collect_step state) hashmap ps !! v
  = match filter (λ p, at_pos state p = Some (Some v)) ps with
    | [] => hashmap !! v
    | new => Some (default [] (hashmap !! v) ++ new)
    end.
Proof.
  revert hashmap. induction ps as [|p ps IH]; intros hashmap; [done|].
  cbn [foldl]. rewrite IH, filter_cons. unfold collect_step.
  destruct (at_pos state p) as [[value|]|] eqn:Hp.
  - rewrite hashmap_push_lookup. destruct (decide (v = value)) as [->|Hne].
    + rewrite decide_True by done.
      destruct (filter _ ps); cbn; [done|]. by rewrite <-app_assoc.
    + rewrite decide_False by congruence. done.
  - by rewrite decide_False.
  - by rewrite decide_False.
Qed.

Lemma collect_lookup state v positions :
  collect state !! v = Some positions
  ↔ positions = filter (λ p, at_pos state p = Some (Some v)) (cells state)
    ∧ positions ≠ [].
Proof.
  rewrite collect_cells, collect_step_lookup, lookup_empty. cbn.
  destruct (filter _ (cells state)); naive_solver.
Qed.

Lemma check_positions_true positions rows cols subgrids :
  check_positions positions rows cols subgrids = true
  ↔ NoDup (row <$> positions) ∧ NoDup (col <$> positions)
    ∧ NoDup ((λ p, subgridKey (row p) (col p)) <$> positions)
    ∧ ∀ p, p ∈ positions →
        (row p ∉ rows) ∧ (col p ∉ cols) ∧ (subgridKey (row p) (col p) ∉ subgrids).
Proof.
  revert rows cols subgrids.
  induction positions as [|pos positions IH]; intros rows cols subgrids.
  - cbn. split; [|done]. intros _. split_and!; [apply NoDup_nil_2..|].
    intros q Hq. by apply elem_of_nil in Hq.
  - cbn [check_positions fmap list_fmap]. rewrite !NoDup_cons.
    setoid_rewrite elem_of_cons.
    repeat case_decide; try (split; [done|]; naive_solver).
    rewrite IH. setoid_rewrite elem_of_union. setoid_rewrite elem_of_singleton.
    rewrite !list_elem_of_fmap. split.
    + intros (Hr & Hc & Hk & Hall). split_and!; try done.
      * intros (p & Heq & Hp). destruct (Hall p Hp) as (Hn & _). auto.
      * intros (p & Heq & Hp). destruct (Hall p Hp) as (_ & Hn & _). auto.
      * intros (p & Heq & Hp). destruct (Hall p Hp) as (_ & _ & Hn). auto.
      * intros p [->|Hp]; [done|]. destruct (Hall p Hp) as (? & ? & ?). tauto.
    + intros ((Hr1 & Hr) & (Hc1 & Hc) & (Hk1 & Hk) & Hall). split_and!; try done.
      intros p Hp. destruct (Hall p (or_intror Hp)) as (? & ? & ?).
      split_and!; intros [Heq|?]; try done.
      * apply Hr1. eauto.
      * apply Hc1. eauto.
      * apply Hk1. eauto.
Qed.

Lemma elem_of_cells state p : p ∈ cells state ↔ is_Some (at_pos state p).
Proof.
  unfold cells, at_pos, cell_at. rewrite list_elem_of_bind. split.
  - intros (i & (j & Hp & Hj)%list_elem_of_bind & Hi).
    apply list_elem_of_singleton in Hp as ->. cbn.
    apply elem_of_range in Hi, Hj.
    destruct (lookup_lt_is_Some_2 state i) as [r Hr]; [lia|].
    rewrite (list_lookup_total_correct _ _ _ Hr) in Hj. rewrite Hr. cbn.
    apply lookup_lt_is_Some_2. lia.
  - destruct p as [i j]. cbn. intros [x Hx].
    destruct (state !! i) as [r|] eqn:Hr; [|done]. cbn in Hx.
    exists i. split; [|apply elem_of_range; apply lookup_lt_Some in Hr; lia].
    apply list_elem_of_bind. exists j. split; [by apply list_elem_of_singleton|].
    apply elem_of_range. rewrite (list_lookup_total_correct _ _ _ Hr).
    apply lookup_lt_Some in Hx. lia.
Qed.

Lemma NoDup_cells state : NoDup (cells state).
Proof.
  unfold cells. apply NoDup_bind; [| |apply NoDup_seq].
  - intros i1 i2 p _ _ (j1 & Hp1 & _)%list_elem_of_bind (j2 & Hp2 & _)%list_elem_of_bind.
    apply list_elem_of_singleton in Hp1, Hp2. congruence.
  - intros i _. apply NoDup_bind; [| |apply NoDup_seq].
    + intros j1 j2 p _ _ Hp1%list_elem_of_singleton Hp2%list_elem_of_singleton. congruence.
    + intros j _. apply NoDup_singleton.
Qed.

Lemma NoDup_fmap_inj_on {A B} (f : A → B) (l : list A) :
  NoDup l →
  NoDup (f <$> l) ↔ ∀ x y, x ∈ l → y ∈ l → f x = f y → x = y.
Proof.
  intros Hl. split; [|intros; by apply NoDup_fmap_2_strong].
  intros Hfl x y [i Hi]%list_elem_of_lookup [j Hj]%list_elem_of_lookup Heq.
  assert (i = j) as ->; [|congruence].
  apply (NoDup_lookup _ _ _ (f x) Hfl); rewrite list_lookup_fmap.
  - by rewrite Hi.
  - by rewrite Hj, Heq.
Qed.

(** The stored positions of each value are pairwise in different rows,
    columns and blocks: this is what the second loop of [consistent] tests. *)
Lemma consistent_grid_true state :
  consistent_grid state = true
  ↔ ∀ v p q, at_pos state p = Some (Some v) → at_pos state q = Some (Some v) →
      row p = row q ∨ col p = col q
      ∨ subgridKey (row p) (col p) = subgridKey (row q) (col q) →
      p = q.
Proof.
  unfold consistent_grid. rewrite forallb_forall. split.
  - intros Hall v p q Hp Hq Hshare.
    set (positions := filter (λ p, at_pos state p = Some (Some v)) (cells state)).
    assert (p ∈ positions) as Hpin.
    { apply list_elem_of_filter. split; [done|]. apply elem_of_cells. by rewrite Hp. }
    assert (q ∈ positions) as Hqin.
    { apply list_elem_of_filter. split; [done|]. apply elem_of_cells. by rewrite Hq. }
    assert (collect state !! v = Some positions) as Hlook.
    { apply collect_lookup. split; [done|]. intros Hnil. rewrite Hnil in Hpin.
      by apply elem_of_nil in Hpin. }
    specialize (Hall (v, positions)).
    rewrite <-list_elem_of_In, elem_of_map_to_list in Hall.
    specialize (Hall Hlook). cbn in Hall.
    apply check_positions_true in Hall as (Hr & Hc & Hk & _).
    assert (NoDup positions) as Hnd by apply NoDup_filter, NoDup_cells.
    destruct Hshare as [Heq|[Heq|Heq]].
    + by apply (proj1 (NoDup_fmap_inj_on row positions Hnd) Hr).
    + by apply (proj1 (NoDup_fmap_inj_on col positions Hnd) Hc).
    + by apply (proj1 (NoDup_fmap_inj_on _ positions Hnd) Hk).
  - intros Hinj [v positions]. rewrite <-list_elem_of_In, elem_of_map_to_list.
    intros [-> _]%collect_lookup. cbn.
    apply check_positions_true.
    assert (NoDup (filter (λ p, at_pos state p = Some (Some v)) (cells state)))
      as Hnd by apply NoDup_filter, NoDup_cells.
    split_and!.
    + apply NoDup_fmap_inj_on; [done|].
      intros p q [Hp _]%list_elem_of_filter [Hq _]%list_elem_of_filter Heq. eauto.
    + apply NoDup_fmap_inj_on; [done|].
      intros p q [Hp _]%list_elem_of_filter [Hq _]%list_elem_of_filter Heq. eauto.
    + apply NoDup_fmap_inj_on; [done|].
      intros p q [Hp _]%list_elem_of_filter [Hq _]%list_elem_of_filter Heq. eauto.
    + intros p _. split_and!; apply not_elem_of_empty.
Qed.

Lemma consistent_no_conflict problem :
  consistent problem = true ↔ no_conflict (state problem).
Proof.
  unfold consistent. rewrite consistent_grid_true. unfold no_conflict. split.
  - intros Hinj p q v Hne Hshare Hp Hq. apply Hne, (Hinj v); [done..|].
    unfold share_group, same_block in Hshare. rewrite subgridKey_inj. tauto.
  - intros Hfree v p q Hp Hq Hshare.
    destruct (decide (p = q)) as [|Hne]; [done|].
    destruct (Hfree p q v Hne); [|done..].
    unfold share_group, same_block. rewrite subgridKey_inj in Hshare. tauto.
Qed.

(** C6: [consistent] answers true exactly when no two filled cells that share
    a row, a column or a 3x3 block hold the same value; it reads the grid
    only, so problems with the same grid get the same answer whatever their
    domain matrix and fixed mask. *)
Theorem consistent_spec (problem : SudokuProblem) :
  (consistent problem = true ↔ no_conflict (state problem)) ∧
  (∀ domain' fixed',
     consistent (mkProblem (state problem) domain' fixed') = consistent problem).
Proof. split; [apply consistent_no_conflict|done]. Qed.

(** ** The objective of the local search *)

Lemma foldl_see conflicts seen (line : list (option Cell)) :
  (foldl see (conflicts, seen) line).1 + size (seen ∪ list_to_set line)
  = conflicts + length line + size seen.
Proof.
  revert conflicts seen. induction line as [|x line IH]; intros conflicts seen.
  - cbn. rewrite (right_id_L ∅ (∪)). lia.
  - cbn [foldl see list_to_set length].
    replace (seen ∪ ({[x]} ∪ list_to_set line))
      with ({[x]} ∪ seen ∪ list_to_set line) by set_solver.
    rewrite IH. case_decide as Hin.
    + replace ({[x]} ∪ seen) with seen by set_solver. lia.
    + rewrite size_union by set_solver. rewrite size_singleton. lia.
Qed.

Lemma size_list_to_set_le (line : list (option Cell)) :
  size (list_to_set line : gset (option Cell)) ≤ length line.
Proof.
  induction line as [|x line IH]; cbn; [by rewrite size_empty|].
  rewrite size_union_alt, size_singleton.
  pose proof (subseteq_size (list_to_set line ∖ {[x]}) (list_to_set line : gset _)) as H.
  assert (size (list_to_set line ∖ {[x]} : gset (option Cell))
          ≤ size (list_to_set line : gset (option Cell))) by (apply H; set_solver).
  lia.
Qed.

Lemma count_line conflicts (line : list (option Cell)) :
  (foldl see (conflicts, ∅) line).1 = conflicts + repeats line.
Proof.
  pose proof (foldl_see conflicts ∅ line) as H.
  rewrite (left_id_L ∅ (∪)), size_empty in H. unfold repeats.
  pose proof (size_list_to_set_le line). lia.
Qed.

Lemma count_lines (f : nat → nat → option Cell) conflicts (ks : list nat) :
  foldl (λ conflicts i,
    (foldl (λ acc j, see acc (f i j)) (conflicts, ∅) (range 0 9)).1) conflicts ks
  = conflicts + sum_list ((λ i, repeats (f i <$> range 0 9)) <$> ks).
Proof.
  revert conflicts. induction ks as [|i ks IH]; intros conflicts; cbn [foldl].
  - cbn. lia.
  - rewrite IH. rewrite <-(foldl_fmap see _ (range 0 9) (f i)), count_line.
    rewrite fmap_cons. change (sum_list (?x :: ?l)) with (x + sum_list l). lia.
Qed.

(** C7, as the code has it: [countConflicts] adds, over the nine rows and
    the nine columns, the number of cells whose value already occurs earlier
    in the line, that is the length of the line less its number of distinct
    values.  A value met [k] times in a line counts [k - 1], not the
    [k (k - 1) / 2] pairs it forms. *)
Theorem countConflicts_repeats (state : Grid) :
  countConflicts state
  = sum_list ((λ i, repeats (row_line state i)) <$> range 0 9)
    + sum_list ((λ j, repeats (col_line state j)) <$> range 0 9).
Proof.
  unfold countConflicts.
  rewrite (count_lines (λ j i, cell_at state i j)).
  rewrite (count_lines (λ i j, cell_at state i j)). done.
Qed.

(** C7 as stated fails: on the grid of ones the code answers 144, and the
    equal pairs in rows and columns number 648. *)
Lemma countConflicts_not_pairs :
  countConflicts ones_grid
  ≠ sum_list ((λ i, equal_pairs (row_line ones_grid i)) <$> range 0 9)
    + sum_list ((λ j, equal_pairs (col_line ones_grid j)) <$> range 0 9).
Proof. vm_compute. discriminate. Qed.

(** ** Simulated annealing: metrics *)

Section AnnealingMetrics.

Context {R Temp : Type}.
Variable random : nat → R.
Variable scale : R → nat → nat.
Variable T_start : Temp.
Variable cool : Temp → Temp.
Variable metropolis : R → Z → Temp → bool.

Lemma anneal_metrics steps fixed current currentConflicts T metrics k trace r :
  anneal random scale cool metropolis steps fixed current
         currentConflicts T metrics k trace = r →
  iterations r.1.2 + length trace = iterations metrics + length r.2
  ∧ length r.2 ≤ length trace + steps
  ∧ (r.1.1 = None → length r.2 = length trace + steps)
  ∧ nodesExpanded r.1.2 = nodesExpanded metrics
  ∧ childrenGenerated r.1.2 = childrenGenerated metrics
  ∧ maxDepth r.1.2 = maxDepth metrics.
Proof.
  revert current currentConflicts T metrics k trace.
  induction steps as [|steps IH]; intros current currentConflicts T metrics k trace.
  - cbn [anneal]. intros <-.
    destruct (currentConflicts =? 0); cbn [fst snd]; split_and!; try done; lia.
  - cbn [anneal]. destruct (currentConflicts =? 0).
    { intros <-. cbn [fst snd]. split_and!; try done; lia. }
    assert (∀ k' trace' current' currentConflicts' T' step,
      trace' = trace ++ [step] →
      anneal random scale cool metropolis steps fixed current' currentConflicts'
             T' (note_iteration metrics) k' trace' = r →
      iterations r.1.2 + length trace = iterations metrics + length r.2
      ∧ length r.2 ≤ length trace + S steps
      ∧ (r.1.1 = None → length r.2 = length trace + S steps)
      ∧ nodesExpanded r.1.2 = nodesExpanded metrics
      ∧ childrenGenerated r.1.2 = childrenGenerated metrics
      ∧ maxDepth r.1.2 = maxDepth metrics) as Hstep.
    { intros k' trace' current' currentConflicts' T' step -> Hr.
      apply IH in Hr. rewrite length_app in Hr.
      cbn [length note_iteration iterations nodesExpanded childrenGenerated maxDepth] in Hr.
      destruct Hr as (H1 & H2 & H3 & H4 & H5 & H6).
      split_and!; try done; try lia; try (intros Hn; specialize (H3 Hn); lia). }
    destruct (_ <? 2); [by eapply Hstep|].
    destruct (decide _); [by eapply Hstep|].
    destruct (if (_ <? 0)%Z then _ else _) as [accept k'].
    destruct (if accept then _ else _) as [current' currentConflicts'].
    destruct (currentConflicts' =? 0); [|by eapply Hstep].
    intros <-. cbn [fst snd]. rewrite length_app.
    cbn [length note_iteration iterations nodesExpanded childrenGenerated maxDepth].
    split_and!; try done; lia.
Qed.

Lemma simulatedAnnealing_nodesExpanded (state : Grid) (fixed : Fixed) (maxSteps : nat) :
  nodesExpanded
    (simulatedAnnealing random scale T_start cool metropolis state fixed maxSteps).1.2
  = 0.
Proof.
  unfold simulatedAnnealing.
  destruct (randomCompleteAssignment _ _ _ _) as [current k].
  destruct (countConflicts current =? 0); [done|].
  by destruct (anneal_metrics maxSteps fixed current (countConflicts current)
                              T_start reset k [] _ eq_refl) as (_ & _ & _ & -> & _).
Qed.

(** C9, as the code has it: [metrics.iterations] is the number of steps of
    the loop that were executed, the skipped ones included; it is at most
    [maxSteps] and equal to it when the search fails; the three counters
    of the tree searches stay at zero. *)
Theorem simulatedAnnealing_metrics (state : Grid) (fixed : Fixed) (maxSteps : nat) :
  let r := simulatedAnnealing random scale T_start cool metropolis
                              state fixed maxSteps in
  iterations r.1.2 = length r.2
  ∧ length r.2 ≤ maxSteps
  ∧ (r.1.1 = None → iterations r.1.2 = maxSteps)
  ∧ nodesExpanded r.1.2 = 0
  ∧ childrenGenerated r.1.2 = 0
  ∧ maxDepth r.1.2 = 0.
Proof.
  intros r. subst r. unfold simulatedAnnealing.
  destruct (randomCompleteAssignment _ _ _ _) as [current k].
  destruct (countConflicts current =? 0).
  { cbn [fst snd reset length iterations nodesExpanded childrenGenerated maxDepth].
    split_and!; try done; lia. }
  destruct (anneal_metrics maxSteps fixed current (countConflicts current)
                           T_start reset k [] _ eq_refl) as (H1 & H2 & H3 & H4 & H5 & H6).
  cbn [length reset iterations nodesExpanded childrenGenerated maxDepth] in *.
  split_and!; try done; try lia; try (intros Hn; specialize (H3 Hn); lia).
Qed.

End AnnealingMetrics.

(** C9 as stated fails: when every cell is fixed each step is skipped for
    want of two free cells, no swap is attempted, and [metrics.iterations]
    still counts the three steps. *)
Lemma iterations_count_skipped_steps :
  let r := simulatedAnnealing zero_random zero_scale tt no_cooling never_accept
                              ones_grid all_fixed 3 in
  iterations r.1.2 ≠ length (filter (λ s, attempted s = true) r.2).
Proof. vm_compute. discriminate. Qed.

(** ** Grids without an empty cell *)

Lemma no_empty_cell_is_null state i j :
  no_empty_cell state → is_null state i j = false.
Proof.
  unfold no_empty_cell. intros Hfull. unfold is_null, cell_at.
  destruct (state !! i) as [r|] eqn:Hr; [|done]. cbn.
  destruct (r !! j) as [c|] eqn:Hc; [|done].
  rewrite Forall_lookup in Hfull. specialize (Hfull _ _ Hr).
  rewrite Forall_lookup in Hfull. by destruct (Hfull _ _ Hc) as [v ->].
Qed.

Lemma first_some_None {A B} (f : A → option B) l :
  (∀ x, x ∈ l → f x = None) → first_some f l = None.
Proof.
  induction l as [|x l IH]; intros Hf; [done|]. cbn.
  rewrite (Hf x) by left. apply IH. intros y Hy. apply Hf. by right.
Qed.

Lemma getNextPosition_full state currentPosition :
  no_empty_cell state → getNextPosition state currentPosition = None.
Proof.
  intros Hfull. unfold getNextPosition. destruct (_ <=? _).
  all: apply first_some_None; intros i _; apply first_some_None; intros j _.
  all: by rewrite no_empty_cell_is_null.
Qed.

Lemma foldl_invariant {A B} (P : A → Prop) (f : A → B → A) a l :
  P a → (∀ a x, P a → P (f a x)) → P (foldl f a l).
Proof. intros Ha Hf. revert a Ha. induction l; cbn; auto. Qed.

Lemma foldl_fixpoint {A B} (f : A → B → A) a l :
  (∀ x, f a x = a) → foldl f a l = a.
Proof. intros Hf. induction l as [|x l IH]; cbn; [done|]. by rewrite Hf. Qed.

Lemma getMRVPosition_full problem :
  no_empty_cell (state problem) → getMRVPosition problem = None.
Proof.
  intros Hfull. unfold getMRVPosition.
  rewrite foldl_fixpoint; [done|]. intros i.
  rewrite foldl_fixpoint; [done|]. intros j.
  by rewrite no_empty_cell_is_null.
Qed.

Lemma initiate_state (grid : Grid) : state (initiate grid) = grid.
Proof. done. Qed.

Lemma all_fixed_block blockRow blockCol :
  blockRow < 3 → blockCol < 3 →
  filter (λ p, at_pos all_fixed p ≠ Some true) (block_cells blockRow blockCol) = [].
Proof.
  intros Hr Hc.
  destruct blockRow as [|[|[|?]]]; try lia;
    destruct blockCol as [|[|[|?]]]; try lia; by vm_compute.
Qed.

Section AnnealingFull.

Context {R Temp : Type}.
Variable random : nat → R.
Variable scale : R → nat → nat.
Variable T_start : Temp.
Variable cool : Temp → Temp.
Variable metropolis : R → Z → Temp → bool.

Lemma fill_block_full missing block state :
  no_empty_cell state → fill_block missing block state = state.
Proof.
  intros Hfull. unfold fill_block. rewrite foldl_fixpoint; [done|].
  intros p. by rewrite no_empty_cell_is_null.
Qed.

Lemma randomCompleteAssignment_full state k :
  no_empty_cell state →
  (randomCompleteAssignment random scale state k).1 = state.
Proof.
  intros Hfull. unfold randomCompleteAssignment.
  apply (foldl_invariant (λ acc : Grid * nat, acc.1 = state)); [done|].
  intros acc blockRow Hacc.
  apply (foldl_invariant (λ acc : Grid * nat, acc.1 = state)); [done|].
  intros [newState k0] blockCol Hst. cbn [fst] in Hst. subst newState.
  destruct (shuffle _ _ _ _) as [missing k1]. cbn [fst].
  by apply fill_block_full.
Qed.

Lemma anneal_all_fixed steps current currentConflicts T metrics k trace :
  scale_ok scale → currentConflicts ≠ 0 →
  (anneal random scale cool metropolis steps all_fixed current
          currentConflicts T metrics k trace).1.1 = None.
Proof.
  intros Hscale Hc. revert metrics k trace.
  induction steps as [|steps IH]; intros metrics k trace; cbn [anneal].
  - apply Nat.eqb_neq in Hc. by rewrite Hc.
  - apply Nat.eqb_neq in Hc as Hc'. rewrite Hc'.
    rewrite all_fixed_block by (apply Hscale; lia). cbn. apply IH.
Qed.

End AnnealingFull.

Lemma no_empty_cell_ones : no_empty_cell ones_grid.
Proof. apply Forall_replicate, Forall_replicate. by eexists. Qed.

(** C2, as the code has it: on a grid without an empty cell the three
    backtracking procedures return the grid as a success at once, expanding
    no node, whether the grid is consistent or not.  Simulated annealing
    expands no node either; it returns the grid at once when no row and no
    column repeats a value, and otherwise, every cell being fixed, it fails. *)
Theorem full_grid_returned_at_once (state : Grid) :
  no_empty_cell state →
  (∀ fuel, backtack fuel state
           = (Found (mkNode (initiate state) None (mkPos 0 0)), reset)) ∧
  (∀ fuel, backtack_forward fuel state
           = (Found (mkNode (initiate state) None (mkPos 0 0)), reset)) ∧
  (∀ fuel, backtrack_MRV_LCV fuel state
           = (Found (mkNode (initiate state) None (mkPos 0 0)), reset)) ∧
  (∀ (R Temp : Type) (random : nat → R) scale (T_start : Temp) cool metropolis
     fixed maxSteps,
     scale_ok scale →
     let r := simulatedAnnealing random scale T_start cool metropolis
                                 state fixed maxSteps in
     nodesExpanded r.1.2 = 0 ∧
     (countConflicts state = 0 → r = (Some state, reset, [])) ∧
     (countConflicts state ≠ 0 → fixed = all_fixed → r.1.1 = None)).
Proof.
  intros Hfull. split_and!.
  - intros fuel. unfold backtack. by rewrite getNextPosition_full.
  - intros fuel. unfold backtack_forward. by rewrite getNextPosition_full.
  - intros fuel. unfold backtrack_MRV_LCV. by rewrite getMRVPosition_full.
  - intros R Temp random scale T_start cool metropolis fixed maxSteps Hscale.
    split; [apply simulatedAnnealing_nodesExpanded|].
    unfold simulatedAnnealing.
    pose proof (randomCompleteAssignment_full random scale state 0 Hfull) as Hseed.
    destruct (randomCompleteAssignment _ _ _ _) as [current k].
    cbn in Hseed. subst current. split.
    + intros ->. done.
    + intros Hc ->. apply Nat.eqb_neq in Hc as Hc'. rewrite Hc'.
      apply anneal_all_fixed; [done|]. by apply Nat.eqb_neq.
Qed.

Lemma full_grid_returned_at_once_witness :
  backtack 5 ones_grid = (Found (mkNode (initiate ones_grid) None (mkPos 0 0)), reset).
Proof.
  apply (full_grid_returned_at_once ones_grid). exact no_empty_cell_ones.
Defined.

(** C2 as stated fails: the grid of ones has no empty cell and is not
    consistent, and plain backtracking returns it as a success. *)
Lemma full_inconsistent_grid_succeeds :
  consistent (initiate ones_grid) = false
  ∧ ∃ node, (backtack 0 ones_grid).1 = Found node
            ∧ state (problem node) = ones_grid.
Proof. split; [by vm_compute|]. eexists. split; reflexivity. Qed.

(** ** Least constraining value *)

Lemma insert_by_count_Permutation x sorted : insert_by_count x sorted ≡ₚ x :: sorted.
Proof.
  induction sorted as [|y sorted IH]; cbn; [done|].
  destruct (_ <=? _); [done|]. by rewrite IH, Permutation_swap.
Qed.

Lemma sort_by_count_Permutation constraints : sort_by_count constraints ≡ₚ constraints.
Proof.
  induction constraints as [|x constraints IH]; cbn; [done|].
  by rewrite insert_by_count_Permutation, IH.
Qed.

(** [getLCV] returns the values of the domain of [pos], reordered. *)
Lemma getLCV_Permutation problem pos :
  getLCV problem pos ≡ₚ domain_at (domain problem) (row pos) (col pos).
Proof.
  unfold getLCV. rewrite sort_by_count_Permutation, <-list_fmap_compose.
  by rewrite list_fmap_id.
Qed.

(** C8 at a problem met by the MRV search of [sample_puzzle]: at (4,4) the
    values 2 and 8 each occur in the domain of one peer, (4,5) for 2 and
    (4,8) for 8, so that 2 should come first as the earlier of two equals.
    The tally of the code counts (4,5) twice, as a cell of the row and as a
    cell of the block, gives 2 the count 5 and 8 the count 4, and puts 8
    first. *)
Theorem getLCV_sample_order :
  getLCV sample_open_row (mkPos 4 4) = [8; 2; 1; 3; 4; 5; 6; 9]%Z
  ∧ lcv_by_peers sample_open_row (mkPos 4 4) = [2; 8; 1; 3; 4; 5; 6; 9]%Z
  ∧ peer_count sample_open_row (mkPos 4 4) 2 = 1
  ∧ peer_count sample_open_row (mkPos 4 4) 8 = 1
  ∧ lcv_count sample_open_row (mkPos 4 4) 2 = 5
  ∧ lcv_count sample_open_row (mkPos 4 4) 8 = 4
  ∧ ∃ node, (backtrack_MRV_LCV 100 sample_puzzle).1 = Found node
            ∧ problem <$> ancestors node !! 2 = Some sample_open_row
            ∧ lastAssigned <$> ancestors node !! 2 = Some (mkPos 4 4).
Proof.
  split_and!; try by vm_compute.
  eexists. split_and!; by vm_compute.
Qed.

(** ** Lines that hold every digit once *)

Lemma group_line_row i : i < 9 → group_line (row_cells i).
Proof.
  intros Hi. do 9 (destruct i as [|i]; [by_evaluation|]). lia.
Qed.

Lemma group_line_col j : j < 9 → group_line (col_cells j).
Proof.
  intros Hj. do 9 (destruct j as [|j]; [by_evaluation|]). lia.
Qed.

Lemma group_line_block blockRow blockCol :
  blockRow < 3 → blockCol < 3 → group_line (block_cells blockRow blockCol).
Proof.
  intros Hr Hc.
  do 3 (destruct blockRow as [|blockRow];
        [do 3 (destruct blockCol as [|blockCol];
               [by_evaluation|]); lia|]).
  lia.
Qed.

Lemma digit_full_domain v : digit v ↔ v ∈ full_domain.
Proof.
  unfold digit, full_domain. rewrite !elem_of_cons, elem_of_nil. lia.
Qed.

(** Nine cells with pairwise different digits hold every digit once. *)
Lemma complete_of_NoDup state line :
  length line = 9 →
  (∀ p, p ∈ line → ∃ v, at_pos state p = Some (Some v) ∧ digit v) →
  NoDup (at_pos state <$> line) →
  complete state line.
Proof.
  intros Hlen Hdigits Hnd. unfold complete.
  apply submseteq_length_Permutation.
  - apply NoDup_submseteq; [done|].
    intros x (p & -> & Hp)%list_elem_of_fmap.
    destruct (Hdigits p Hp) as (v & -> & Hv).
    apply list_elem_of_fmap. exists v. split; [done|]. by apply digit_full_domain.
  - rewrite !length_fmap, Hlen. done.
Qed.

Lemma digits_grid_at state p v :
  digits_grid state → at_pos state p = Some (Some v) → digit v.
Proof.
  unfold digits_grid, at_pos, cell_at. intros Hd Hp.
  destruct (state !! row p) as [r|] eqn:Hr; [|done]. cbn in Hp.
  rewrite Forall_lookup in Hd. specialize (Hd _ _ Hr).
  rewrite Forall_lookup in Hd. by apply (Hd _ _ Hp).
Qed.

Lemma no_empty_cell_at state p :
  no_empty_cell state → at_pos state p ≠ Some None.
Proof.
  intros Hfull Hp. pose proof (no_empty_cell_is_null state (row p) (col p) Hfull) as Hn.
  unfold is_null in Hn. unfold at_pos in Hp. by rewrite Hp in Hn.
Qed.

Lemma all_digits_intro state :
  grid9 state → digits_grid state → no_empty_cell state → all_digits state.
Proof.
  intros Hg Hd Hfull p [Hr Hc].
  destruct (grid9_cell_at state (row p) (col p) Hg Hr Hc) as [[v|] Hp].
  - exists v. split; [done|]. by eapply digits_grid_at.
  - by destruct (no_empty_cell_at state p Hfull).
Qed.

Lemma complete_group_line state line :
  all_digits state → no_conflict state → group_line line → complete state line.
Proof.
  intros Hall Hfree (Hnd & Hlen & Hin & Hshare).
  rewrite Forall_forall in Hin. rewrite Forall_forall in Hshare.
  apply complete_of_NoDup; [done|by auto|].
  apply NoDup_fmap_2_strong; [|done]. intros p q Hp Hq Heq.
  destruct (decide (p = q)) as [|Hne]; [done|].
  destruct (Hall p (Hin p Hp)) as (v & Hv & _).
  specialize (Hshare p Hp). rewrite Forall_forall in Hshare.
  destruct (Hfree p q v Hne (Hshare q Hq) Hv). by rewrite <-Heq.
Qed.

Lemma solved_intro state :
  grid9 state → digits_grid state → no_empty_cell state → no_conflict state →
  solved state.
Proof.
  intros Hg Hd Hfull Hfree.
  pose proof (all_digits_intro state Hg Hd Hfull) as Hall.
  split_and!; [done|..].
  - intros i Hi. by apply complete_group_line, group_line_row.
  - intros j Hj. by apply complete_group_line, group_line_col.
  - intros br bc Hr Hc. by apply complete_group_line, group_line_block.
Qed.

(** ** What the depth-first loop returns *)

Lemma existsb_false_iff {A} (f : A → bool) l :
  existsb f l = false ↔ ∀ x, x ∈ l → f x = false.
Proof.
  rewrite <-not_true_iff_false, existsb_true_iff. split.
  - intros Hno x Hx. apply not_true_iff_false. intros Hfx. apply Hno. eauto.
  - intros Hall (x & Hx & Hfx). rewrite (Hall x Hx) in Hfx. done.
Qed.

Lemma isgoal_true problem :
  isgoal problem = true
  ↔ no_empty_cell (state problem) ∧ consistent problem = true.
Proof.
  unfold isgoal. split.
  - destruct (existsb _ _) eqn:Hex; [done|]. intros Hc. split; [|done].
    rewrite existsb_false_iff in Hex.
    apply Forall_lookup. intros i r Hr. apply Forall_lookup. intros j c Hc'.
    assert (i ∈ range 0 (length (state problem))) as Hi.
    { apply elem_of_range. apply lookup_lt_Some in Hr. lia. }
    specialize (Hex i Hi). rewrite existsb_false_iff in Hex.
    assert (j ∈ range 0 (length (state problem !!! i))) as Hj.
    { apply elem_of_range. rewrite (list_lookup_total_correct _ _ _ Hr).
      apply lookup_lt_Some in Hc'. lia. }
    specialize (Hex j Hj). unfold is_null, cell_at in Hex.
    rewrite Hr in Hex. cbn in Hex. rewrite Hc' in Hex. by destruct c.
  - intros [Hfull Hc]. rewrite Hc.
    assert (existsb (λ i, existsb (λ j, is_null (state problem) i j)
              (range 0 (length (state problem !!! i))))
              (range 0 (length (state problem))) = false) as ->; [|done].
    apply existsb_false_iff. intros i _. apply existsb_false_iff. intros j _.
    by apply no_empty_cell_is_null.
Qed.

Lemma pop_Some {A} (fringe : list A) current rest :
  pop fringe = Some (current, rest) → fringe = rest ++ [current].
Proof.
  unfold pop. destruct (reverse fringe) as [|x l] eqn:Hrev; [done|].
  intros [= <- <-]. by rewrite <-(reverse_involutive fringe), Hrev, reverse_cons.
Qed.

(** Whatever the expansion function, a node returned by the loop is a goal;
    it has the properties the expansion function preserves. *)
Lemma search_found (P : Node → Prop) expand fuel fringe metrics node metrics' :
  (∀ n m, P n → Forall P (expand n m).1) →
  Forall P fringe →
  search expand fuel fringe metrics = (Found node, metrics') →
  P node ∧ isgoal (problem node) = true.
Proof.
  intros Hexpand. revert fringe metrics.
  induction fuel as [|fuel IH]; intros fringe metrics Hfringe; cbn [search].
  - destruct (pop fringe) as [[current rest]|]; done.
  - destruct (pop fringe) as [[current rest]|] eqn:Hpop; [|done].
    apply pop_Some in Hpop as ->. apply Forall_app in Hfringe as [Hrest Hcur].
    rewrite Forall_singleton in Hcur.
    destruct (consistent (problem current)); [|by apply IH].
    destruct (isgoal (problem current)) eqn:Hgoal.
    + intros Heq. injection Heq as <- _. by split.
    + specialize (Hexpand current (note_expanded metrics) Hcur).
      destruct (expand current (note_expanded metrics)) as [children m].
      apply IH. apply Forall_app. done.
Qed.

(** More fuel does not change an outcome that was reached within the bound. *)
Lemma search_more_fuel expand fuel fuel' fringe metrics outcome metrics' :
  fuel ≤ fuel' → outcome ≠ OutOfFuel →
  search expand fuel fringe metrics = (outcome, metrics') →
  search expand fuel' fringe metrics = (outcome, metrics').
Proof.
  intros Hle Hout. revert fuel' fringe metrics Hle.
  induction fuel as [|fuel IH]; intros fuel' fringe metrics Hle.
  - cbn [search]. destruct (pop fringe) as [[current rest]|] eqn:Hpop.
    + intros [= <- _]. done.
    + destruct fuel'; cbn [search]; by rewrite Hpop.
  - destruct fuel' as [|fuel']; [lia|]. cbn [search].
    destruct (pop fringe) as [[current rest]|]; [|done].
    destruct (consistent (problem current)); [|apply IH; lia].
    destruct (isgoal (problem current)); [done|].
    destruct (expand current (note_expanded metrics)) as [children m].
    apply IH. lia.
Qed.

(** ** The nodes of the searches *)

Lemma digits_grid_set_cell state i j v :
  digits_grid state → digit v → digits_grid (set_cell i j (Some v) state).
Proof.
  intros Hd Hv. apply Forall_alter; [done|]. intros r _ Hr. by apply Forall_insert.
Qed.

Lemma Forall_digit_strike value cell :
  Forall digit cell → Forall digit (strike value cell).
Proof.
  rewrite strike_filter, !Forall_forall. intros Hc v [_ Hv]%list_elem_of_filter. auto.
Qed.

Lemma digits_domain_strike_at value i j d :
  digits_domain d → digits_domain (strike_at value i j d).
Proof.
  intros Hd. apply Forall_alter; [done|]. intros r _ Hr.
  apply Forall_alter; [done|]. intros c _ Hc. by apply Forall_digit_strike.
Qed.

Lemma digits_domain_updateDomain domain p value :
  digits_domain domain → digits_domain (updateDomain domain p value).
Proof.
  intros Hd. destruct p as [r c]. unfold updateDomain.
  apply Forall_alter.
  - apply foldl_invariant.
    + apply foldl_invariant; [|intros; by apply digits_domain_strike_at].
      apply foldl_invariant; [done|intros; by apply digits_domain_strike_at].
    + intros d i Hdi. apply foldl_invariant; [done|].
      intros; by apply digits_domain_strike_at.
  - intros rw _ Hrw. by apply Forall_insert.
Qed.

Lemma digits_domain_at domain i j v :
  digits_domain domain → v ∈ domain_at domain i j → digit v.
Proof.
  unfold digits_domain, domain_at, cell_at. intros Hd Hv.
  destruct (domain !! i) as [r|] eqn:Hr; [|by apply elem_of_nil in Hv]. cbn in Hv.
  destruct (r !! j) as [c|] eqn:Hc; [|by apply elem_of_nil in Hv]. cbn in Hv.
  rewrite Forall_lookup in Hd. specialize (Hd _ _ Hr).
  rewrite Forall_lookup in Hd. specialize (Hd _ _ Hc).
  rewrite Forall_forall in Hd. auto.
Qed.

Lemma node_ok_candidate parent pos value next :
  node_ok parent →
  value ∈ domain_at (domain (problem parent)) (row pos) (col pos) →
  node_ok (mkNode (candidate parent pos value) (Some parent) next).
Proof.
  intros (Hs & Hd & Hds & Hdd) Hv. unfold node_ok, candidate. cbn [problem state domain].
  split_and!.
  - by apply grid9_set_cell.
  - by apply grid9_updateDomain.
  - apply digits_grid_set_cell; [done|]. by eapply digits_domain_at.
  - by apply digits_domain_updateDomain.
Qed.

Lemma getChildren_ok parent metrics :
  node_ok parent → Forall node_ok (getChildren parent metrics).1.
Proof.
  intros Hok. unfold getChildren.
  destruct (lastAssigned parent) as [r c] eqn:Hp. cbn [fst].
  apply Forall_fmap, Forall_forall. intros value Hv.
  by apply (node_ok_candidate parent (mkPos r c) value).
Qed.

Lemma getChildren_forwarding_ok parent metrics :
  node_ok parent → Forall node_ok (getChildren_forwarding parent metrics).1.
Proof.
  intros Hok. unfold getChildren_forwarding.
  destruct (lastAssigned parent) as [r c] eqn:Hp. cbn [fst].
  apply Forall_forall. intros child (value & Hv & Hchild)%list_elem_of_omap.
  destruct (hasEmptyDomain _ _); [done|]. injection Hchild as <-.
  by apply (node_ok_candidate parent (mkPos r c) value).
Qed.

Lemma getChildren_MRV_LCV_ok parent metrics :
  node_ok parent → Forall node_ok (getChildren_MRV_LCV parent metrics).1.
Proof.
  intros Hok. unfold getChildren_MRV_LCV.
  destruct (getMRVPosition (problem parent)) as [nextPosition|]; [|by constructor].
  cbn [fst].
  apply Forall_forall. intros child (value & Hv & Hchild)%list_elem_of_omap.
  destruct (hasEmptyDomain _ _); [done|]. injection Hchild as <-.
  apply (node_ok_candidate parent nextPosition value); [done|].
  by rewrite getLCV_Permutation in Hv.
Qed.

Lemma node_ok_initiate (grid : Grid) pos :
  grid9 grid → digits_grid grid → node_ok (mkNode (initiate grid) None pos).
Proof.
  intros Hg Hd. unfold node_ok, initiate, inititationHelper. cbn [problem state domain].
  pose proof (grid9_row_length grid 0 Hg) as Hwidth.
  destruct Hg as [Hlen Hrows]. split_and!; [done| |done|].
  - split; [by rewrite length_map|].
    apply Forall_fmap, Forall_forall. intros r Hr. cbn.
    rewrite Forall_forall in Hrows. rewrite length_app, length_map, length_replicate.
    rewrite (Hrows r Hr). lia.
  - apply Forall_fmap, Forall_forall. intros r Hr. cbn.
    apply Forall_app. split; [|apply Forall_replicate; constructor].
    apply Forall_fmap, Forall_forall. intros [v|] _; cbn; [constructor|].
    apply Forall_forall. intros v. apply digit_full_domain.
Qed.

(** ** The first position of a grid with an empty cell *)

Lemma first_some_None_inv {A B} (f : A → option B) l x :
  first_some f l = None → x ∈ l → f x = None.
Proof.
  induction l as [|y l IH]; intros Hnone Hx; [by apply elem_of_nil in Hx|].
  cbn in Hnone. destruct (f y) eqn:Hy; [done|].
  apply elem_of_cons in Hx as [->|Hx]; auto.
Qed.

Lemma has_empty_cell_in_grid (state : Grid) i j :
  grid9 state → cell_at state i j = Some None → i < 9 ∧ j < 9.
Proof.
  intros Hg Hc. apply cell_at_Some in Hc as [Hi Hj].
  destruct Hg as [Hlen Hrows]. rewrite Hlen in Hi. split; [done|].
  by rewrite grid9_row_length in Hj.
Qed.

Lemma getNextPosition_first state :
  grid9 state → has_empty_cell state → is_Some (getNextPosition state None).
Proof.
  intros Hg (i & j & Hc). destruct (has_empty_cell_in_grid _ _ _ Hg Hc) as [Hi Hj].
  destruct (getNextPosition state None) as [p|] eqn:Hnext; [by eexists|].
  unfold getNextPosition in Hnext. destruct Hg as [Hlen _]. rewrite Hlen in Hnext.
  cbn [Nat.leb] in Hnext.
  apply (first_some_None_inv _ _ i) in Hnext; [|apply elem_of_range; lia].
  apply (first_some_None_inv _ _ j) in Hnext;
    [|apply elem_of_range; destruct (i =? 0); lia].
  unfold is_null in Hnext. by rewrite Hc in Hnext.
Qed.

Lemma getMRVPosition_cells problem :
  getMRVPosition problem = (foldl (mrv_step problem) (None, None) all_positions).2.
Proof.
  unfold getMRVPosition, all_positions. f_equal. rewrite foldl_bind.
  apply foldl_ext_eq. intros acc i. rewrite foldl_bind.
  apply foldl_ext_eq. intros [m b] j. done.
Qed.

Lemma mrv_step_found problem ps acc :
  (acc.1 = None ↔ acc.2 = None) →
  let r := foldl (mrv_step problem) acc ps in
  (r.1 = None ↔ r.2 = None)
  ∧ (is_Some acc.2 → is_Some r.2)
  ∧ ∀ p, p ∈ ps → is_null (state problem) (row p) (col p) = true →
         0 < length (domain_at (domain problem) (row p) (col p)) → is_Some r.2.
Proof.
  revert acc. induction ps as [|q ps IH]; intros [m b] Hacc; cbn [foldl].
  - split_and!; [done..|]. intros p Hp. by apply elem_of_nil in Hp.
  - cbn [fst snd] in Hacc.
    assert ((mrv_step problem (m, b) q).1 = None ↔ (mrv_step problem (m, b) q).2 = None)
      as Hstep.
    { unfold mrv_step. repeat case_match; done. }
    destruct (IH _ Hstep) as (H1 & H2 & H3). split_and!; [done|..].
    + cbn [snd]. intros Hb. apply H2. unfold mrv_step. repeat case_match; done.
    + intros p [->|Hp]%elem_of_cons Hnull Hsize; [|by eapply H3].
      apply H2. unfold mrv_step. rewrite Hnull.
      destruct m as [m|].
      * destruct (_ && _); cbn [snd]; [done|]. apply not_eq_None_Some.
        intros Hb. apply Hacc in Hb. done.
      * apply Nat.ltb_lt in Hsize. by rewrite Hsize.
Qed.

Lemma elem_of_all_positions p : p ∈ all_positions ↔ in_grid p.
Proof.
  unfold all_positions, in_grid. rewrite list_elem_of_bind. split.
  - intros (i & (j & ->%list_elem_of_singleton & Hj)%list_elem_of_bind & Hi).
    apply elem_of_range in Hi, Hj. cbn. lia.
  - intros [Hr Hc]. exists (row p). split; [|apply elem_of_range; lia].
    apply list_elem_of_bind. exists (col p). split; [|apply elem_of_range; lia].
    destruct p. by apply list_elem_of_singleton.
Qed.

Lemma initiate_domain_empty_cell (grid : Grid) i j :
  cell_at grid i j = Some None →
  cell_at (domain (initiate grid)) i j = Some full_domain.
Proof.
  unfold initiate, inititationHelper, cell_at. cbn [domain].
  rewrite list_lookup_fmap. destruct (grid !! i) as [r|]; [|done]. cbn.
  intros Hj. rewrite lookup_app_l by (rewrite length_map; by eapply lookup_lt_Some).
  by rewrite list_lookup_fmap, Hj.
Qed.

Lemma getMRVPosition_first (grid : Grid) :
  grid9 grid → has_empty_cell grid → is_Some (getMRVPosition (initiate grid)).
Proof.
  intros Hg (i & j & Hc). destruct (has_empty_cell_in_grid _ _ _ Hg Hc) as [Hi Hj].
  rewrite getMRVPosition_cells.
  destruct (mrv_step_found (initiate grid) all_positions (None, None)) as (_ & _ & H);
    [done|].
  apply (H (mkPos i j)).
  - by apply elem_of_all_positions.
  - cbn [row col]. rewrite initiate_state. unfold is_null. by rewrite Hc.
  - cbn [row col]. unfold domain_at.
    rewrite (initiate_domain_empty_cell grid i j Hc). cbn. lia.
Qed.

(** A node returned by a backtracking procedure on a grid with an empty
    cell carries a solved grid. *)
Lemma backtracking_success_solved (grid : Grid) fuel node metrics :
  grid9 grid → digits_grid grid → has_empty_cell grid →
  backtack fuel grid = (Found node, metrics)
  ∨ backtack_forward fuel grid = (Found node, metrics)
  ∨ backtrack_MRV_LCV fuel grid = (Found node, metrics) →
  solved (state (problem node)).
Proof.
  intros Hg Hd Hempty Hfound.
  assert (node_ok node ∧ isgoal (problem node) = true) as [Hok Hgoal].
  { destruct Hfound as [Hfound|[Hfound|Hfound]].
    - unfold backtack in Hfound.
      destruct (getNextPosition_first grid Hg Hempty) as [firstEmpty Hfirst].
      rewrite Hfirst in Hfound.
      eapply (search_found node_ok); [|by apply Forall_singleton, node_ok_initiate|done].
      intros n m. apply getChildren_ok.
    - unfold backtack_forward in Hfound.
      destruct (getNextPosition_first grid Hg Hempty) as [firstEmpty Hfirst].
      rewrite Hfirst in Hfound.
      eapply (search_found node_ok); [|by apply Forall_singleton, node_ok_initiate|done].
      intros n m. apply getChildren_forwarding_ok.
    - unfold backtrack_MRV_LCV in Hfound.
      destruct (getMRVPosition_first grid Hg Hempty) as [firstMRV Hfirst].
      rewrite Hfirst in Hfound.
      eapply (search_found node_ok); [|by apply Forall_singleton, node_ok_initiate|done].
      intros n m. apply getChildren_MRV_LCV_ok. }
  destruct Hok as (Hs & _ & Hds & _).
  apply isgoal_true in Hgoal as [Hfull Hc].
  apply solved_intro; [done..|].
  by apply consistent_no_conflict.
Qed.

(** ** Exchanges are permutations *)

Lemma insert_Permutation_cons {A} (l : list A) i x y :
  l !! i = Some x → y :: l ≡ₚ x :: <[i := y]> l.
Proof.
  revert i. induction l as [|a l IH]; intros [|i] Hi; try done; cbn in *.
  - injection Hi as ->. apply Permutation_swap.
  - rewrite Permutation_swap, (IH i Hi). apply Permutation_swap.
Qed.

Lemma swap_entries_Permutation {A} i j (l : list A) : swap_entries i j l ≡ₚ l.
Proof.
  unfold swap_entries.
  destruct (l !! i) as [x|] eqn:Hi; [|done]. destruct (l !! j) as [y|] eqn:Hj; [|done].
  apply (Permutation_cons_inv (a := y)).
  rewrite (insert_Permutation_cons l i x y Hi).
  rewrite <-(insert_Permutation_cons (<[i := y]> l) j y x); [done|].
  destruct (decide (i = j)) as [->|Hne].
  - apply list_lookup_insert_eq. by eapply lookup_lt_Some.
  - by rewrite list_lookup_insert_ne.
Qed.

Section Seed.

Context {R : Type}.
Variable random : nat → R.
Variable scale : R → nat → nat.

Lemma shuffle_Permutation missing k : (shuffle random scale missing k).1 ≡ₚ missing.
Proof.
  unfold shuffle.
  apply (foldl_invariant (λ acc : list Z * nat, acc.1 ≡ₚ missing)); [done|].
  intros [l k0] i Hl. cbn [fst] in *. by rewrite swap_entries_Permutation.
Qed.

End Seed.

(** ** Filling a block *)

Lemma at_pos_set_cell {A} (p q : Position) (x : A) (m : list (list A)) :
  at_pos (set_cell (row p) (col p) x m) q
  = if decide (q = p) then at_pos m q ≫= λ _, Some x else at_pos m q.
Proof.
  unfold at_pos. rewrite cell_at_set_cell. destruct p, q; cbn.
  repeat case_decide; try done; naive_solver.
Qed.

Lemma fill_block_values missing block (state : Grid) idx :
  NoDup block →
  let r := foldl (λ '(newState, idx) p,
             if is_null newState (row p) (col p)
             then (set_cell (row p) (col p) (missing !! idx) newState, S idx)
             else (newState, idx)) (state, idx) block in
  at_pos r.1 <$> block = fill_values missing idx (at_pos state <$> block)
  ∧ ∀ q, q ∉ block → at_pos r.1 q = at_pos state q.
Proof.
  revert state idx. induction block as [|p block IH]; intros state idx Hnd.
  - cbn. done.
  - apply NoDup_cons in Hnd as [Hp Hnd]. cbn [foldl fmap list_fmap].
    assert (is_null state (row p) (col p)
            = if decide (at_pos state p = Some None) then true else false) as ->.
    { unfold is_null, at_pos.
      destruct (cell_at state (row p) (col p)) as [[?|]|]; by case_decide. }
    case_decide as Hpnull.
    + destruct (IH (set_cell (row p) (col p) (missing !! idx) state) (S idx) Hnd)
        as [Hvals Hframe].
      rewrite Hpnull. cbn [fill_values]. cbn zeta in *. split.
      * f_equal.
        -- rewrite (Hframe p Hp), at_pos_set_cell, decide_True by done.
           by rewrite Hpnull.
        -- rewrite Hvals. f_equal. apply list_fmap_ext. intros i q Hq.
           rewrite at_pos_set_cell, decide_False; [done|].
           intros ->. apply Hp. by eapply list_elem_of_lookup_2.
      * intros q Hq. apply not_elem_of_cons in Hq as [Hqp Hq].
        rewrite (Hframe q Hq), at_pos_set_cell. by rewrite decide_False.
    + destruct (IH state idx Hnd) as [Hvals Hframe]. cbn zeta in *. split.
      * rewrite (Hframe p Hp), Hvals.
        destruct (at_pos state p) as [[v|]|]; done.
      * intros q Hq. apply not_elem_of_cons in Hq as [_ Hq]. by apply Hframe.
Qed.

Lemma fill_block_spec missing block (state : Grid) :
  NoDup block →
  at_pos (fill_block missing block state) <$> block
  = fill_values missing 0 (at_pos state <$> block)
  ∧ ∀ q, q ∉ block → at_pos (fill_block missing block state) q = at_pos state q.
Proof. intros Hnd. apply (fill_block_values missing block state 0 Hnd). Qed.

Lemma fill_values_Permutation missing idx (vals : list (option Cell)) :
  Forall is_Some vals →
  idx + length (filter (λ x, x = Some None) vals) ≤ length missing →
  fill_values missing idx vals
  ≡ₚ ((λ v, Some (Some v)) <$> omap cell_value vals)
     ++ ((λ v, Some (Some v)) <$>
           take (length (filter (λ x, x = Some None) vals)) (drop idx missing)).
Proof.
  revert idx. induction vals as [|x vals IH]; intros idx Hsome Hlen.
  - cbn. by rewrite take_0.
  - apply Forall_cons in Hsome as [[c ->] Hsome]. rewrite filter_cons in Hlen |- *.
    destruct c as [v|].
    + rewrite decide_False in Hlen |- * by done. cbn [fill_values omap list_omap cell_value].
      cbn [fmap list_fmap app]. apply Permutation_skip. by apply IH.
    + rewrite decide_True in Hlen |- * by done. cbn [length] in Hlen |- *.
      cbn [fill_values omap list_omap cell_value].
      destruct (lookup_lt_is_Some_2 missing idx) as [m Hm]; [lia|].
      rewrite Hm, (drop_S _ _ _ Hm). cbn [take fmap list_fmap].
      rewrite <-Permutation_middle. apply Permutation_skip. apply IH; [done|lia].
Qed.

Lemma size_list_to_set_length `{Countable A} (l : list A) :
  size (list_to_set l : gset A) ≤ length l.
Proof.
  induction l as [|x l IH]; cbn; [by rewrite size_empty|].
  rewrite size_union_alt, size_singleton.
  assert (size (list_to_set l ∖ {[x]} : gset A) ≤ size (list_to_set l : gset A))
    by (apply subseteq_size; set_solver).
  lia.
Qed.

Lemma length_filled_nulls (vals : list (option Cell)) :
  Forall is_Some vals →
  length (omap cell_value vals) + length (filter (λ x, x = Some None) vals)
  = length vals.
Proof.
  induction 1 as [|x vals [c ->] _ IH]; [done|].
  rewrite filter_cons. destruct c as [v|]; cbn [omap list_omap cell_value].
  - rewrite decide_False by done. cbn [length]. lia.
  - rewrite decide_True by done. cbn [length]. lia.
Qed.

Lemma length_filter_complement {A} (P : A → Prop) `{!∀ x, Decision (P x)} (l : list A) :
  length (filter P l) + length (filter (λ x, ¬ P x) l) = length l.
Proof. by rewrite <-length_app, filter_app_complement. Qed.

(** The numbers missing from a block are at least as many as its empty
    cells. *)
Lemma missing_covers_nulls (vals : list (option Cell)) :
  Forall is_Some vals → length vals = 9 →
  length (filter (λ x, x = Some None) vals)
  ≤ length (filter (λ n, n ∉ (list_to_set (omap cell_value vals) : gset Z))
                   full_domain).
Proof.
  intros Hsome Hlen. set (present := list_to_set (omap cell_value vals) : gset Z).
  pose proof (length_filled_nulls vals Hsome) as Hsum.
  pose proof (length_filter_complement (λ n, n ∈ present) full_domain) as Hsplit.
  change (length full_domain) with 9 in Hsplit.
  assert (length (filter (λ n, n ∈ present) full_domain) ≤ size present) as Hin.
  { rewrite <-(size_list_to_set (C := gset Z)).
    - apply subseteq_size. intros n Hn.
      apply elem_of_list_to_set, list_elem_of_filter in Hn. tauto.
    - apply NoDup_filter. by_evaluation. }
  pose proof (size_list_to_set_length (omap cell_value vals)) as Hsize.
  fold present in Hsize. lia.
Qed.

(** When the numbers of the block are digits without repetition, the
    missing numbers are as many as the empty cells and complete the block. *)
Lemma missing_completes (vals : list (option Cell)) :
  Forall is_Some vals → length vals = 9 →
  NoDup (omap cell_value vals) → Forall digit (omap cell_value vals) →
  let missing := filter (λ n, n ∉ (list_to_set (omap cell_value vals) : gset Z))
                        full_domain in
  length (filter (λ x, x = Some None) vals) = length missing
  ∧ omap cell_value vals ++ missing ≡ₚ full_domain.
Proof.
  intros Hsome Hlen Hnd Hdigits missing.
  set (present := list_to_set (omap cell_value vals) : gset Z) in *.
  assert (filter (λ n, n ∈ present) full_domain ≡ₚ omap cell_value vals) as Hperm.
  { apply NoDup_Permutation; [apply NoDup_filter; by_evaluation|done|].
    intros n. rewrite list_elem_of_filter. unfold present.
    rewrite elem_of_list_to_set. split; [tauto|]. intros Hn. split; [done|].
    apply digit_full_domain. rewrite Forall_forall in Hdigits. auto. }
  split.
  - pose proof (length_filled_nulls vals Hsome) as Hsum.
    pose proof (length_filter_complement (λ n, n ∈ present) full_domain) as Hsplit.
    change (length full_domain) with 9 in Hsplit.
    apply Permutation_length in Hperm. subst missing. lia.
  - rewrite <-Hperm. apply filter_app_complement.
Qed.

Lemma present_in_values (newState : Grid) block :
  present_in newState block = list_to_set (omap cell_value (at_pos newState <$> block)).
Proof.
  unfold present_in.
  assert (∀ acc : gset Z,
    foldl (λ present p,
      match at_pos newState p with
      | Some (Some val) => {[val]} ∪ present
      | _ => present
      end) acc block
    = list_to_set (omap cell_value (at_pos newState <$> block)) ∪ acc) as H.
  { induction block as [|p block IH]; intros acc; cbn [foldl fmap list_fmap].
    - cbn. set_solver.
    - rewrite IH. cbn [omap list_omap].
      destruct (at_pos newState p) as [[v|]|]; cbn [cell_value]; [|done..].
      rewrite list_to_set_cons. set_solver. }
  rewrite H. set_solver.
Qed.

(** ** The random complete assignment *)

Lemma elem_of_block_cells p blockRow blockCol :
  p ∈ block_cells blockRow blockCol ↔ block_of p = (blockRow, blockCol).
Proof.
  unfold block_cells, block_of. rewrite list_elem_of_bind. split.
  - intros (i & (j & ->%list_elem_of_singleton & Hj)%list_elem_of_bind & Hi).
    apply elem_of_range in Hi, Hj. cbn [row col]. f_equal; lia.
  - intros Heq.
    assert (row p / 3 = blockRow ∧ col p / 3 = blockCol) as [Hr Hc]
      by (split; congruence).
    exists (row p - blockRow * 3).
    split; [|apply elem_of_range; lia].
    apply list_elem_of_bind. exists (col p - blockCol * 3).
    split; [|apply elem_of_range; lia].
    apply list_elem_of_singleton. destruct p as [r c]. cbn [row col] in *. f_equal; lia.
Qed.

Lemma elem_of_all_blocks b : b ∈ all_blocks ↔ b.1 < 3 ∧ b.2 < 3.
Proof.
  unfold all_blocks. rewrite list_elem_of_bind. split.
  - intros (i & (j & ->%list_elem_of_singleton & Hj)%list_elem_of_bind & Hi).
    apply elem_of_range in Hi, Hj. cbn. lia.
  - intros [Hr Hc]. exists b.1. split; [|apply elem_of_range; lia].
    apply list_elem_of_bind. exists b.2. split; [|apply elem_of_range; lia].
    destruct b. by apply list_elem_of_singleton.
Qed.

Lemma block_values_Some (state : Grid) blockRow blockCol :
  grid9 state → blockRow < 3 → blockCol < 3 →
  Forall is_Some (at_pos state <$> block_cells blockRow blockCol)
  ∧ length (at_pos state <$> block_cells blockRow blockCol) = 9.
Proof.
  intros Hg Hr Hc. destruct (group_line_block blockRow blockCol Hr Hc)
    as (_ & Hlen & Hin & _).
  split; [|by rewrite length_fmap].
  apply Forall_fmap. eapply Forall_impl; [exact Hin|].
  intros p [Hpr Hpc]. by apply grid9_cell_at.
Qed.

Lemma digits_grid_set_cell_opt (state : Grid) i j (c : Cell) :
  digits_grid state → from_option digit True c → digits_grid (set_cell i j c state).
Proof.
  intros Hd Hv. apply Forall_alter; [done|]. intros r _ Hr. by apply Forall_insert.
Qed.

Lemma fill_block_shape missing block (state : Grid) :
  grid9 state → digits_grid state → Forall digit missing →
  grid9 (fill_block missing block state) ∧ digits_grid (fill_block missing block state).
Proof.
  intros Hg Hd Hm. unfold fill_block.
  apply (foldl_invariant (λ acc : Grid * nat, grid9 acc.1 ∧ digits_grid acc.1)); [done|].
  intros [st idx] p [Hg' Hd']. cbn [fst] in *.
  destruct (is_null st (row p) (col p)); [|done]. cbn [fst]. split.
  - by apply grid9_set_cell.
  - apply digits_grid_set_cell_opt; [done|].
    destruct (missing !! idx) as [m|] eqn:Hmi; [|done]. cbn.
    rewrite Forall_forall in Hm. apply Hm. by eapply list_elem_of_lookup_2.
Qed.

(** Filling one block from a permutation of its missing numbers. *)
Lemma fill_block_block (state : Grid) blockRow blockCol missing :
  grid9 state → blockRow < 3 → blockCol < 3 →
  missing ≡ₚ filter (λ n, n ∉ present_in state (block_cells blockRow blockCol))
                    full_domain →
  let block := block_cells blockRow blockCol in
  let newState := fill_block missing block state in
  (∀ q, q ∉ block → at_pos newState q = at_pos state q)
  ∧ (∀ q, q ∈ block → ∃ v, at_pos newState q = Some (Some v))
  ∧ (NoDup (omap cell_value (at_pos state <$> block)) →
     Forall digit (omap cell_value (at_pos state <$> block)) →
     complete newState block).
Proof.
  intros Hg Hr Hc Hmissing block newState.
  destruct (group_line_block blockRow blockCol Hr Hc) as (Hnd & _).
  destruct (fill_block_spec missing block state Hnd) as [Hvals Hframe].
  destruct (block_values_Some state blockRow blockCol Hg Hr Hc) as [Hsome Hlen].
  fold block in Hsome, Hlen.
  rewrite present_in_values in Hmissing. fold block in Hmissing.
  pose proof (missing_covers_nulls _ Hsome Hlen) as Hcover.
  rewrite <-Hmissing in Hcover.
  pose proof (fill_values_Permutation missing 0 _ Hsome Hcover) as Hperm.
  rewrite <-Hvals, drop_0 in Hperm. fold newState in Hperm.
  split_and!; [done| |].
  - intros q Hq.
    assert (at_pos newState q ∈ at_pos newState <$> block) as Hin
      by (apply list_elem_of_fmap; eauto).
    rewrite Hperm in Hin.
    apply elem_of_app in Hin as [Hin|Hin];
      apply list_elem_of_fmap in Hin as (v & -> & _); eauto.
  - intros Hnodup Hdigits. unfold complete. rewrite Hperm.
    destruct (missing_completes _ Hsome Hlen Hnodup Hdigits) as [Hcount Hall].
    rewrite <-Hmissing in Hcount, Hall.
    rewrite Hcount, take_ge by done. rewrite <-fmap_app. by rewrite Hall.
Qed.

Lemma NoDup_omap_inj {A B} (f : A → option B) (l : list A) :
  NoDup l →
  (∀ x y v, x ∈ l → y ∈ l → f x = Some v → f y = Some v → x = y) →
  NoDup (omap f l).
Proof.
  induction 1 as [|x l Hx Hnd IH]; intros Hinj; [constructor|]. cbn [omap list_omap].
  assert (NoDup (omap f l)) as Hrest.
  { apply IH. intros y z v Hy Hz. apply Hinj; by right. }
  destruct (f x) as [v|] eqn:Hfx; [|done].
  apply NoDup_cons. split; [|done].
  intros (y & Hy & Hfy)%list_elem_of_omap.
  assert (x = y) as -> by (eapply Hinj; [by left|by right|done..]). done.
Qed.

Lemma complete_agree (state state' : Grid) line :
  (∀ q, q ∈ line → at_pos state' q = at_pos state q) →
  complete state line → complete state' line.
Proof.
  intros Hagree. unfold complete.
  assert (at_pos state' <$> line = at_pos state <$> line) as ->; [|done].
  apply list_fmap_ext. intros i q Hq. apply Hagree. by eapply list_elem_of_lookup_2.
Qed.

Lemma filled_digits (state : Grid) line :
  digits_grid state → Forall digit (omap cell_value (at_pos state <$> line)).
Proof.
  intros Hd. apply Forall_forall.
  intros v (x & (p & -> & Hp)%list_elem_of_fmap & Hv)%list_elem_of_omap.
  destruct (at_pos state p) as [[w|]|] eqn:Hatp; try done.
  injection Hv as <-. by eapply digits_grid_at.
Qed.

Section SeedBlocks.

Context {R : Type}.
Variable random : nat → R.
Variable scale : R → nat → nat.

Lemma randomCompleteAssignment_blocks state k :
  randomCompleteAssignment random scale state k
  = foldl (seed_block random scale) (state, k) all_blocks.
Proof.
  unfold randomCompleteAssignment, all_blocks. rewrite foldl_bind.
  apply foldl_ext_eq. intros acc blockRow. rewrite foldl_bind.
  apply foldl_ext_eq. intros [newState k0] blockCol. reflexivity.
Qed.

(** The blocks still to be filled are filled one after the other; cells
    of other blocks are left alone. *)
Lemma seed_blocks pending (state : Grid) k :
  NoDup pending → (∀ b, b ∈ pending → b.1 < 3 ∧ b.2 < 3) →
  grid9 state → digits_grid state →
  let r := foldl (seed_block random scale) (state, k) pending in
  grid9 r.1 ∧ digits_grid r.1
  ∧ (∀ q, block_of q ∉ pending → at_pos r.1 q = at_pos state q)
  ∧ (∀ q, block_of q ∈ pending → ∃ v, at_pos r.1 q = Some (Some v))
  ∧ (∀ b, b ∈ pending →
       NoDup (omap cell_value (at_pos state <$> block_cells b.1 b.2)) →
       complete r.1 (block_cells b.1 b.2)).
Proof.
  revert state k. induction pending as [|b pending IH]; intros state k Hnd Hvalid Hg Hd.
  { cbn. split_and!; try done.
    - intros q Hq. by apply elem_of_nil in Hq.
    - intros b Hb. by apply elem_of_nil in Hb. }
  apply NoDup_cons in Hnd as [Hb Hnd]. cbn [foldl].
  destruct (Hvalid b) as [Hbr Hbc]; [by left|].
  pose proof (shuffle_Permutation random scale
    (filter (λ n, n ∉ present_in state (block_cells b.1 b.2)) full_domain) k) as Hperm.
  destruct (shuffle random scale
    (filter (λ n, n ∉ present_in state (block_cells b.1 b.2)) full_domain) k)
    as [missing k'] eqn:Hshuffle.
  cbn [fst] in Hperm.
  set (state1 := fill_block missing (block_cells b.1 b.2) state).
  assert (seed_block random scale (state, k) b = (state1, k')) as ->.
  { unfold seed_block. by rewrite Hshuffle. }
  assert (Forall digit missing) as Hmd.
  { apply Forall_forall. intros n Hn. rewrite Hperm in Hn.
    apply list_elem_of_filter in Hn as [_ Hn]. by apply digit_full_domain. }
  destruct (fill_block_shape missing (block_cells b.1 b.2) state Hg Hd Hmd)
    as [Hg1 Hd1]. fold state1 in Hg1, Hd1.
  destruct (fill_block_block state b.1 b.2 missing Hg Hbr Hbc Hperm)
    as (Hframe & Hfilled & Hcomplete). fold state1 in Hframe, Hfilled, Hcomplete.
  destruct (IH state1 k' Hnd) as (Hg2 & Hd2 & Hframe2 & Hfilled2 & Hcomplete2);
    [intros b' Hb'; apply Hvalid; by right|done..|].
  cbn zeta. split_and!; [done|done|..].
  - intros q Hq. apply not_elem_of_cons in Hq as [Hqb Hq].
    rewrite (Hframe2 q Hq). apply Hframe.
    rewrite elem_of_block_cells. by destruct b.
  - intros q [Hq|Hq]%elem_of_cons; [|by apply Hfilled2].
    rewrite Hframe2 by (by rewrite Hq). apply Hfilled.
    rewrite elem_of_block_cells, Hq. by destruct b.
  - intros b' [->|Hb']%elem_of_cons Hclean.
    + eapply complete_agree; [|apply Hcomplete; [done|by apply filled_digits]].
      intros q Hq. apply Hframe2.
      apply elem_of_block_cells in Hq. rewrite Hq. by destruct b.
    + apply Hcomplete2; [done|].
      assert (at_pos state1 <$> block_cells b'.1 b'.2
              = at_pos state <$> block_cells b'.1 b'.2) as ->; [|done].
      apply list_fmap_ext. intros i q Hq. apply Hframe.
      apply list_elem_of_lookup_2 in Hq. rewrite elem_of_block_cells in Hq |- *.
      intros Hqb. apply Hb.
      assert (b = b') as -> by (destruct b, b'; cbn [fst snd] in *; congruence).
      done.
Qed.

(** The seed: a 9x9 grid of digits, and blocks that hold every digit once
    wherever the givens of the block did not repeat a digit. *)
Lemma randomCompleteAssignment_spec (state : Grid) k :
  grid9 state → digits_grid state →
  let seed := (randomCompleteAssignment random scale state k).1 in
  grid9 seed ∧ all_digits seed ∧ (blocks_clean state → blocks_complete seed).
Proof.
  intros Hg Hd. rewrite randomCompleteAssignment_blocks.
  destruct (seed_blocks all_blocks state k) as (Hg' & Hd' & _ & Hfilled & Hcomplete);
    [by_evaluation|by intros b ?%elem_of_all_blocks|done..|].
  cbn zeta. split_and!; [done|..].
  - intros q [Hr Hc]. destruct (Hfilled q) as [v Hv].
    { apply elem_of_all_blocks. unfold block_of. cbn [fst snd]. lia. }
    exists v. split; [done|]. by eapply digits_grid_at.
  - intros Hclean blockRow blockCol Hr Hc.
    apply (Hcomplete (blockRow, blockCol)); [by apply elem_of_all_blocks|].
    destruct (group_line_block blockRow blockCol Hr Hc) as (Hnd & _ & Hin & _).
    rewrite Forall_forall in Hin. cbn [fst snd].
    assert (omap cell_value (at_pos state <$> block_cells blockRow blockCol)
            = omap (λ p, cell_value (at_pos state p)) (block_cells blockRow blockCol))
      as ->.
    { generalize (block_cells blockRow blockCol). intros l.
      induction l as [|p l IHl]; [done|]. cbn. by rewrite IHl. }
    apply NoDup_omap_inj; [done|].
    intros p q v Hp Hq Hpv Hqv.
    destruct (decide (p = q)) as [|Hne]; [done|].
    destruct (Hclean p q v Hne); [by auto..| | |].
    + apply elem_of_block_cells in Hp, Hq. unfold same_block, block_of in *.
      split; congruence.
    + destruct (at_pos state p) as [[?|]|]; cbn [cell_value] in Hpv; congruence.
    + destruct (at_pos state q) as [[?|]|]; cbn [cell_value] in Hqv; congruence.
Qed.

End SeedBlocks.

(** ** Exchanging two cells of a block *)

Lemma at_pos_swap_cells (g : Grid) a b x y p :
  at_pos g a = Some x → at_pos g b = Some y →
  at_pos (swap_cells a b g) p
  = if decide (p = b) then Some x
    else if decide (p = a) then Some y else at_pos g p.
Proof.
  intros Ha Hb. unfold swap_cells. rewrite Ha, Hb.
  rewrite !at_pos_set_cell. repeat case_decide; subst; try done.
  - by rewrite Ha.
  - by rewrite Hb.
  - by rewrite Ha.
Qed.

Lemma grid9_swap_cells (g : Grid) a b : grid9 g → grid9 (swap_cells a b g).
Proof.
  intros Hg. unfold swap_cells.
  destruct (at_pos g a), (at_pos g b); auto using grid9_set_cell.
Qed.

Lemma all_digits_swap_cells (g : Grid) a b :
  in_grid a → in_grid b → all_digits g → all_digits (swap_cells a b g).
Proof.
  intros Ha Hb Hall p Hp.
  destruct (Hall a Ha) as (x & Hx & Hdx). destruct (Hall b Hb) as (y & Hy & Hdy).
  rewrite (at_pos_swap_cells g a b _ _ p Hx Hy).
  repeat case_decide; eauto.
Qed.

Lemma swap_cells_line (g : Grid) a b line :
  NoDup line → a ∈ line → b ∈ line → is_Some (at_pos g a) → is_Some (at_pos g b) →
  at_pos (swap_cells a b g) <$> line ≡ₚ at_pos g <$> line.
Proof.
  intros Hnd [ia Hia]%list_elem_of_lookup [ib Hib]%list_elem_of_lookup [x Hx] [y Hy].
  rewrite <-(swap_entries_Permutation ia ib (at_pos g <$> line)).
  assert (at_pos (swap_cells a b g) <$> line
          = swap_entries ia ib (at_pos g <$> line)) as ->; [|done].
  unfold swap_entries. rewrite !list_lookup_fmap, Hia, Hib. cbn [fmap option_fmap option_map].
  rewrite Hx, Hy. apply list_eq. intros k.
  rewrite list_lookup_fmap, !list_lookup_insert, !length_insert, !length_fmap, list_lookup_fmap.
  destruct (line !! k) as [p|] eqn:Hk; cbn [fmap option_fmap option_map].
  - rewrite (at_pos_swap_cells g a b _ _ p Hx Hy).
    assert (p = b ↔ ib = k ∧ ib < length line) as Hb_iff.
    { split.
      - intros ->. split; [by eapply NoDup_lookup|by eapply lookup_lt_Some].
      - intros [-> _]. congruence. }
    assert (p = a ↔ ia = k ∧ ia < length line) as Ha_iff.
    { split.
      - intros ->. split; [by eapply NoDup_lookup|by eapply lookup_lt_Some].
      - intros [-> _]. congruence. }
    repeat case_decide; try done; tauto.
  - apply lookup_ge_None in Hk. rewrite !decide_False by lia. done.
Qed.

Lemma swap_cells_frame (g : Grid) a b (line : list Position) :
  a ∉ line → b ∉ line → is_Some (at_pos g a) → is_Some (at_pos g b) →
  at_pos (swap_cells a b g) <$> line = at_pos g <$> line.
Proof.
  intros Ha Hb [x Hx] [y Hy]. apply list_fmap_ext. intros i p Hp.
  apply list_elem_of_lookup_2 in Hp.
  rewrite (at_pos_swap_cells g a b _ _ p Hx Hy).
  rewrite !decide_False; [done|..]; by intros ->.
Qed.

Lemma blocks_complete_swap_cells (g : Grid) a b blockRow blockCol :
  a ∈ block_cells blockRow blockCol → b ∈ block_cells blockRow blockCol →
  is_Some (at_pos g a) → is_Some (at_pos g b) →
  blocks_complete g → blocks_complete (swap_cells a b g).
Proof.
  intros Ha Hb Hsa Hsb Hcomplete br bc Hbr Hbc. specialize (Hcomplete br bc Hbr Hbc).
  unfold complete in *.
  destruct (decide ((br, bc) = (blockRow, blockCol))) as [[= -> ->]|Hne].
  - rewrite swap_cells_line; [done| |done..].
    by destruct (group_line_block blockRow blockCol Hbr Hbc).
  - rewrite swap_cells_frame; [done| | |done..].
    + rewrite elem_of_block_cells in Ha |- *. congruence.
    + rewrite elem_of_block_cells in Hb |- *. congruence.
Qed.

(** ** A grid without conflicts *)

Lemma sum_list_zero (l : list nat) x : sum_list l = 0 → x ∈ l → x = 0.
Proof.
  induction l as [|y l IH]; intros Hsum Hx; [by apply elem_of_nil in Hx|].
  change (sum_list (y :: l)) with (y + sum_list l) in Hsum.
  apply elem_of_cons in Hx as [->|Hx]; [lia|]. apply IH; [lia|done].
Qed.

Lemma NoDup_of_size `{Countable A} (l : list A) :
  length l ≤ size (list_to_set l : gset A) → NoDup l.
Proof.
  induction l as [|x l IH]; [constructor|]. cbn [length list_to_set]. intros Hsize.
  pose proof (size_list_to_set_length l) as Hle.
  destruct (decide (x ∈ l)) as [Hx|Hx].
  - replace ({[x]} ∪ list_to_set l : gset A) with (list_to_set l : gset A) in Hsize
      by set_solver. lia.
  - rewrite size_union, size_singleton in Hsize by set_solver.
    apply NoDup_cons. split; [done|]. apply IH. lia.
Qed.

Lemma repeats_zero_NoDup line : repeats line = 0 → NoDup line.
Proof. unfold repeats. intros Hr. apply NoDup_of_size. lia. Qed.

Lemma row_line_cells (g : Grid) i : row_line g i = at_pos g <$> row_cells i.
Proof. unfold row_line, row_cells. by rewrite <-list_fmap_compose. Qed.

Lemma col_line_cells (g : Grid) j : col_line g j = at_pos g <$> col_cells j.
Proof. unfold col_line, col_cells. by rewrite <-list_fmap_compose. Qed.

Lemma countConflicts_sum (state : Grid) :
  countConflicts state
  = sum_list ((λ i, repeats (row_line state i)) <$> range 0 9)
    + sum_list ((λ j, repeats (col_line state j)) <$> range 0 9).
Proof.
  unfold countConflicts.
  rewrite (count_lines (λ j i, cell_at state i j)).
  rewrite (count_lines (λ i j, cell_at state i j)). done.
Qed.

Lemma no_empty_cell_all_digits (g : Grid) : grid9 g → all_digits g → no_empty_cell g.
Proof.
  intros [Hlen Hrows] Hall. rewrite Forall_lookup in Hrows.
  apply Forall_lookup. intros i r Hr. apply Forall_lookup. intros j c Hc.
  assert (i < 9) as Hi by (apply lookup_lt_Some in Hr; lia).
  assert (j < 9) as Hj by (apply lookup_lt_Some in Hc; rewrite (Hrows _ _ Hr) in Hc; lia).
  destruct (Hall (mkPos i j)) as (v & Hv & _); [done|].
  unfold at_pos, cell_at in Hv. cbn in Hv. rewrite Hr in Hv. cbn in Hv.
  rewrite Hc in Hv. by injection Hv as ->.
Qed.

(** A grid of digits without a repeated value in a row or a column holds
    every digit once in each row and in each column. *)
Lemma no_conflicts_lines (g : Grid) :
  grid9 g → all_digits g → countConflicts g = 0 →
  no_empty_cell g ∧ rows_complete g ∧ columns_complete g.
Proof.
  intros Hg Hall Hzero. rewrite countConflicts_sum in Hzero.
  split_and!; [by apply no_empty_cell_all_digits|..].
  - intros i Hi. destruct (group_line_row i Hi) as (_ & Hlen & Hin & _).
    rewrite Forall_forall in Hin.
    apply complete_of_NoDup; [done|by auto|].
    rewrite <-row_line_cells. apply repeats_zero_NoDup.
    apply (sum_list_zero ((λ i, repeats (row_line g i)) <$> range 0 9)); [lia|].
    apply list_elem_of_fmap. exists i. split; [done|]. apply elem_of_range. lia.
  - intros j Hj. destruct (group_line_col j Hj) as (_ & Hlen & Hin & _).
    rewrite Forall_forall in Hin.
    apply complete_of_NoDup; [done|by auto|].
    rewrite <-col_line_cells. apply repeats_zero_NoDup.
    apply (sum_list_zero ((λ j, repeats (col_line g j)) <$> range 0 9)); [lia|].
    apply list_elem_of_fmap. exists j. split; [done|]. apply elem_of_range. lia.
Qed.

(** ** What simulated annealing returns *)

Section AnnealingSuccess.

Context {R Temp : Type}.
Variable random : nat → R.
Variable scale : R → nat → nat.
Variable T_start : Temp.
Variable cool : Temp → Temp.
Variable metropolis : R → Z → Temp → bool.
Hypothesis Hscale : scale_ok scale.

(** [clean] stands for the condition that the givens repeat no digit
    within a block. *)
Variable clean : Prop.

Lemma anneal_success steps fixed current currentConflicts T metrics k trace g :
  grid9 current → all_digits current → (clean → blocks_complete current) →
  currentConflicts = countConflicts current →
  (anneal random scale cool metropolis steps fixed current currentConflicts
          T metrics k trace).1.1 = Some g →
  grid9 g ∧ all_digits g ∧ (clean → blocks_complete g) ∧ countConflicts g = 0.
Proof using Hscale.
  revert current currentConflicts T metrics k trace.
  induction steps as [|steps IH];
    intros current currentConflicts T metrics k trace Hg Hall Hblocks Hcc;
    cbn [anneal].
  - destruct (currentConflicts =? 0) eqn:Hz; [|done].
    apply Nat.eqb_eq in Hz. cbn [fst]. intros [= <-]. split_and!; try done. lia.
  - destruct (currentConflicts =? 0) eqn:Hz.
    { apply Nat.eqb_eq in Hz. cbn [fst]. intros [= <-]. split_and!; try done. lia. }
    set (blockRow := scale (random k) 3).
    set (blockCol := scale (random (k + 1)) 3).
    assert (blockRow < 3) as Hbr by (apply Hscale; lia).
    assert (blockCol < 3) as Hbc by (apply Hscale; lia).
    set (cells := filter (λ p, at_pos fixed p ≠ Some true)
                         (block_cells blockRow blockCol)).
    destruct (length cells <? 2) eqn:Hfew; [by apply IH|].
    apply Nat.ltb_ge in Hfew.
    set (a := cells !!! scale (random (k + 2)) (length cells)).
    set (b := cells !!! scale (random (k + 3)) (length cells)).
    destruct (decide (a = b)) as [|Hab]; [by apply IH|].
    assert (a ∈ block_cells blockRow blockCol) as Ha.
    { assert (a ∈ cells) as Hin
        by (apply list_elem_of_lookup_total_2, Hscale; lia).
      apply list_elem_of_filter in Hin. tauto. }
    assert (b ∈ block_cells blockRow blockCol) as Hb.
    { assert (b ∈ cells) as Hin
        by (apply list_elem_of_lookup_total_2, Hscale; lia).
      apply list_elem_of_filter in Hin. tauto. }
    destruct (group_line_block blockRow blockCol Hbr Hbc) as (_ & _ & Hin & _).
    rewrite Forall_forall in Hin.
    pose proof (Hin a Ha) as Hga. pose proof (Hin b Hb) as Hgb.
    assert (is_Some (at_pos current a)) as Hsa
      by (destruct (Hall a Hga) as (? & -> & _); by eexists).
    assert (is_Some (at_pos current b)) as Hsb
      by (destruct (Hall b Hgb) as (? & -> & _); by eexists).
    set (next := swap_cells a b current).
    assert (grid9 next) as Hgn by (by apply grid9_swap_cells).
    assert (all_digits next) as Halln by (by apply all_digits_swap_cells).
    assert (clean → blocks_complete next) as Hblocksn.
    { intros Hc. eapply blocks_complete_swap_cells; eauto. }
    destruct (if (_ <? 0)%Z then _ else _) as [accept k'].
    destruct accept.
    + destruct (countConflicts next =? 0) eqn:Hzn.
      * apply Nat.eqb_eq in Hzn. cbn [fst]. intros [= <-]. done.
      * by apply IH.
    + rewrite Hz. by apply IH.
Qed.

Lemma simulatedAnnealing_success (grid : Grid) fixed maxSteps g :
  grid9 grid → digits_grid grid → (clean → blocks_clean grid) →
  (simulatedAnnealing random scale T_start cool metropolis grid fixed maxSteps).1.1
  = Some g →
  grid9 g ∧ all_digits g ∧ (clean → blocks_complete g) ∧ countConflicts g = 0.
Proof using Hscale.
  intros Hg Hd Hclean. unfold simulatedAnnealing.
  pose proof (randomCompleteAssignment_spec random scale grid 0 Hg Hd) as Hseed.
  destruct (randomCompleteAssignment random scale grid 0) as [current k].
  cbn [fst] in Hseed. destruct Hseed as (Hg' & Hall & Hblocks).
  destruct (countConflicts current =? 0) eqn:Hz.
  - apply Nat.eqb_eq in Hz. cbn [fst]. intros [= <-]. split_and!; auto.
  - apply anneal_success; auto.
Qed.

End AnnealingSuccess.

Lemma scale_ok_zero : scale_ok zero_scale.
Proof. intros r n Hn. exact Hn. Qed.

Lemma grid9_sample_puzzle : grid9 sample_puzzle.
Proof. by_evaluation. Qed.

Lemma digits_sample_puzzle : digits_grid sample_puzzle.
Proof. repeat constructor; by_evaluation. Qed.

Lemma has_empty_cell_sample_puzzle : has_empty_cell sample_puzzle.
Proof. by exists 0, 4. Qed.

(** C1, as the code has it: on a 9x9 grid of digits with an empty cell, a
    node returned by plain backtracking, forward checking or MRV+LCV carries
    a grid without an empty cell whose rows, columns and blocks each hold
    every digit once.  A grid returned by simulated annealing has no empty
    cell and holds every digit once in each row and in each column; its
    blocks do so too when the givens repeat no digit within a block. *)
Theorem success_is_solution (grid : Grid) :
  grid9 grid → digits_grid grid →
  (has_empty_cell grid →
   ∀ fuel node metrics,
     backtack fuel grid = (Found node, metrics)
     ∨ backtack_forward fuel grid = (Found node, metrics)
     ∨ backtrack_MRV_LCV fuel grid = (Found node, metrics) →
     solved (state (problem node)))
  ∧ (∀ (R Temp : Type) (random : nat → R) scale (T_start : Temp) cool metropolis
       fixed maxSteps result,
     scale_ok scale →
     (simulatedAnnealing random scale T_start cool metropolis
                         grid fixed maxSteps).1.1 = Some result →
     no_empty_cell result ∧ rows_complete result ∧ columns_complete result
     ∧ (blocks_clean grid → blocks_complete result)).
Proof.
  intros Hg Hd. split.
  - intros Hempty fuel node metrics Hfound.
    by eapply backtracking_success_solved.
  - intros R Temp random scale T_start cool metropolis fixed maxSteps result
           Hscale Hresult.
    destruct (simulatedAnnealing_success random scale T_start cool metropolis Hscale
                (blocks_clean grid) grid fixed maxSteps result Hg Hd (λ H, H) Hresult)
      as (Hg' & Hall & Hblocks & Hzero).
    destruct (no_conflicts_lines result Hg' Hall Hzero) as (? & ? & ?). done.
Qed.

Lemma success_is_solution_witness :
  match (backtack 100 sample_puzzle).1 with
  | Found node => solved (state (problem node))
  | _ => False
  end.
Proof.
  destruct (backtack 100 sample_puzzle) as [[node| |] metrics] eqn:Hrun; cbn [fst].
  - apply (proj1 (success_is_solution sample_puzzle grid9_sample_puzzle
                    digits_sample_puzzle)
                 has_empty_cell_sample_puzzle 100 node metrics).
    left. exact Hrun.
  - vm_compute in Hrun. discriminate Hrun.
  - vm_compute in Hrun. discriminate Hrun.
Defined.

(** C1 as stated fails: plain backtracking returns the grid of ones, whose
    first row does not hold the digit 2; simulated annealing returns the
    cyclic Latin square, whose first block does not hold the digit 6. *)
Lemma success_without_solution :
  (∃ node, (backtack 0 ones_grid).1 = Found node
           ∧ ¬ rows_complete (state (problem node)))
  ∧ (∃ result,
       (simulatedAnnealing zero_random zero_scale tt no_cooling never_accept
                           latin_grid all_fixed 0).1.1 = Some result
       ∧ ¬ blocks_complete result).
Proof.
  split.
  - eexists. split; [reflexivity|]. intros Hrows.
    specialize (Hrows 0 ltac:(lia)). unfold complete in Hrows.
    assert (Some (Some 2%Z) ∈ at_pos ones_grid <$> row_cells 0) as Hin.
    { change (state (problem _)) with ones_grid in Hrows. rewrite Hrows. by_evaluation. }
    revert Hin. by_evaluation.
  - eexists. split; [by vm_compute|]. intros Hblocks.
    specialize (Hblocks 0 0 ltac:(lia) ltac:(lia)). unfold complete in Hblocks.
    assert (Some (Some 6%Z) ∈ at_pos latin_grid <$> block_cells 0 0) as Hin.
    { match type of Hblocks with ?l ≡ₚ _ => change l with (at_pos latin_grid <$> block_cells 0 0) in Hblocks end.
      rewrite Hblocks. by_evaluation. }
    revert Hin. by_evaluation.
Qed.

(** ** Domain propagation on the heap *)

Lemma holds_cell_mono h h' r cell :
  h `prefix_of` h' → Heap.holds_cell h r cell → Heap.holds_cell h' r cell.
Proof. unfold Heap.holds_cell. intros Hp Hr. by eapply prefix_lookup_Some. Qed.

Lemma holds_row_mono h h' r row :
  h `prefix_of` h' → Heap.holds_row h r row → Heap.holds_row h' r row.
Proof.
  intros Hp (cells & Hr & Hcells). exists cells. split.
  - by eapply prefix_lookup_Some.
  - eapply Forall2_impl; [done|]. intros. by eapply holds_cell_mono.
Qed.

Lemma holds_mono h h' r domain :
  h `prefix_of` h' → Heap.holds h r domain → Heap.holds h' r domain.
Proof.
  intros Hp (rows & Hr & Hrows). exists rows. split.
  - by eapply prefix_lookup_Some.
  - eapply Forall2_impl; [done|]. intros. by eapply holds_row_mono.
Qed.

Lemma lookup_snoc_length {A} (l : list A) x : (l ++ [x]) !! length l = Some x.
Proof. rewrite lookup_app_r by lia. by rewrite Nat.sub_diag. Qed.

Lemma bind_Some {A B} (c : Heap.M A) (k : A → Heap.M B) h x h1 :
  c h = Some (x, h1) → Heap.bind c k h = k x h1.
Proof. unfold Heap.bind. by intros ->. Qed.

Lemma read_numbers_Some h r cell :
  h !! r = Some (Heap.Numbers cell) → Heap.read_numbers r h = Some (cell, h).
Proof. unfold Heap.read_numbers. by intros ->. Qed.

Lemma read_refs_Some h r entries :
  h !! r = Some (Heap.Refs entries) → Heap.read_refs r h = Some (entries, h).
Proof. unfold Heap.read_refs. by intros ->. Qed.

Lemma copy_cell_run h r cell :
  Heap.holds_cell h r cell →
  Heap.copy_cell r h = Some (length h, h ++ [Heap.Numbers cell]).
Proof.
  intros Hr. unfold Heap.copy_cell.
  by erewrite bind_Some by (by apply read_numbers_Some).
Qed.

Lemma mapM_copy_cell_ok h cells row :
  Forall2 (Heap.holds_cell h) cells row →
  ∃ cells' h', Heap.mapM Heap.copy_cell cells h = Some (cells', h')
    ∧ h `prefix_of` h' ∧ Forall2 (Heap.holds_cell h') cells' row.
Proof.
  intros Hcells. revert h Hcells. induction cells as [|c cells IH] in row |- *;
    intros h Hcells.
  - apply Forall2_nil_inv_l in Hcells as ->. exists [], h. split_and!; [done..|constructor].
  - apply Forall2_cons_inv_l in Hcells as (numbers & row' & Hc & Hrest & ->).
    set (h1 := h ++ [Heap.Numbers numbers]).
    assert (h `prefix_of` h1) as Hp1 by (by apply prefix_app_r).
    destruct (IH row' h1) as (cells' & h' & Hrun & Hp & Hall).
    { eapply Forall2_impl; [done|]. intros. by eapply holds_cell_mono. }
    exists (length h :: cells'), h'. split_and!.
    + cbn [Heap.mapM]. erewrite bind_Some by (by apply copy_cell_run).
      by erewrite bind_Some by exact Hrun.
    + by etrans.
    + constructor; [|done]. eapply holds_cell_mono; [done|].
      unfold Heap.holds_cell, h1. apply lookup_snoc_length.
Qed.

Lemma copy_row_ok h r row :
  Heap.holds_row h r row →
  ∃ r' h', Heap.copy_row r h = Some (r', h')
    ∧ h `prefix_of` h' ∧ length h ≤ r' < length h' ∧ Heap.holds_row h' r' row.
Proof.
  intros (cells & Hr & Hcells).
  destruct (mapM_copy_cell_ok h cells row Hcells) as (cells' & h1 & Hrun & Hp & Hall).
  exists (length h1), (h1 ++ [Heap.Refs cells']). split_and!.
  - unfold Heap.copy_row. erewrite bind_Some by (by apply read_refs_Some).
    by erewrite bind_Some by exact Hrun.
  - etrans; [done|]. by apply prefix_app_r.
  - by apply prefix_length.
  - rewrite length_app. cbn. lia.
  - exists cells'. split; [apply lookup_snoc_length|].
    eapply Forall2_impl; [done|]. intros. eapply holds_cell_mono; [|done].
    by apply prefix_app_r.
Qed.

Lemma mapM_copy_row_ok h rows domain :
  Forall2 (Heap.holds_row h) rows domain →
  ∃ rows' h', Heap.mapM Heap.copy_row rows h = Some (rows', h')
    ∧ h `prefix_of` h' ∧ Forall2 (Heap.holds_row h') rows' domain
    ∧ NoDup rows' ∧ Forall (λ x, length h ≤ x < length h') rows'.
Proof.
  intros Hrows. revert h Hrows. induction rows as [|r rows IH] in domain |- *;
    intros h Hrows.
  - apply Forall2_nil_inv_l in Hrows as ->. exists [], h.
    split_and!; [done..|constructor|constructor|constructor].
  - apply Forall2_cons_inv_l in Hrows as (row & domain' & Hr & Hrest & ->).
    destruct (copy_row_ok h r row Hr) as (r' & h1 & Hrun1 & Hp1 & Hr' & Hrow).
    destruct (IH domain' h1) as (rows' & h' & Hrun & Hp & Hall & Hnd & Hge).
    { eapply Forall2_impl; [done|]. intros. by eapply holds_row_mono. }
    exists (r' :: rows'), h'. split_and!.
    + cbn [Heap.mapM]. erewrite bind_Some by exact Hrun1.
      by erewrite bind_Some by exact Hrun.
    + by etrans.
    + constructor; [|done]. by eapply holds_row_mono.
    + apply NoDup_cons. split; [|done]. intros Hin.
      rewrite Forall_forall in Hge. specialize (Hge r' Hin). lia.
    + apply prefix_length in Hp as Hlen. apply prefix_length in Hp1 as Hlen1.
      constructor; [lia|]. eapply Forall_impl; [done|]. cbn. lia.
Qed.

Lemma copy_domain_ok h r domain :
  Heap.holds h r domain →
  ∃ r' h', Heap.copy_domain r h = Some (r', h') ∧ Heap.holds_fresh h h' r' domain.
Proof.
  intros (rows & Hr & Hrows).
  destruct (mapM_copy_row_ok h rows domain Hrows) as (rows' & h1 & Hrun & Hp & Hall & Hnd & Hge).
  exists (length h1), (h1 ++ [Heap.Refs rows']). split.
  - unfold Heap.copy_domain. erewrite bind_Some by (by apply read_refs_Some).
    by erewrite bind_Some by exact Hrun.
  - split; [etrans; [done|]; by apply prefix_app_r|].
    exists rows'. rewrite Forall_forall in Hge. split_and!.
    + apply lookup_snoc_length.
    + eapply Forall2_impl; [done|]. intros. eapply holds_row_mono; [|done].
      by apply prefix_app_r.
    + apply NoDup_cons. split; [|done]. intros Hin. specialize (Hge _ Hin). lia.
    + apply prefix_length in Hp. constructor; [lia|].
      apply Forall_forall. intros x Hx. specialize (Hge _ Hx). lia.
Qed.

Lemma prefix_insert_ge {A} (l0 l : list A) r x :
  l0 `prefix_of` l → length l0 ≤ r → l0 `prefix_of` <[r := x]> l.
Proof.
  intros [k ->] Hr. exists (<[r - length l0 := x]> k). by apply insert_app_r_alt.
Qed.

Lemma write_entry_Some h r entries i x :
  h !! r = Some (Heap.Refs entries) → i < length entries →
  Heap.write_entry r i x h = Some (tt, <[r := Heap.Refs (<[i := x]> entries)]> h).
Proof. unfold Heap.write_entry. intros -> Hi. by rewrite decide_True. Qed.

Lemma holds_cell_write h r old entries c cell :
  h !! r = Some (Heap.Refs old) → Heap.holds_cell h c cell →
  Heap.holds_cell (<[r := Heap.Refs entries]> h) c cell.
Proof.
  unfold Heap.holds_cell. intros Hr Hc.
  rewrite list_lookup_insert_ne; [done|]. intros ->. congruence.
Qed.

Lemma holds_row_write h r old entries r' row :
  h !! r = Some (Heap.Refs old) → r' ≠ r → Heap.holds_row h r' row →
  Heap.holds_row (<[r := Heap.Refs entries]> h) r' row.
Proof.
  intros Hr Hne (cells & Hr' & Hcells). exists cells. split.
  - by rewrite list_lookup_insert_ne.
  - eapply Forall2_impl; [done|]. intros. by eapply holds_cell_write.
Qed.

Lemma cell_at_lookup {A} (m : list (list A)) i j x :
  cell_at m i j = Some x ↔ ∃ row, m !! i = Some row ∧ row !! j = Some x.
Proof.
  unfold cell_at. destruct (m !! i) as [row|]; cbn; [|naive_solver].
  split; [eauto|]. by intros (? & [= <-] & ?).
Qed.

(** A store into the copy changes one cell of the matrix it stands for and
    no object of the caller. *)
Lemma store_ok h0 h nd (domain : Domain) i j numbers old :
  Heap.holds_fresh h0 h nd domain → cell_at domain i j = Some old →
  ∃ h', Heap.store nd i j numbers h = Some (tt, h')
        ∧ Heap.holds_fresh h0 h' nd (set_cell i j numbers domain).
Proof.
  intros (Hp0 & rows & Hnd & Hrows & Hnodup & Hge) (row & Hrow & Hold)%cell_at_lookup.
  destruct (Forall2_lookup_r _ _ _ _ _ Hrows Hrow) as (r & Hr & cells & Hcells & Hall).
  apply NoDup_cons in Hnodup as [Hnd_rows Hnodup].
  apply Forall_cons in Hge as [Hge_nd Hge].
  assert (r ∈ rows) as Hr_in by (by eapply list_elem_of_lookup_2).
  assert (length h0 ≤ r) as Hge_r by (rewrite Forall_forall in Hge; auto).
  assert (j < length cells) as Hj.
  { rewrite (Forall2_length _ _ _ Hall). by eapply lookup_lt_Some. }
  set (h1 := h ++ [Heap.Numbers numbers]).
  assert (h `prefix_of` h1) as Hp1 by (by apply prefix_app_r).
  assert (h1 !! r = Some (Heap.Refs cells)) as Hcells1 by (by eapply prefix_lookup_Some).
  assert (r < length h) as Hr_lt by (by eapply lookup_lt_Some).
  set (h' := <[r := Heap.Refs (<[j := length h]> cells)]> h1).
  exists h'. split.
  - unfold Heap.store. erewrite bind_Some by reflexivity. fold h1.
    unfold Heap.row_of.
    erewrite bind_Some; cycle 1.
    { erewrite bind_Some by (apply read_refs_Some; by eapply prefix_lookup_Some).
      unfold Heap.defined. rewrite Hr. reflexivity. }
    by apply write_entry_Some.
  - split; [apply prefix_insert_ge; [by etrans|done]|].
    exists rows. split_and!.
    + unfold h'. rewrite list_lookup_insert_ne by (intros ->; done).
      by eapply prefix_lookup_Some.
    + apply Forall2_same_length_lookup. split.
      { unfold set_cell. rewrite length_alter. by eapply Forall2_length. }
      intros k r_k row_k Hr_k Hrow_k. unfold set_cell in Hrow_k.
      destruct (decide (k = i)) as [->|Hki].
      * rewrite list_lookup_alter_eq, Hrow in Hrow_k. injection Hrow_k as <-.
        assert (r_k = r) as -> by congruence.
        exists (<[j := length h]> cells). split.
        -- unfold h'. apply list_lookup_insert_eq. unfold h1. rewrite length_app. lia.
        -- apply Forall2_insert.
           ++ eapply Forall2_impl; [done|]. intros c x Hc.
              eapply holds_cell_write; [done|]. by eapply holds_cell_mono.
           ++ unfold Heap.holds_cell, h'. rewrite list_lookup_insert_ne by lia.
              apply lookup_snoc_length.
      * rewrite list_lookup_alter_ne in Hrow_k by done.
        eapply holds_row_write; [done| |].
        -- intros ->. apply Hki. by eapply NoDup_lookup.
        -- eapply holds_row_mono; [done|]. by eapply Forall2_lookup_lr.
    + by apply NoDup_cons.
    + by apply Forall_cons.
Qed.

Lemma set_cell_id {A} (m : list (list A)) i j x :
  cell_at m i j = Some x → set_cell i j x m = m.
Proof.
  intros (row & Hrow & Hx)%cell_at_lookup. unfold set_cell.
  apply list_eq. intros k. destruct (decide (k = i)) as [->|Hne].
  - rewrite list_lookup_alter_eq, Hrow. cbn. by rewrite list_insert_id.
  - by rewrite list_lookup_alter_ne.
Qed.

Lemma strike_at_set_cell value (domain : Domain) i j numbers :
  cell_at domain i j = Some numbers →
  strike_at value i j domain = set_cell i j (strike value numbers) domain.
Proof.
  intros (row & Hrow & Hx)%cell_at_lookup. unfold strike_at, set_cell.
  apply list_eq. intros k. destruct (decide (k = i)) as [->|Hne].
  - rewrite !list_lookup_alter_eq, Hrow. cbn. f_equal.
    apply list_eq. intros k. destruct (decide (k = j)) as [->|Hne].
    + rewrite list_lookup_alter_eq, Hx. cbn.
      rewrite list_lookup_insert_eq; [done|]. by eapply lookup_lt_Some.
    + by rewrite list_lookup_alter_ne, list_lookup_insert_ne.
  - by rewrite !list_lookup_alter_ne.
Qed.

Lemma strike_entry_ok h0 h nd (domain : Domain) value i j numbers :
  Heap.holds_fresh h0 h nd domain → cell_at domain i j = Some numbers →
  ∃ h', Heap.strike_entry value nd i j h = Some (tt, h')
        ∧ Heap.holds_fresh h0 h' nd (strike_at value i j domain).
Proof.
  intros Hfresh Hcell.
  pose proof Hfresh as (Hp0 & rows & Hnd & Hrows & _).
  pose proof Hcell as (row & Hrow & Hnumbers)%cell_at_lookup.
  destruct (Forall2_lookup_r _ _ _ _ _ Hrows Hrow) as (r & Hr & cells & Hcells & Hall).
  destruct (Forall2_lookup_r _ _ _ _ _ Hall Hnumbers) as (c & Hc & Hholds).
  rewrite (strike_at_set_cell value domain i j numbers Hcell).
  assert (Heap.strike_entry value nd i j h
          = (if decide (value ∈ numbers)
             then Heap.store nd i j (filter (λ v, v ≠ value) numbers)
             else Heap.ret tt) h) as ->.
  { unfold Heap.strike_entry, Heap.row_of.
    erewrite bind_Some; cycle 1.
    { erewrite bind_Some by (by apply read_refs_Some).
      unfold Heap.defined. rewrite Hr. reflexivity. }
    erewrite bind_Some by (by apply read_refs_Some).
    erewrite bind_Some by (unfold Heap.defined; rewrite Hc; reflexivity).
    by erewrite bind_Some by (by apply read_numbers_Some). }
  unfold strike. case_decide.
  - by eapply store_ok.
  - exists h. split; [done|]. by rewrite set_cell_id.
Qed.

Lemma forM_strike_ok {A} (f : A → nat * nat) value h0 nd (l : list A) h
    (domain : Domain) :
  (∀ x, x ∈ l → (f x).1 < 9 ∧ (f x).2 < 9) → grid9 domain →
  Heap.holds_fresh h0 h nd domain →
  ∃ h', Heap.forM l (λ x, Heap.strike_entry value nd (f x).1 (f x).2) h
        = Some (tt, h')
        ∧ Heap.holds_fresh h0 h' nd
            (foldl (λ d x, strike_at value (f x).1 (f x).2 d) domain l).
Proof.
  revert h domain. induction l as [|x l IH]; intros h domain Hin Hg Hfresh.
  - by exists h.
  - destruct (Hin x) as [Hi Hj]; [by left|].
    destruct (grid9_cell_at domain _ _ Hg Hi Hj) as [numbers Hcell].
    destruct (strike_entry_ok h0 h nd domain value _ _ numbers Hfresh Hcell)
      as (h1 & Hrun1 & Hfresh1).
    destruct (IH h1 (strike_at value (f x).1 (f x).2 domain)) as (h' & Hrun & Hfresh').
    { intros y Hy. apply Hin. by right. }
    { by apply grid9_strike_at. }
    { done. }
    exists h'. split; [|done]. cbn [Heap.forM].
    by erewrite bind_Some by exact Hrun1.
Qed.

Lemma forM_block_ok value h0 nd (ks js : list nat) h (domain : Domain) :
  (∀ i, i ∈ ks → i < 9) → (∀ j, j ∈ js → j < 9) → grid9 domain →
  Heap.holds_fresh h0 h nd domain →
  ∃ h', Heap.forM ks (λ i, Heap.forM js (λ j, Heap.strike_entry value nd i j)) h
        = Some (tt, h')
        ∧ Heap.holds_fresh h0 h' nd
            (foldl (λ d i, foldl (λ d j, strike_at value i j d) d js) domain ks).
Proof.
  intros Hks Hjs. revert h domain. induction ks as [|i ks IH]; intros h domain Hg Hfresh.
  - by exists h.
  - destruct (forM_strike_ok (λ j, (i, j)) value h0 nd js h domain)
      as (h1 & Hrun1 & Hfresh1); [|done..|].
    { intros j Hj. cbn. split; [apply Hks; by left|by apply Hjs]. }
    cbn [fst snd] in Hrun1, Hfresh1.
    destruct (IH (λ i Hi, Hks i (list_elem_of_further _ _ _ Hi)) h1
                 (foldl (λ d j, strike_at value i j d) domain js))
      as (h' & Hrun & Hfresh').
    { apply grid9_foldl; [|done]. intros. by apply grid9_strike_at. }
    { done. }
    exists h'. split; [|done]. cbn [Heap.forM].
    by erewrite bind_Some by exact Hrun1.
Qed.

(** The run of [updateDomain] on the heap: it ends without an exception,
    and the array it returns stands for the matrix computed by the
    functional [updateDomain]; the objects of the caller are a prefix of the
    final heap. *)
Lemma updateDomain_run h r (domain : Domain) p value :
  Heap.holds h r domain → grid9 domain → in_grid p →
  ∃ r' h', Heap.updateDomain r p value h = Some (r', h')
           ∧ Heap.holds_fresh h h' r' (updateDomain domain p value).
Proof.
  intros Hholds Hg. destruct p as [row col]. intros [Hrow Hcol]. unfold in_grid in *.
  change (row < 9) in Hrow. change (col < 9) in Hcol.
  destruct (copy_domain_ok h r domain Hholds) as (nd & h1 & Hcopy & Hfresh1).
  pose proof Hfresh1 as (_ & rows & Hnd & Hrows & _).
  destruct (lookup_lt_is_Some_2 domain row) as [line Hline]; [destruct Hg; lia|].
  destruct (Forall2_lookup_r _ _ _ _ _ Hrows Hline) as (rr & Hrr & cells & Hcells & Hall).
  assert (length cells = length (domain !!! row)) as Hlen_cells.
  { rewrite (list_lookup_total_correct _ _ _ Hline). by eapply Forall2_length. }
  destruct (forM_strike_ok (λ j, (row, j)) value h nd
              (range 0 (length (domain !!! row))) h1 domain)
    as (h2 & Hrun2 & Hfresh2); [|done..|].
  { intros j Hj%elem_of_range. cbn. rewrite grid9_row_length in Hj by done. lia. }
  cbn [fst snd] in Hrun2, Hfresh2.
  set (d2 := foldl (λ d j, strike_at value row j d) domain
                   (range 0 (length (domain !!! row)))) in *.
  assert (grid9 d2) as Hg2 by (apply grid9_foldl; [intros; by apply grid9_strike_at|done]).
  pose proof Hfresh2 as (_ & rows2 & Hnd2 & Hrows2 & _).
  assert (length rows2 = length d2) as Hlen_rows by (by eapply Forall2_length).
  destruct (forM_strike_ok (λ i, (i, col)) value h nd (range 0 (length d2)) h2 d2)
    as (h3 & Hrun3 & Hfresh3); [|done..|].
  { intros i Hi%elem_of_range. cbn. destruct Hg2 as [Hl _]. lia. }
  cbn [fst snd] in Hrun3, Hfresh3.
  set (d3 := foldl (λ d i, strike_at value i col d) d2 (range 0 (length d2))) in *.
  assert (grid9 d3) as Hg3 by (apply grid9_foldl; [intros; by apply grid9_strike_at|done]).
  destruct (forM_block_ok value h nd (range (row / 3 * 3) (row / 3 * 3 + 3))
              (range (col / 3 * 3) (col / 3 * 3 + 3)) h3 d3)
    as (h4 & Hrun4 & Hfresh4); [| |done..|].
  { intros i Hi%elem_of_range. lia. }
  { intros j Hj%elem_of_range. lia. }
  set (d4 := foldl _ d3 _) in *.
  assert (grid9 d4) as Hg4.
  { apply grid9_foldl; [|done]. intros m i Hm.
    apply grid9_foldl; [intros; by apply grid9_strike_at|done]. }
  destruct (grid9_cell_at d4 row col Hg4 Hrow Hcol) as [old Hold].
  destruct (store_ok h h4 nd d4 row col [] old Hfresh4 Hold) as (h5 & Hrun5 & Hfresh5).
  exists nd, h5. split; [|exact Hfresh5].
  unfold Heap.updateDomain. erewrite bind_Some by exact Hcopy.
  erewrite bind_Some; cycle 1.
  { unfold Heap.row_of. erewrite bind_Some; cycle 1.
    { erewrite bind_Some by (by apply read_refs_Some).
      unfold Heap.defined. rewrite Hrr. reflexivity. }
    by apply read_refs_Some. }
  rewrite Hlen_cells. erewrite bind_Some by exact Hrun2.
  erewrite bind_Some by (by apply read_refs_Some).
  rewrite Hlen_rows. erewrite bind_Some by exact Hrun3.
  erewrite bind_Some by exact Hrun4.
  by erewrite bind_Some by exact Hrun5.
Qed.

Lemma holds_of_fresh h0 h r domain :
  Heap.holds_fresh h0 h r domain → h0 `prefix_of` h ∧ Heap.holds h r domain.
Proof. intros (Hp & rows & Hr & Hrows & _). split; [done|]. by exists rows. Qed.

(** C5: [updateDomain] writes to none of the objects it is given.  On a
    heap where [r] stands for a 9x9 matrix, two calls in a row with the same
    arguments both return; the heap before the first call is a prefix of the
    heap after it, and so on, so that every object the caller had is still in
    place with the same content; [r] stands for the same matrix after both
    calls, and the two arrays returned stand for the same matrix, the one
    the functional [updateDomain] computes. *)
Theorem updateDomain_leaves_input h r (domain : Domain) p value :
  Heap.holds h r domain → grid9 domain → in_grid p →
  ∃ out1 h1 out2 h2,
    Heap.updateDomain r p value h = Some (out1, h1)
    ∧ Heap.updateDomain r p value h1 = Some (out2, h2)
    ∧ h `prefix_of` h1 ∧ h1 `prefix_of` h2
    ∧ Heap.holds h1 r domain ∧ Heap.holds h2 r domain
    ∧ Heap.holds h1 out1 (updateDomain domain p value)
    ∧ Heap.holds h2 out1 (updateDomain domain p value)
    ∧ Heap.holds h2 out2 (updateDomain domain p value).
Proof.
  intros Hholds Hg Hp.
  destruct (updateDomain_run h r domain p value Hholds Hg Hp) as (out1 & h1 & Hrun1 & Hfresh1).
  apply holds_of_fresh in Hfresh1 as [Hp1 Hout1].
  assert (Heap.holds h1 r domain) as Hholds1 by (by eapply holds_mono).
  destruct (updateDomain_run h1 r domain p value Hholds1 Hg Hp)
    as (out2 & h2 & Hrun2 & Hfresh2).
  apply holds_of_fresh in Hfresh2 as [Hp2 Hout2].
  exists out1, h1, out2, h2. split_and!; try done; by eapply holds_mono.
Qed.

Lemma sample_heap_holds :
  Heap.holds sample_heap.1 sample_heap.2 (domain empty_problem).
Proof.
  eexists. split; [by vm_compute|].
  repeat (apply Forall2_cons; split;
          [eexists; split; [by vm_compute|];
           repeat (apply Forall2_cons; split; [by vm_compute|]); apply Forall2_nil_2|]).
  apply Forall2_nil_2.
Qed.

Lemma updateDomain_leaves_input_witness :
  ∃ out1 h1 out2 h2,
    Heap.updateDomain sample_heap.2 (mkPos 4 4) 5 sample_heap.1 = Some (out1, h1)
    ∧ Heap.updateDomain sample_heap.2 (mkPos 4 4) 5 h1 = Some (out2, h2)
    ∧ sample_heap.1 `prefix_of` h1 ∧ h1 `prefix_of` h2
    ∧ Heap.holds h1 sample_heap.2 (domain empty_problem)
    ∧ Heap.holds h2 sample_heap.2 (domain empty_problem)
    ∧ Heap.holds h1 out1 (updateDomain (domain empty_problem) (mkPos 4 4) 5)
    ∧ Heap.holds h2 out1 (updateDomain (domain empty_problem) (mkPos 4 4) 5)
    ∧ Heap.holds h2 out2 (updateDomain (domain empty_problem) (mkPos 4 4) 5).
Proof.
  apply (updateDomain_leaves_input sample_heap.1 sample_heap.2
           (domain empty_problem) (mkPos 4 4) 5).
  - exact sample_heap_holds.
  - exact grid9_empty_domain.
  - unfold in_grid. cbn. lia.
Defined.

(** ** The scan for an empty cell *)

Lemma first_some_range_Some {B} (f : nat → option B) a b y :
  first_some f (range a b) = Some y
  ↔ ∃ k, a ≤ k < b ∧ f k = Some y ∧ ∀ k', a ≤ k' < k → f k' = None.
Proof.
  remember (b - a) as n eqn:Hn. revert a Hn.
  induction n as [|n IH]; intros a Hn.
  - rewrite range_nil by lia. cbn. split; [done|]. intros (k & ? & _). lia.
  - rewrite range_cons by lia. cbn [first_some].
    destruct (f a) as [y'|] eqn:Hfa.
    + split.
      * intros [= <-]. exists a. split_and!; [lia..|done|]. intros; lia.
      * intros (k & Hk & Hfk & Hbefore).
        destruct (decide (k = a)) as [->|Hne]; [congruence|].
        rewrite Hbefore in Hfa by lia. done.
    + rewrite (IH (S a)) by lia. split.
      * intros (k & Hk & Hfk & Hbefore). exists k. split_and!; [lia..|done|].
        intros k' Hk'. destruct (decide (k' = a)) as [->|]; [done|].
        apply Hbefore. lia.
      * intros (k & Hk & Hfk & Hbefore). exists k.
        assert (k ≠ a) by congruence.
        split_and!; [lia..|done|]. intros k' Hk'. apply Hbefore. lia.
Qed.

Lemma first_some_range_None {B} (f : nat → option B) a b :
  first_some f (range a b) = None ↔ ∀ k, a ≤ k < b → f k = None.
Proof.
  split.
  - intros H k Hk. eapply first_some_None_inv; [done|]. by apply elem_of_range.
  - intros H. apply first_some_None. intros k Hk%elem_of_range. by apply H.
Qed.

Lemma scan_Some (state : Grid) size sr sc q :
  first_some (λ i,
    first_some (λ j, if is_null state i j then Some (mkPos i j) else None)
               (range (if i =? sr then sc else 0) size))
    (range sr size) = Some q
  ↔ is_null state (row q) (col q) = true ∧ scan_from sr sc q
    ∧ row q < size ∧ col q < size
    ∧ ∀ r, scan_from sr sc r → row r < size → col r < size → pos_lt r q →
           is_null state (row r) (col r) = false.
Proof.
  rewrite first_some_range_Some. split.
  - intros (i & Hi & Hrow & Hbefore).
    apply first_some_range_Some in Hrow as (j & Hj & Hij & Hleft).
    destruct (is_null state i j) eqn:Hnull; [|done].
    injection Hij as <-. cbn [row col].
    split_and!; [done| |lia..|].
    { unfold scan_from. cbn [row col]. destruct (Nat.eqb_spec i sr); lia. }
    intros [r c] Hscan Hr Hc Hlt. unfold scan_from, pos_lt in *. cbn [row col] in *.
    destruct (decide (r = i)) as [->|Hne].
    + assert (Hc' : (if i =? sr then sc else 0) ≤ c < j).
      { destruct (Nat.eqb_spec i sr); lia. }
      specialize (Hleft c Hc'). by destruct (is_null state i c).
    + assert (Hr' : sr ≤ r < i) by lia.
      specialize (Hbefore r Hr').
      rewrite first_some_range_None in Hbefore.
      assert (Hc' : (if r =? sr then sc else 0) ≤ c < size).
      { destruct (Nat.eqb_spec r sr); lia. }
      specialize (Hbefore c Hc'). by destruct (is_null state r c).
  - intros (Hnull & Hscan & Hr & Hc & Hfirst). destruct q as [i j].
    unfold scan_from, pos_lt in *. cbn [row col] in *.
    exists i. split_and!; [lia..| |].
    + apply first_some_range_Some. exists j. split_and!.
      * destruct (Nat.eqb_spec i sr); lia.
      * done.
      * by rewrite Hnull.
      * intros c Hc'.
        assert (is_null state i c = false) as ->; [|done].
        apply (Hfirst (mkPos i c)); cbn [row col]; [|lia..].
        destruct (Nat.eqb_spec i sr); lia.
    + intros r Hr'. apply first_some_range_None. intros c Hc'.
      assert (is_null state r c = false) as ->; [|done].
      apply (Hfirst (mkPos r c)); cbn [row col]; [|lia..].
      destruct (Nat.eqb_spec r sr); lia.
Qed.

Lemma scan_None (state : Grid) size sr sc :
  first_some (λ i,
    first_some (λ j, if is_null state i j then Some (mkPos i j) else None)
               (range (if i =? sr then sc else 0) size))
    (range sr size) = None
  ↔ ∀ r, scan_from sr sc r → row r < size → col r < size →
         is_null state (row r) (col r) = false.
Proof.
  rewrite first_some_range_None. split.
  - intros H [r c] Hscan Hr Hc. unfold scan_from in *. cbn [row col] in *.
    assert (Hr' : sr ≤ r < size) by lia. specialize (H r Hr').
    rewrite first_some_range_None in H.
    assert (Hc' : (if r =? sr then sc else 0) ≤ c < size).
    { destruct (Nat.eqb_spec r sr); lia. }
    specialize (H c Hc'). by destruct (is_null state r c).
  - intros H r Hr. apply first_some_range_None. intros c Hc.
    assert (is_null state r c = false) as ->; [|done].
    apply (H (mkPos r c)); unfold scan_from; cbn [row col]; [|lia..].
    destruct (Nat.eqb_spec r sr); lia.
Qed.

Lemma is_null_true (state : Grid) i j :
  is_null state i j = true ↔ cell_at state i j = Some None.
Proof.
  unfold is_null. destruct (cell_at state i j) as [[?|]|]; split; done.
Qed.

Lemma is_null_false (state : Grid) i j :
  is_null state i j = false ↔ cell_at state i j ≠ Some None.
Proof.
  unfold is_null. destruct (cell_at state i j) as [[?|]|]; split; done.
Qed.

(** The start of the scan of [getNextPosition], after the adjustment at the
    end of a row, visits the cells after the current position. *)
Lemma scan_from_after size currentPosition q :
  col q < size →
  (let startRow := match currentPosition with Some p => row p | None => 0 end in
   let startCol := match currentPosition with Some p => col p + 1 | None => 0 end in
   let '(startRow, startCol) :=
     if size <=? startCol then (startRow + 1, 0) else (startRow, startCol) in
   scan_from startRow startCol q) ↔ after currentPosition q.
Proof.
  intros Hq. destruct currentPosition as [p|]; cbn.
  - destruct (Nat.leb_spec size (col p + 1)); unfold scan_from, pos_lt; lia.
  - destruct (Nat.leb_spec size 0); unfold scan_from; lia.
Qed.

Lemma getNextPosition_Some (state : Grid) currentPosition q :
  getNextPosition state currentPosition = Some q
  ↔ is_null state (row q) (col q) = true ∧ after currentPosition q
    ∧ row q < length state ∧ col q < length state
    ∧ ∀ r, after currentPosition r → row r < length state → col r < length state →
           pos_lt r q → is_null state (row r) (col r) = false.
Proof.
  unfold getNextPosition.
  pose proof (scan_from_after (length state) currentPosition) as Hafter.
  cbn zeta in Hafter.
  destruct (if length state <=? _ then _ else _) as [sr sc].
  rewrite scan_Some. split.
  - intros (Hnull & Hscan & Hr & Hc & Hfirst).
    split_and!; [done|by apply Hafter|done..|].
    intros r Hr1 Hr2 Hr3 Hr4. apply Hfirst; [by apply Hafter|done..].
  - intros (Hnull & Hscan & Hr & Hc & Hfirst).
    split_and!; [done|by apply Hafter|done..|].
    intros r Hr1 Hr2 Hr3 Hr4. apply Hfirst; [by apply Hafter|done..].
Qed.

Lemma getNextPosition_None (state : Grid) currentPosition :
  getNextPosition state currentPosition = None
  ↔ ∀ r, after currentPosition r → row r < length state → col r < length state →
         is_null state (row r) (col r) = false.
Proof.
  unfold getNextPosition.
  pose proof (scan_from_after (length state) currentPosition) as Hafter.
  cbn zeta in Hafter.
  destruct (if length state <=? _ then _ else _) as [sr sc].
  rewrite scan_None. split.
  - intros H r Hr1 Hr2 Hr3. apply H; [by apply Hafter|done..].
  - intros H r Hr1 Hr2 Hr3. apply H; [by apply Hafter|done..].
Qed.

(** ** Counting the empty cells *)

Lemma row_nulls_cons (c : Cell) (r : list Cell) :
  row_nulls (c :: r) = (if decide (c = None) then 1 else 0) + row_nulls r.
Proof. unfold row_nulls. rewrite filter_cons. by destruct (decide (c = None)). Qed.

Lemma count_nulls_cons (r : list Cell) (state : Grid) :
  count_nulls (r :: state) = row_nulls r + count_nulls state.
Proof.
  unfold count_nulls, row_nulls. cbn [concat]. by rewrite filter_app, length_app.
Qed.

Lemma count_row_insert (r : list Cell) j v :
  r !! j = Some None → row_nulls (<[j := Some v]> r) + 1 = row_nulls r.
Proof.
  revert j. induction r as [|c r IH]; intros [|j] Hj; try done.
  - injection Hj as ->. cbn [insert list_insert]. rewrite !row_nulls_cons.
    rewrite decide_False, decide_True by done. lia.
  - cbn in Hj. specialize (IH j Hj). cbn [insert list_insert].
    rewrite !row_nulls_cons. unfold insert in *. destruct (decide (c = None)); lia.
Qed.

Lemma count_nulls_set_cell (state : Grid) i j v :
  is_null state i j = true →
  count_nulls (set_cell i j (Some v) state) + 1 = count_nulls state.
Proof.
  rewrite is_null_true. unfold cell_at, set_cell.
  revert i. induction state as [|r state IH]; intros [|i] Hij; try done.
  - cbn in Hij. cbn [alter list_alter]. rewrite !count_nulls_cons.
    pose proof (count_row_insert r j v Hij). lia.
  - cbn in Hij. cbn [alter list_alter]. rewrite !count_nulls_cons.
    specialize (IH i Hij). unfold alter, insert in *. lia.
Qed.

Lemma row_nulls_zero (r : list Cell) : row_nulls r = 0 ↔ Forall is_Some r.
Proof.
  induction r as [|c r IH]; [split; [constructor|done]|].
  rewrite row_nulls_cons, Forall_cons, <-IH.
  destruct (decide (c = None)) as [->|Hc].
  - split; [lia|]. intros [[? [=]] _].
  - split; [|intros [_ ?]; lia]. intros ?. split; [by destruct c|lia].
Qed.

Lemma count_nulls_zero (state : Grid) :
  count_nulls state = 0 ↔ no_empty_cell state.
Proof.
  unfold no_empty_cell. induction state as [|r state IH].
  - split; [constructor|done].
  - rewrite count_nulls_cons, Forall_cons, <-IH, <-row_nulls_zero. lia.
Qed.

Lemma has_empty_cell_count (state : Grid) :
  has_empty_cell state ↔ 0 < count_nulls state.
Proof.
  split.
  - intros (i & j & Hij). destruct (decide (count_nulls state = 0)) as [H0|]; [|lia].
    apply count_nulls_zero in H0.
    by pose proof (no_empty_cell_at state (mkPos i j) H0).
  - intros Hpos.
    assert (¬ no_empty_cell state) as Hno by (rewrite <-count_nulls_zero; lia).
    apply not_Forall_Exists in Hno; [|apply _].
    apply Exists_exists in Hno as (r & Hr & Hno).
    apply not_Forall_Exists in Hno; [|apply _].
    apply Exists_exists in Hno as (c & Hc & Hno).
    apply list_elem_of_lookup in Hr as [i Hi]. apply list_elem_of_lookup in Hc as [j Hj].
    exists i, j. unfold cell_at. rewrite Hi. cbn. rewrite Hj.
    destruct c as [v|]; [|done]. destruct Hno. by exists v.
Qed.

(** ** The cell chosen by the MRV rule *)

Lemma mrv_step_inv problem seen acc q :
  mrv_inv problem seen acc → mrv_inv problem (seen ++ [q]) (mrv_step problem acc q).
Proof.
  destruct acc as [[m|] [p|]]; cbn [mrv_inv]; try done.
  - intros (Hp & Hm & l1 & l2 & -> & Hl1 & Hl2). unfold mrv_step.
    destruct (is_null (state problem) (row q) (col q)) eqn:Hnull.
    + fold (remaining problem q).
      destruct (Nat.ltb_spec (remaining problem q) m) as [Hlt|Hge];
        destruct (Nat.ltb_spec 0 (remaining problem q)) as [Hpos|Hzero];
        cbn [andb mrv_inv].
      * split_and!; [done..|]. exists (l1 ++ p :: l2), []. split_and!; [done| |].
        -- intros q' [Hq' | [-> | Hq']%elem_of_cons]%elem_of_app Hel.
           ++ specialize (Hl1 q' Hq' Hel). lia.
           ++ lia.
           ++ specialize (Hl2 q' Hq' Hel). lia.
        -- intros q' Hq'. by apply elem_of_nil in Hq'.
      * split_and!; [done..|]. exists l1, (l2 ++ [q]).
        split_and!; [by rewrite <-app_assoc|done|].
        intros q' [Hq' | ->%list_elem_of_singleton]%elem_of_app Hel; [by apply Hl2|].
        destruct Hel. lia.
      * split_and!; [done..|]. exists l1, (l2 ++ [q]).
        split_and!; [by rewrite <-app_assoc|done|].
        intros q' [Hq' | ->%list_elem_of_singleton]%elem_of_app Hel; [by apply Hl2|lia].
      * split_and!; [done..|]. exists l1, (l2 ++ [q]).
        split_and!; [by rewrite <-app_assoc|done|].
        intros q' [Hq' | ->%list_elem_of_singleton]%elem_of_app Hel; [by apply Hl2|lia].
    + cbn [mrv_inv]. split_and!; [done..|]. exists l1, (l2 ++ [q]).
      split_and!; [by rewrite <-app_assoc|done|].
      intros q' [Hq' | ->%list_elem_of_singleton]%elem_of_app Hel; [by apply Hl2|].
      destruct Hel. congruence.
  - intros Hnone. unfold mrv_step.
    destruct (is_null (state problem) (row q) (col q)) eqn:Hnull.
    + fold (remaining problem q).
      destruct (Nat.ltb_spec 0 (remaining problem q)) as [Hpos|Hzero];
        cbn [andb mrv_inv].
      * split_and!; [done..|]. exists seen, []. split_and!; [done| |].
        -- intros q' Hq' Hel. by destruct (Hnone q' Hq').
        -- intros q' Hq'. by apply elem_of_nil in Hq'.
      * intros q' [Hq' | ->%list_elem_of_singleton]%elem_of_app Hel; [by eapply Hnone|].
        destruct Hel. lia.
    + cbn [mrv_inv].
      intros q' [Hq' | ->%list_elem_of_singleton]%elem_of_app Hel; [by eapply Hnone|].
      destruct Hel. congruence.
Qed.

Lemma mrv_fold_inv problem ps seen acc :
  mrv_inv problem seen acc →
  mrv_inv problem (seen ++ ps) (foldl (mrv_step problem) acc ps).
Proof.
  revert seen acc. induction ps as [|q ps IH]; intros seen acc Hacc; cbn [foldl].
  - by rewrite app_nil_r.
  - rewrite (assoc_L (++) seen [q] ps : seen ++ q :: ps = (seen ++ [q]) ++ ps).
    apply IH. by apply mrv_step_inv.
Qed.

Lemma all_positions_sorted : StronglySorted pos_lt all_positions.
Proof. by_evaluation. Qed.

Lemma pos_lt_trichotomy p q : pos_lt p q ∨ p = q ∨ pos_lt q p.
Proof.
  destruct p as [i j], q as [i' j']. unfold pos_lt. cbn [row col].
  destruct (decide (i = i')) as [->|]; [|lia].
  destruct (decide (j = j')) as [->|]; [|lia]. by right; left.
Qed.

(** The cells that come before and after a cell in the scan. *)
Lemma all_positions_split l1 p l2 :
  all_positions = l1 ++ p :: l2 →
  (∀ q, q ∈ l1 ↔ in_grid q ∧ pos_lt q p) ∧ (∀ q, q ∈ l2 ↔ in_grid q ∧ pos_lt p q).
Proof.
  intros Hsplit. pose proof all_positions_sorted as Hsorted. rewrite Hsplit in Hsorted.
  apply StronglySorted_app in Hsorted as (Hlt & Hs1 & Hs2).
  apply StronglySorted_cons in Hs2 as [Hp Hs2].
  rewrite Forall_forall in Hp.
  assert (∀ q, in_grid q ↔ q ∈ l1 ∨ q = p ∨ q ∈ l2) as Hgrid.
  { intros q. rewrite <-elem_of_all_positions, Hsplit, elem_of_app, elem_of_cons. done. }
  assert (∀ q, ¬ pos_lt q q) as Hirr by (intros q; unfold pos_lt; lia).
  assert (∀ q r, pos_lt q r → ¬ pos_lt r q) as Hasym by (intros q r; unfold pos_lt; lia).
  split; intros q; split.
  - intros Hq. split; [apply Hgrid; by left|]. apply Hlt; [done|by left].
  - intros [[Hq | [-> | Hq]]%Hgrid Hlt']; [done|by apply Hirr in Hlt'|].
    apply Hp in Hq. by apply Hasym in Hq.
  - intros Hq. split; [apply Hgrid; by right; right|]. by apply Hp.
  - intros [[Hq | [-> | Hq]]%Hgrid Hlt']; [|by apply Hirr in Hlt'|done].
    assert (pos_lt q p) as Hqp by (apply Hlt; [done|by left]). by apply Hasym in Hqp.
Qed.

Lemma getMRVPosition_inv problem :
  mrv_inv problem all_positions (foldl (mrv_step problem) (None, None) all_positions).
Proof.
  apply (mrv_fold_inv problem all_positions [] (None, None)).
  intros q Hq. by apply elem_of_nil in Hq.
Qed.

Lemma getMRVPosition_Some problem p :
  getMRVPosition problem = Some p →
  in_grid p ∧ eligible problem p
  ∧ ∀ q, in_grid q → eligible problem q →
         remaining problem p ≤ remaining problem q
         ∧ (pos_lt q p → remaining problem p < remaining problem q).
Proof.
  rewrite getMRVPosition_cells. pose proof (getMRVPosition_inv problem) as Hinv.
  destruct (foldl _ _ _) as [[m|] [p'|]]; cbn [mrv_inv snd] in *; try done.
  intros [= ->]. destruct Hinv as (Hp & -> & l1 & l2 & Hsplit & Hl1 & Hl2).
  destruct (all_positions_split _ _ _ Hsplit) as [Hbefore Hafter].
  split_and!; [|done|].
  { apply elem_of_all_positions. rewrite Hsplit. apply elem_of_app. right. left. }
  intros q Hq Hel. destruct (pos_lt_trichotomy q p) as [Hlt|[->|Hgt]].
  - assert (q ∈ l1) as Hq1 by by apply Hbefore. specialize (Hl1 q Hq1 Hel). lia.
  - split; [lia|]. unfold pos_lt. lia.
  - assert (q ∈ l2) as Hq2 by by apply Hafter. specialize (Hl2 q Hq2 Hel).
    split; [lia|]. unfold pos_lt in *. lia.
Qed.

Lemma getMRVPosition_None problem :
  getMRVPosition problem = None → ∀ q, in_grid q → ¬ eligible problem q.
Proof.
  rewrite getMRVPosition_cells. pose proof (getMRVPosition_inv problem) as Hinv.
  destruct (foldl _ _ _) as [[m|] [p'|]]; cbn [mrv_inv snd] in *; try done.
  intros _ q Hq. by apply Hinv, elem_of_all_positions.
Qed.

(** ** What every node of a search keeps of the input *)

Lemma domain_at_updateDomain_self (domain : Domain) p value :
  domain_at (updateDomain domain p value) (row p) (col p) = [].
Proof.
  destruct p as [i j]. unfold updateDomain, domain_at. cbn [row col].
  rewrite cell_at_set_cell, decide_True by done.
  by destruct (cell_at _ i j).
Qed.

Lemma is_null_set_cell_ne (state : Grid) p q (x : Cell) :
  q ≠ p →
  is_null (set_cell (row p) (col p) x state) (row q) (col q)
  = is_null state (row q) (col q).
Proof.
  intros Hne. unfold is_null. rewrite cell_at_set_cell, decide_False; [done|].
  intros [? ?]. destruct p, q. cbn in *. congruence.
Qed.

Lemma extends_set_cell (grid state : Grid) p v :
  extends grid state → is_null state (row p) (col p) = true →
  extends grid (set_cell (row p) (col p) (Some v) state).
Proof.
  intros Hext Hnull%is_null_true q w Hq. rewrite at_pos_set_cell.
  destruct (decide (q = p)) as [->|]; [|by apply Hext].
  apply Hext in Hq. unfold at_pos in Hq. congruence.
Qed.

Lemma pos_lt_ne p q : pos_lt p q → q ≠ p.
Proof. intros Hlt ->. unfold pos_lt in Hlt. lia. Qed.

(** A child that fills an empty cell of its parent. *)
Lemma tracks_candidate grid parent pos value next :
  tracks grid parent →
  is_null (state (problem parent)) (row pos) (col pos) = true →
  open_or_dead (mkNode (candidate parent pos value) (Some parent) next) →
  tracks grid (mkNode (candidate parent pos value) (Some parent) next).
Proof.
  intros (Hext & Hdepth & _) Hnull Hopen. split_and!; [| |done].
  - cbn [problem candidate state]. by apply extends_set_cell.
  - cbn [problem candidate state getDepth].
    pose proof (count_nulls_set_cell _ _ _ value Hnull). lia.
Qed.

(** The children of the first two expansion functions. *)
Lemma child_of_tracks grid parent value :
  tracks grid parent →
  value ∈ domain_at (domain (problem parent))
                    (row (lastAssigned parent)) (col (lastAssigned parent)) →
  tracks grid
    (child_of parent
       (getNextPosition (state (problem parent)) (Some (lastAssigned parent)))
       (set_cell (row (lastAssigned parent)) (col (lastAssigned parent)) (Some value)
                 (state (problem parent)))
       (updateDomain (domain (problem parent)) (lastAssigned parent) value)).
Proof.
  intros Htracks Hvalue.
  assert (is_null (state (problem parent)) (row (lastAssigned parent))
                  (col (lastAssigned parent)) = true) as Hnull.
  { destruct Htracks as (_ & _ & [Hopen|Hdead]); [done|].
    rewrite Hdead in Hvalue. by apply elem_of_nil in Hvalue. }
  apply (tracks_candidate grid parent (lastAssigned parent) value); [done..|].
  unfold open_or_dead. cbn [problem lastAssigned candidate state domain].
  destruct (getNextPosition _ _) as [next|] eqn:Hnext.
  - left. apply getNextPosition_Some in Hnext as (Hopen & Hafter & _).
    rewrite is_null_set_cell_ne; [done|]. by apply pos_lt_ne.
  - right. apply domain_at_updateDomain_self.
Qed.

Lemma getChildren_tracks grid parent metrics :
  tracks grid parent → Forall (tracks grid) (getChildren parent metrics).1.
Proof.
  intros Htracks. unfold getChildren.
  pose proof (child_of_tracks grid parent) as Hchild.
  destruct (lastAssigned parent) as [r c]. cbn [fst row col] in *.
  apply Forall_fmap, Forall_forall. intros value Hv. by apply Hchild.
Qed.

Lemma getChildren_forwarding_tracks grid parent metrics :
  tracks grid parent → Forall (tracks grid) (getChildren_forwarding parent metrics).1.
Proof.
  intros Htracks. unfold getChildren_forwarding.
  pose proof (child_of_tracks grid parent) as Hchild.
  destruct (lastAssigned parent) as [r c]. cbn [fst row col] in *.
  apply Forall_forall. intros child (value & Hv & Heq)%list_elem_of_omap.
  destruct (hasEmptyDomain _ _); [done|]. injection Heq as <-. by apply Hchild.
Qed.

Lemma getChildren_MRV_LCV_tracks grid parent metrics :
  tracks grid parent → Forall (tracks grid) (getChildren_MRV_LCV parent metrics).1.
Proof.
  intros Htracks. unfold getChildren_MRV_LCV.
  destruct (getMRVPosition (problem parent)) as [nextPosition|] eqn:Hmrv;
    [|by constructor].
  apply getMRVPosition_Some in Hmrv as (_ & [Hnull _] & _). cbn [fst].
  apply Forall_forall. intros child (value & Hv & Heq)%list_elem_of_omap.
  destruct (hasEmptyDomain _ _); [done|]. injection Heq as <-.
  apply (tracks_candidate grid parent nextPosition value); [done..|].
  unfold open_or_dead. cbn [problem lastAssigned].
  destruct (getMRVPosition _) as [next|] eqn:Hnext; cbn [default].
  - left. by apply getMRVPosition_Some in Hnext as (_ & [Hopen _] & _).
  - right. apply domain_at_updateDomain_self.
Qed.

Lemma tracks_root (grid : Grid) pos :
  is_null grid (row pos) (col pos) = true →
  tracks grid (mkNode (initiate grid) None pos).
Proof.
  intros Hnull. split_and!.
  - cbn [problem]. rewrite initiate_state. by intros p v.
  - cbn [problem getDepth]. by rewrite initiate_state.
  - left. cbn [problem lastAssigned]. by rewrite initiate_state.
Qed.

(** A grid of nine rows of nine cells in which the scan finds no empty cell
    has none. *)
Lemma getNextPosition_None_full (grid : Grid) :
  grid9 grid → getNextPosition grid None = None → count_nulls grid = 0.
Proof.
  intros Hg Hnone. destruct (decide (count_nulls grid = 0)) as [|Hpos]; [done|].
  assert (has_empty_cell grid) as Hempty by (apply has_empty_cell_count; lia).
  destruct (getNextPosition_first grid Hg Hempty) as [p Hp]. congruence.
Qed.

Lemma getMRVPosition_None_full (grid : Grid) :
  grid9 grid → getMRVPosition (initiate grid) = None → count_nulls grid = 0.
Proof.
  intros Hg Hnone. destruct (decide (count_nulls grid = 0)) as [|Hpos]; [done|].
  assert (has_empty_cell grid) as Hempty by (apply has_empty_cell_count; lia).
  destruct (getMRVPosition_first grid Hg Hempty) as [p Hp]. congruence.
Qed.

Lemma extends_refl (grid : Grid) : extends grid grid.
Proof. by intros p v. Qed.

(** ** Invariants of the depth-first loop *)

Lemma pop_snoc {A} (fringe : list A) current :
  pop (fringe ++ [current]) = Some (current, fringe).
Proof. unfold pop. by rewrite reverse_snoc, reverse_involutive. Qed.

Lemma pop_None {A} (fringe : list A) : pop fringe = None → fringe = [].
Proof.
  unfold pop. destruct (reverse fringe) eqn:Hrev; [|done]. intros _.
  by rewrite <-(reverse_involutive fringe), Hrev.
Qed.

(** A property of the fringe and the counters that each kind of iteration
    keeps holds of what the loop ends with. *)
Lemma search_invariant (I : list Node → Metrics → Prop) expand
    fuel fringe metrics outcome metrics' :
  (∀ rest current m, I (rest ++ [current]) m →
     consistent (problem current) = false → I rest (note_expanded m)) →
  (∀ rest current m, I (rest ++ [current]) m →
     consistent (problem current) = true → isgoal (problem current) = false →
     I (rest ++ (expand current (note_expanded m)).1)
       (expand current (note_expanded m)).2) →
  I fringe metrics →
  search expand fuel fringe metrics = (outcome, metrics') →
  match outcome with
  | Found node =>
      ∃ rest m, I (rest ++ [node]) m ∧ metrics' = note_expanded m
                ∧ isgoal (problem node) = true
  | NoSolution => I [] metrics'
  | OutOfFuel => ∃ rest, I rest metrics'
  end.
Proof.
  intros Hskip Hexpand. revert fringe metrics.
  induction fuel as [|fuel IH]; intros fringe metrics HI; cbn [search].
  - destruct (pop fringe) as [[current rest]|] eqn:Hpop.
    + intros [= <- <-]. by exists fringe.
    + apply pop_None in Hpop as ->. by intros [= <- <-].
  - destruct (pop fringe) as [[current rest]|] eqn:Hpop.
    + apply pop_Some in Hpop as ->.
      destruct (consistent (problem current)) eqn:Hc; [|by apply IH, (Hskip rest current)].
      destruct (isgoal (problem current)) eqn:Hgoal.
      * intros [= <- <-]. by exists rest, metrics.
      * specialize (Hexpand rest current metrics HI Hc Hgoal).
        destruct (expand current (note_expanded metrics)) as [children m].
        by apply IH.
    + apply pop_None in Hpop as ->. by intros [= <- <-].
Qed.

(** The counters of the three expansion functions. *)
Lemma getChildren_counts : counts_children getChildren.
Proof.
  intros n m. unfold getChildren. by destruct (lastAssigned n).
Qed.

Lemma getChildren_forwarding_counts : counts_children getChildren_forwarding.
Proof.
  intros n m. unfold getChildren_forwarding. by destruct (lastAssigned n).
Qed.

Lemma getChildren_MRV_LCV_counts : counts_children getChildren_MRV_LCV.
Proof.
  intros n m. unfold getChildren_MRV_LCV.
  destruct (getMRVPosition (problem n)); cbn; [done|lia].
Qed.

Lemma search_counters expand fuel fringe metrics outcome metrics' :
  counts_children expand →
  search expand fuel fringe metrics = (outcome, metrics') →
  iterations metrics' = iterations metrics
  ∧ nodesExpanded metrics' ≤ nodesExpanded metrics + fuel
  ∧ (outcome = OutOfFuel → nodesExpanded metrics' = nodesExpanded metrics + fuel)
  ∧ ∃ rest : list Node,
      nodesExpanded metrics' + length rest + childrenGenerated metrics
      = nodesExpanded metrics + length fringe + childrenGenerated metrics'
      ∧ (outcome = NoSolution → rest = []).
Proof.
  intros Hcounts. revert fringe metrics.
  induction fuel as [|fuel IH]; intros fringe metrics; cbn [search].
  - destruct (pop fringe) as [[current rest]|] eqn:Hpop.
    + intros [= <- <-]. split_and!; [done|lia|intros _; lia|].
      exists fringe. split; [lia|done].
    + apply pop_None in Hpop as ->. intros [= <- <-].
      split_and!; [done|lia|done|]. by exists [].
  - destruct (pop fringe) as [[current rest]|] eqn:Hpop.
    + apply pop_Some in Hpop as ->. rewrite length_app. cbn [length].
      destruct (consistent (problem current)).
      * destruct (isgoal (problem current)).
        -- intros [= <- <-]. cbn. split_and!; [done|lia|done|].
           exists rest. split; [lia|done].
        -- destruct (Hcounts current (note_expanded metrics)) as (Hn & Hc & Hi).
           destruct (expand current (note_expanded metrics)) as [children m].
           cbn [fst snd] in *. intros Hsearch.
           destruct (IH _ _ Hsearch) as (H1 & H2 & H3 & rest' & H4 & H5).
           rewrite length_app in H4. cbn in *.
           split_and!; [congruence|lia|intros ?; specialize (H3 ltac:(done)); lia|].
           exists rest'. split; [lia|done].
      * intros Hsearch.
        destruct (IH _ _ Hsearch) as (H1 & H2 & H3 & rest' & H4 & H5). cbn in *.
        split_and!; [done|lia|intros ?; specialize (H3 ltac:(done)); lia|].
        exists rest'. split; [lia|done].
    + apply pop_None in Hpop as ->. intros [= <- <-].
      split_and!; [done|lia|done|]. by exists [].
Qed.

Lemma getChildren_deepens : deepens getChildren.
Proof.
  intros n m. unfold getChildren. destruct (lastAssigned n) as [r c]. cbn [fst snd].
  split_and!.
  - apply Forall_fmap, Forall_forall. intros value _. cbn. lia.
  - cbn. lia.
  - cbn. lia.
  - intros _. cbn. lia.
Qed.

Lemma getChildren_forwarding_deepens : deepens getChildren_forwarding.
Proof.
  intros n m. unfold getChildren_forwarding. destruct (lastAssigned n) as [r c].
  cbn [fst snd]. split_and!.
  - apply Forall_forall. intros child (value & _ & Heq)%list_elem_of_omap.
    destruct (hasEmptyDomain _ _); [done|]. injection Heq as <-. cbn. lia.
  - cbn. lia.
  - cbn. lia.
  - intros _. cbn. lia.
Qed.

Lemma getChildren_MRV_LCV_deepens : deepens getChildren_MRV_LCV.
Proof.
  intros n m. unfold getChildren_MRV_LCV.
  destruct (getMRVPosition (problem n)) as [nextPosition|]; cbn [fst snd].
  - split_and!.
    + apply Forall_forall. intros child (value & _ & Heq)%list_elem_of_omap.
      destruct (hasEmptyDomain _ _); [done|]. injection Heq as <-. cbn. lia.
    + cbn. lia.
    + cbn. lia.
    + intros _. cbn. lia.
  - split_and!; [constructor|lia..|done].
Qed.

(** A consistent node that is no goal has an empty cell. *)
Lemma open_node_has_null problem :
  consistent problem = true → isgoal problem = false → 0 < count_nulls (state problem).
Proof.
  intros Hc Hgoal. destruct (decide (count_nulls (state problem) = 0)) as [H0|]; [|lia].
  apply count_nulls_zero in H0.
  assert (isgoal problem = true) by by apply isgoal_true. congruence.
Qed.

Lemma search_depth grid expand fuel fringe metrics outcome metrics' :
  (∀ n m, tracks grid n → Forall (tracks grid) (expand n m).1) →
  deepens expand →
  depth_inv grid fringe metrics →
  search expand fuel fringe metrics = (outcome, metrics') →
  maxDepth metrics' ≤ count_nulls grid
  ∧ ∀ node, outcome = Found node →
      tracks grid node ∧ isgoal (problem node) = true
      ∧ maxDepth metrics' = count_nulls grid.
Proof.
  intros Htracks Hdeep Hinv Hsearch.
  apply (search_invariant (depth_inv grid)) in Hsearch; [| | |done].
  - destruct outcome as [node| |].
    + destruct Hsearch as (rest & m & (Ht & Hd & Hmax) & -> & Hgoal).
      split; [done|]. intros ? [= <-].
      apply Forall_app in Ht as [_ Ht]. rewrite Forall_singleton in Ht.
      apply Forall_app in Hd as [_ Hd]. rewrite Forall_singleton in Hd.
      split_and!; [done..|]. destruct Ht as (_ & Hdepth & _).
      apply isgoal_true in Hgoal as [Hfull%count_nulls_zero _]. cbn. lia.
    + destruct Hsearch as (_ & _ & Hmax). split; [done|]. by intros.
    + destruct Hsearch as (rest & _ & _ & Hmax). split; [done|]. by intros.
  - intros rest current m (Ht & Hd & Hmax) _.
    apply Forall_app in Ht as [Ht _]. apply Forall_app in Hd as [Hd _]. done.
  - intros rest current m (Ht & Hd & Hmax) Hc Hgoal.
    apply Forall_app in Ht as [Ht Hcur]. rewrite Forall_singleton in Hcur.
    apply Forall_app in Hd as [Hd Hdcur]. rewrite Forall_singleton in Hdcur.
    pose proof (open_node_has_null _ Hc Hgoal) as Hopen.
    destruct (Hdeep current (note_expanded m)) as (Hch & Hle & Hge & Hne).
    specialize (Htracks current (note_expanded m) Hcur).
    destruct (expand current (note_expanded m)) as [children m2].
    cbn [fst snd note_expanded maxDepth] in *. destruct Hcur as (_ & Hdepth & _).
    split_and!.
    + apply Forall_app. done.
    + apply Forall_app. split.
      * eapply Forall_impl; [done|]. cbn. intros; lia.
      * destruct children as [|child children]; [constructor|].
        specialize (Hne ltac:(done)).
        eapply Forall_impl; [done|]. cbn. intros; lia.
    + lia.
Qed.

Lemma depth_inv_root (grid : Grid) pos :
  is_null grid (row pos) (col pos) = true →
  depth_inv grid [mkNode (initiate grid) None pos] reset.
Proof.
  intros Hnull. split_and!.
  - by apply Forall_singleton, tracks_root.
  - apply Forall_singleton. cbn. lia.
  - cbn. lia.
Qed.

(** ** The three procedures at once *)

(** A procedure either returns the root at once, on a grid without an empty
    cell, or runs the loop from a root placed on an empty cell. *)
Lemma procedure_cases solve (grid : Grid) :
  solve ∈ procedures → grid9 grid →
  (count_nulls grid = 0
   ∧ ∀ fuel, solve fuel grid = (Found (mkNode (initiate grid) None (mkPos 0 0)), reset))
  ∨ ∃ expand pos,
      expand ∈ expansions ∧ is_null grid (row pos) (col pos) = true
      ∧ ∀ fuel, solve fuel grid
                = search expand fuel [mkNode (initiate grid) None pos] reset.
Proof.
  intros Hsolve Hg. unfold procedures in Hsolve.
  repeat (apply elem_of_cons in Hsolve as [->|Hsolve]); [| | |by apply elem_of_nil in Hsolve].
  - unfold backtack. destruct (getNextPosition grid None) as [pos|] eqn:Hnext.
    + right. exists getChildren, pos. split_and!; [apply elem_of_cons; by left| |done].
      by apply getNextPosition_Some in Hnext as (? & _).
    + left. split; [by apply getNextPosition_None_full|done].
  - unfold backtack_forward. destruct (getNextPosition grid None) as [pos|] eqn:Hnext.
    + right. exists getChildren_forwarding, pos.
      split_and!; [apply elem_of_cons; right; apply elem_of_cons; by left| |done].
      by apply getNextPosition_Some in Hnext as (? & _).
    + left. split; [by apply getNextPosition_None_full|done].
  - unfold backtrack_MRV_LCV.
    destruct (getMRVPosition (initiate grid)) as [pos|] eqn:Hnext.
    + right. exists getChildren_MRV_LCV, pos.
      split_and!; [do 2 (apply elem_of_cons; right); apply elem_of_cons; by left| |done].
      apply getMRVPosition_Some in Hnext as (_ & [Hnull _] & _).
      by rewrite initiate_state in Hnull.
    + left. split; [by apply getMRVPosition_None_full|done].
Qed.

Lemma expansion_tracks grid expand n m :
  expand ∈ expansions → tracks grid n → Forall (tracks grid) (expand n m).1.
Proof.
  intros H. each_expansion H.
  - apply getChildren_tracks.
  - apply getChildren_forwarding_tracks.
  - apply getChildren_MRV_LCV_tracks.
Qed.

Lemma expansion_counts expand : expand ∈ expansions → counts_children expand.
Proof.
  intros H. each_expansion H.
  - apply getChildren_counts.
  - apply getChildren_forwarding_counts.
  - apply getChildren_MRV_LCV_counts.
Qed.

Lemma expansion_deepens expand : expand ∈ expansions → deepens expand.
Proof.
  intros H. each_expansion H.
  - apply getChildren_deepens.
  - apply getChildren_forwarding_deepens.
  - apply getChildren_MRV_LCV_deepens.
Qed.

Lemma expansion_ok expand n m :
  expand ∈ expansions → node_ok n → Forall node_ok (expand n m).1.
Proof.
  intros H. each_expansion H.
  - apply getChildren_ok.
  - apply getChildren_forwarding_ok.
  - apply getChildren_MRV_LCV_ok.
Qed.

(** What a procedure has recorded when it returns a node. *)
Lemma procedure_found solve (grid : Grid) fuel node metrics :
  solve ∈ procedures → grid9 grid →
  solve fuel grid = (Found node, metrics) →
  extends grid (state (problem node))
  ∧ no_empty_cell (state (problem node))
  ∧ getDepth node = count_nulls grid
  ∧ maxDepth metrics = count_nulls grid.
Proof.
  intros Hsolve Hg Hfound.
  destruct (procedure_cases solve grid Hsolve Hg)
    as [[Hfull Hrun]|(expand & pos & Hexpand & Hnull & Hrun)];
    rewrite Hrun in Hfound.
  - injection Hfound as <- <-. cbn [problem getDepth]. rewrite initiate_state.
    split_and!; [apply extends_refl|by apply count_nulls_zero|done|cbn; lia].
  - destruct (search_depth grid expand fuel _ _ _ _
                (λ n m, expansion_tracks grid expand n m Hexpand)
                (expansion_deepens expand Hexpand)
                (depth_inv_root grid pos Hnull) Hfound) as [_ Hnode].
    destruct (Hnode node eq_refl) as ((Hext & Hdepth & _) & Hgoal & Hmax).
    apply isgoal_true in Hgoal as [Hfull _]. split_and!; [done..| |done].
    apply count_nulls_zero in Hfull. lia.
Qed.

Lemma procedure_maxDepth solve (grid : Grid) fuel :
  solve ∈ procedures → grid9 grid →
  maxDepth (solve fuel grid).2 ≤ count_nulls grid.
Proof.
  intros Hsolve Hg.
  destruct (procedure_cases solve grid Hsolve Hg)
    as [[Hfull Hrun]|(expand & pos & Hexpand & Hnull & Hrun)]; rewrite Hrun.
  - cbn. lia.
  - destruct (search expand fuel _ reset) as [outcome metrics] eqn:Hsearch.
    by destruct (search_depth grid expand fuel _ _ _ _
                   (λ n m, expansion_tracks grid expand n m Hexpand)
                   (expansion_deepens expand Hexpand)
                   (depth_inv_root grid pos Hnull) Hsearch) as [Hmax _].
Qed.

(** X1: a node returned by a backtracking procedure keeps every given of
    the input grid, and it lies as deep in the tree as the input has empty
    cells: each level has filled one of them. *)
Theorem found_keeps_givens solve (grid : Grid) fuel node metrics :
  solve ∈ procedures → grid9 grid →
  solve fuel grid = (Found node, metrics) →
  extends grid (state (problem node)) ∧ getDepth node = count_nulls grid.
Proof.
  intros Hsolve Hg Hfound.
  by destruct (procedure_found solve grid fuel node metrics Hsolve Hg Hfound)
    as (Hext & _ & Hdepth & _).
Qed.

Lemma found_keeps_givens_witness :
  match backtack 100 sample_puzzle with
  | (Found node, _) =>
      extends sample_puzzle (state (problem node))
      ∧ getDepth node = count_nulls sample_puzzle
  | _ => False
  end.
Proof.
  destruct (backtack 100 sample_puzzle) as [outcome metrics] eqn:Hrun.
  assert (∃ node, outcome = Found node) as [node ->].
  { assert (outcome = (backtack 100 sample_puzzle).1) as -> by by rewrite Hrun.
    vm_compute. eauto. }
  apply (found_keeps_givens backtack sample_puzzle 100 node metrics);
    [apply elem_of_cons; by left|apply grid9_sample_puzzle|done].
Defined.

(** X2: the depth counter of a backtracking procedure never exceeds the
    number of empty cells of the input, and equals it when the procedure
    succeeds. *)
Theorem maxDepth_counts_empty_cells solve (grid : Grid) fuel :
  solve ∈ procedures → grid9 grid →
  maxDepth (solve fuel grid).2 ≤ count_nulls grid
  ∧ (∀ node, (solve fuel grid).1 = Found node →
       maxDepth (solve fuel grid).2 = count_nulls grid).
Proof.
  intros Hsolve Hg. split; [by apply procedure_maxDepth|].
  intros node Hfound. destruct (solve fuel grid) as [outcome metrics] eqn:Hrun.
  cbn [fst snd] in *. subst outcome.
  by destruct (procedure_found solve grid fuel node metrics Hsolve Hg Hrun)
    as (_ & _ & _ & Hmax).
Qed.

Lemma maxDepth_counts_empty_cells_witness :
  maxDepth (backtack 100 sample_puzzle).2 ≤ count_nulls sample_puzzle
  ∧ (∀ node, (backtack 100 sample_puzzle).1 = Found node →
       maxDepth (backtack 100 sample_puzzle).2 = count_nulls sample_puzzle).
Proof.
  apply (maxDepth_counts_empty_cells backtack sample_puzzle 100);
    [apply elem_of_cons; by left|apply grid9_sample_puzzle].
Defined.

(** X3: the counters of a backtracking procedure.  No iteration of the
    annealing loop is counted; at most one node is expanded per iteration
    of the loop; every expanded node is the root or a generated child, and
    when the procedure fails every generated child has been expanded. *)
Theorem nodes_and_children solve (grid : Grid) fuel :
  solve ∈ procedures → grid9 grid →
  let r := solve fuel grid in
  iterations r.2 = 0
  ∧ nodesExpanded r.2 ≤ fuel
  ∧ nodesExpanded r.2 ≤ 1 + childrenGenerated r.2
  ∧ (r.1 = NoSolution → nodesExpanded r.2 = 1 + childrenGenerated r.2)
  ∧ (r.1 = OutOfFuel → nodesExpanded r.2 = fuel).
Proof.
  intros Hsolve Hg.
  destruct (procedure_cases solve grid Hsolve Hg)
    as [[Hfull Hrun]|(expand & pos & Hexpand & Hnull & Hrun)]; rewrite Hrun; cbn zeta.
  - cbn. split_and!; [done|lia|lia|done|done].
  - destruct (search expand fuel _ reset) as [outcome metrics] eqn:Hsearch.
    destruct (search_counters expand fuel _ _ _ _ (expansion_counts expand Hexpand) Hsearch)
      as (Hit & Hle & Hout & rest & Hsum & Hnone).
    cbn in *. split_and!; [done|lia|lia| |done].
    intros Hfail. rewrite (Hnone Hfail) in Hsum. cbn in Hsum. lia.
Qed.

Lemma nodes_and_children_witness :
  let r := backtack 100 sample_puzzle in
  iterations r.2 = 0
  ∧ nodesExpanded r.2 ≤ 100
  ∧ nodesExpanded r.2 ≤ 1 + childrenGenerated r.2
  ∧ (r.1 = NoSolution → nodesExpanded r.2 = 1 + childrenGenerated r.2)
  ∧ (r.1 = OutOfFuel → nodesExpanded r.2 = 100).
Proof.
  apply (nodes_and_children backtack sample_puzzle 100);
    [apply elem_of_cons; by left|apply grid9_sample_puzzle].
Defined.

(** ** The depth-first loop comes to an end *)

Lemma settles_nil expand : settles expand [].
Proof. intros fringe m. exists 0, m. left. intros fuel. by rewrite app_nil_r. Qed.

Lemma settles_snoc expand l n :
  settles expand l → settles expand [n] → settles expand (l ++ [n]).
Proof.
  intros Hl Hn fringe m.
  destruct (Hn (fringe ++ l) m) as (used1 & m1 & [Hgo|[node Hfound]]).
  - destruct (Hl fringe m1) as (used2 & m2 & [Hgo2|[node Hfound]]).
    + exists (used1 + used2), m2. left. intros fuel.
      by rewrite (assoc_L (++)), <-(assoc_L Nat.add), Hgo, Hgo2.
    + exists (used1 + used2), m2. right. exists node. intros fuel.
      by rewrite (assoc_L (++)), <-(assoc_L Nat.add), Hgo, Hfound.
  - exists used1, m1. right. exists node. intros fuel.
    by rewrite (assoc_L (++)), Hfound.
Qed.

Lemma settles_each expand l :
  Forall (λ n, settles expand [n]) l → settles expand l.
Proof.
  induction l as [|n l IH] using rev_ind; intros Hall; [apply settles_nil|].
  apply Forall_app in Hall as [Hl Hn]. rewrite Forall_singleton in Hn.
  by apply settles_snoc; [apply IH|].
Qed.

(** A node that belongs to a search is disposed of: its children have one
    empty cell less. *)
Lemma settles_node grid expand n :
  expand ∈ expansions → tracks grid n → settles expand [n].
Proof.
  intros Hexpand.
  remember (count_nulls (state (problem n))) as k eqn:Hk. revert n Hk.
  induction k as [k IH] using lt_wf_ind. intros n -> Htracks fringe m.
  destruct (consistent (problem n)) eqn:Hc.
  - destruct (isgoal (problem n)) eqn:Hgoal.
    + exists 1, (note_expanded m). right. exists n. intros fuel.
      cbn [Nat.add search]. by rewrite pop_snoc, Hc, Hgoal.
    + pose proof (expansion_tracks grid expand n (note_expanded m) Hexpand Htracks)
        as Hchildren.
      destruct (expansion_deepens expand Hexpand n (note_expanded m)) as (Hdeep & _).
      destruct (expand n (note_expanded m)) as [children m2] eqn:Hrun.
      cbn [fst] in *.
      assert (settles expand children) as Hsettle.
      { apply settles_each, Forall_forall. intros c Hc'.
        rewrite Forall_forall in Hchildren, Hdeep.
        specialize (Hchildren c Hc'). specialize (Hdeep c Hc').
        eapply IH; [|done|done].
        destruct Htracks as (_ & Hn & _), Hchildren as (_ & Hc'' & _). lia. }
      destruct (Hsettle fringe m2) as (used & m' & [Hgo|[node Hfound]]).
      * exists (S used), m'. left. intros fuel.
        cbn [Nat.add search]. by rewrite pop_snoc, Hc, Hgoal, Hrun.
      * exists (S used), m'. right. exists node. intros fuel.
        cbn [Nat.add search]. by rewrite pop_snoc, Hc, Hgoal, Hrun.
  - exists 1, (note_expanded m). left. intros fuel.
    cbn [Nat.add search]. by rewrite pop_snoc, Hc.
Qed.

Lemma search_empty expand fuel m : search expand fuel [] m = (NoSolution, m).
Proof. by destruct fuel. Qed.

(** The loop started on a root returns within a bounded number of
    iterations, and more iterations do not change what it returns. *)
Lemma search_returns (grid : Grid) expand pos :
  expand ∈ expansions → is_null grid (row pos) (col pos) = true →
  ∃ bound outcome metrics,
    outcome ≠ OutOfFuel
    ∧ ∀ fuel, bound ≤ fuel →
        search expand fuel [mkNode (initiate grid) None pos] reset = (outcome, metrics).
Proof.
  intros Hexpand Hnull.
  destruct (settles_node grid expand _ Hexpand (tracks_root grid pos Hnull) [] reset)
    as (used & m' & [Hgo|[node Hfound]]).
  - exists used, NoSolution, m'. split; [done|]. intros fuel Hle.
    replace fuel with (used + (fuel - used)) by lia.
    cbn [app] in Hgo. by rewrite Hgo, search_empty.
  - exists used, (Found node), m'. split; [done|]. intros fuel Hle.
    replace fuel with (used + (fuel - used)) by lia. apply Hfound.
Qed.

Lemma procedure_returns solve (grid : Grid) :
  solve ∈ procedures → grid9 grid →
  ∃ bound outcome metrics,
    outcome ≠ OutOfFuel
    ∧ ∀ fuel, bound ≤ fuel → solve fuel grid = (outcome, metrics).
Proof.
  intros Hsolve Hg.
  destruct (procedure_cases solve grid Hsolve Hg)
    as [[Hfull Hrun]|(expand & pos & Hexpand & Hnull & Hrun)].
  - exists 0, (Found (mkNode (initiate grid) None (mkPos 0 0))), reset.
    split; [done|]. intros fuel _. apply Hrun.
  - destruct (search_returns grid expand pos Hexpand Hnull)
      as (bound & outcome & metrics & Hout & Hsearch).
    exists bound, outcome, metrics. split; [done|].
    intros fuel Hle. rewrite Hrun. by apply Hsearch.
Qed.

(** ** Solved grids *)

Lemma in_grid_at_pos {A} (m : list (list A)) p x :
  grid9 m → at_pos m p = Some x → in_grid p.
Proof.
  intros Hg Hp. destruct Hg as [Hlen Hrows]. unfold at_pos, cell_at in Hp.
  destruct (m !! row p) as [r|] eqn:Hr; [|done]. cbn in Hp.
  rewrite Forall_lookup in Hrows. specialize (Hrows _ _ Hr).
  apply lookup_lt_Some in Hr, Hp. unfold in_grid. lia.
Qed.

(** The values of a complete line are pairwise different digits. *)
Lemma complete_values (state : Grid) line p :
  complete state line → p ∈ line → ∃ v, at_pos state p = Some (Some v) ∧ digit v.
Proof.
  intros Hcomplete Hp.
  assert (at_pos state p ∈ at_pos state <$> line) as Hin by by apply list_elem_of_fmap_2.
  rewrite Hcomplete in Hin. apply list_elem_of_fmap in Hin as (v & -> & Hv).
  exists v. split; [done|]. by apply digit_full_domain.
Qed.

Lemma complete_inj (state : Grid) line p q :
  NoDup line → complete state line → p ∈ line → q ∈ line →
  at_pos state p = at_pos state q → p = q.
Proof.
  intros Hline Hcomplete Hp Hq Heq.
  assert (NoDup (at_pos state <$> line)) as Hnodup.
  { rewrite Hcomplete. apply NoDup_fmap; [intros ?? [=]; done|]. by_evaluation. }
  by apply (proj1 (NoDup_fmap_inj_on (at_pos state) line Hline) Hnodup p q).
Qed.

Lemma elem_of_row_cells p : in_grid p → p ∈ row_cells (row p).
Proof.
  intros [_ Hc]. unfold row_cells. apply list_elem_of_fmap. exists (col p).
  split; [by destruct p|]. apply elem_of_range. lia.
Qed.

Lemma elem_of_col_cells p : in_grid p → p ∈ col_cells (col p).
Proof.
  intros [Hr _]. unfold col_cells. apply list_elem_of_fmap. exists (row p).
  split; [by destruct p|]. apply elem_of_range. lia.
Qed.

Lemma solved_value (solution : Grid) p :
  solved solution → in_grid p → ∃ v, at_pos solution p = Some (Some v) ∧ digit v.
Proof.
  intros (_ & Hrows & _) Hp.
  apply (complete_values solution (row_cells (row p))); [|by apply elem_of_row_cells].
  apply Hrows, Hp.
Qed.

(** In a solved grid no two cells of a row, a column or a block hold the
    same value. *)
Lemma solved_no_conflict (solution : Grid) p q v :
  solved solution → in_grid p → in_grid q → p ≠ q → share_group p q →
  at_pos solution p = Some (Some v) → at_pos solution q ≠ Some (Some v).
Proof.
  intros (_ & Hrows & Hcols & Hblocks) Hp Hq Hne Hshare Hpv Hqv. apply Hne.
  assert (at_pos solution p = at_pos solution q) as Heq by congruence.
  destruct Hshare as [Hrow|[Hcol|[Hbr Hbc]]].
  - apply (complete_inj solution (row_cells (row p))); [| | | |done].
    + by apply group_line_row, Hp.
    + apply Hrows, Hp.
    + by apply elem_of_row_cells.
    + rewrite Hrow. by apply elem_of_row_cells.
  - apply (complete_inj solution (col_cells (col p))); [| | | |done].
    + by apply group_line_col, Hp.
    + apply Hcols, Hp.
    + by apply elem_of_col_cells.
    + rewrite Hcol. by apply elem_of_col_cells.
  - destruct Hp as [Hpr Hpc].
    assert (row p / 3 < 3 ∧ col p / 3 < 3) as [Hbr' Hbc'] by lia.
    apply (complete_inj solution (block_cells (row p / 3) (col p / 3))); [| | | |done].
    + by apply group_line_block.
    + by apply Hblocks.
    + by apply elem_of_block_cells.
    + apply elem_of_block_cells. unfold block_of. by rewrite Hbr, Hbc.
Qed.

(** A grid that a solved grid extends has no conflict. *)
Lemma extends_solved_no_conflict (state solution : Grid) :
  grid9 state → extends state solution → solved solution → no_conflict state.
Proof.
  intros Hg Hext Hsolved p q v Hne Hshare Hp Hq.
  apply (solved_no_conflict solution p q v); try done.
  - by eapply in_grid_at_pos.
  - by eapply in_grid_at_pos.
  - by apply Hext.
  - by apply Hext.
Qed.

(** ** A search cannot miss a solution *)

(** If the fringe holds a node with a property that consistent nodes pass
    on to one of their children, the loop does not run out of nodes. *)
Lemma search_complete (C : Node → Prop) expand fuel fringe metrics :
  (∀ n, C n → consistent (problem n) = true) →
  (∀ n m, C n → isgoal (problem n) = false → Exists C (expand n m).1) →
  Exists C fringe →
  (search expand fuel fringe metrics).1 ≠ NoSolution.
Proof.
  intros Hcons Hchild. revert fringe metrics.
  induction fuel as [|fuel IH]; intros fringe metrics Hex; cbn [search].
  - destruct (pop fringe) as [[current rest]|] eqn:Hpop; [done|].
    apply pop_None in Hpop as ->. by apply Exists_nil in Hex.
  - destruct (pop fringe) as [[current rest]|] eqn:Hpop.
    + apply pop_Some in Hpop as ->.
      apply Exists_app in Hex as [Hex|Hex%Exists_cons].
      * destruct (consistent (problem current)); [|by apply IH].
        destruct (isgoal (problem current)); [done|].
        destruct (expand current (note_expanded metrics)) as [children m].
        apply IH, Exists_app. by left.
      * destruct Hex as [Hcur|Hnil%Exists_nil]; [|done].
        rewrite (Hcons _ Hcur).
        destruct (isgoal (problem current)) eqn:Hgoal; [done|].
        specialize (Hchild current (note_expanded metrics) Hcur Hgoal).
        destruct (expand current (note_expanded metrics)) as [children m].
        apply IH, Exists_app. by right.
    + apply pop_None in Hpop as ->. by apply Exists_nil in Hex.
Qed.

Lemma leads_to_consistent solution n :
  solved solution → leads_to solution n → consistent (problem n) = true.
Proof.
  intros Hsolved ((Hg & _) & Hext & _).
  by apply consistent_no_conflict, (extends_solved_no_conflict _ solution).
Qed.

Lemma elem_of_strike w value cell : w ∈ strike value cell ↔ w ∈ cell ∧ w ≠ value.
Proof. rewrite strike_filter, list_elem_of_filter. tauto. Qed.

(** The child that assigns the value of the solution. *)
Lemma leads_to_candidate solution parent pos v next :
  solved solution → leads_to solution parent → in_grid pos →
  is_null (state (problem parent)) (row pos) (col pos) = true →
  at_pos solution pos = Some (Some v) →
  leads_to solution (mkNode (candidate parent pos v) (Some parent) next).
Proof.
  intros Hsolved (Hok & Hext & Hdom) Hpos Hnull Hv.
  pose proof (Hdom pos v Hnull Hv) as Hcand.
  split_and!.
  - by apply node_ok_candidate.
  - cbn [problem candidate state]. intros q w. rewrite at_pos_set_cell.
    destruct (decide (q = pos)) as [->|]; [|by apply Hext].
    apply is_null_true in Hnull. unfold at_pos at 1. rewrite Hnull. cbn. by intros [= <-].
  - cbn [problem candidate state domain]. intros q w Hq Hw.
    assert (q ≠ pos) as Hne.
    { intros ->. unfold is_null in Hq. rewrite cell_at_set_cell, decide_True in Hq by done.
      by destruct (cell_at _ _ _). }
    rewrite is_null_set_cell_ne in Hq by done.
    pose proof (Hdom q w Hq Hw) as Hwq.
    destruct Hok as (Hgs & Hgd & _).
    assert (in_grid q) as Hqg.
    { apply is_null_true in Hq. by eapply (in_grid_at_pos (state (problem parent))). }
    unfold domain_at in *.
    change (cell_at ?d (row q) (col q)) with (at_pos d q) in *.
    rewrite cell_at_updateDomain, decide_False by done.
    unfold struck_if. destruct (decide (share_group pos q)) as [Hshare|]; [|done].
    destruct (at_pos (domain (problem parent)) q) as [cell|]; [|done]. cbn in *.
    apply elem_of_strike. split; [done|]. intros ->.
    by apply (solved_no_conflict solution pos q v).
Qed.

(** No cell of such a child has lost its last candidate. *)
Lemma leads_to_no_dead_end solution n :
  solved solution → leads_to solution n →
  hasEmptyDomain (state (problem n)) (domain (problem n)) = false.
Proof.
  intros Hsolved ((Hg & _) & _ & Hdom).
  apply (hasEmptyDomain_false _ _ (fixed (problem n))).
  intros r c Hnull Hempty. cbn [state domain] in *.
  assert (in_grid (mkPos r c)) as Hin by by eapply (in_grid_at_pos (state (problem n))).
  destruct (solved_value solution (mkPos r c) Hsolved Hin) as (v & Hv & _).
  specialize (Hdom (mkPos r c) v). cbn [row col] in Hdom.
  rewrite is_null_true in Hdom. specialize (Hdom Hnull Hv).
  unfold domain_at in Hdom. rewrite Hempty in Hdom. by apply elem_of_nil in Hdom.
Qed.

Lemma no_empty_cell_intro (state : Grid) :
  (∀ r, at_pos state r ≠ Some None) → no_empty_cell state.
Proof.
  intros Hall. apply Forall_lookup. intros i r Hr. apply Forall_lookup. intros j c Hc.
  destruct c as [v|]; [done|]. destruct (Hall (mkPos i j)).
  unfold at_pos, cell_at. cbn [row col]. by rewrite Hr.
Qed.

(** A cell the scan has passed is not empty. *)
Lemma scanned_not_null (state : Grid) r :
  grid9 state →
  (row r < length state → col r < length state →
   is_null state (row r) (col r) = false) →
  at_pos state r ≠ Some None.
Proof.
  intros Hg Hscan Hnull. pose proof (in_grid_at_pos _ _ _ Hg Hnull) as [Hr Hc].
  destruct Hg as [Hlen _]. rewrite Hlen in Hscan.
  apply is_null_false in Hscan; done.
Qed.

(** The node a consistent node on the way to the solution is about to fill,
    and the value the solution has for it. *)
Lemma open_cell_value solution n :
  solved solution → leads_to solution n → at_first_empty n →
  isgoal (problem n) = false →
  is_null (state (problem n)) (row (lastAssigned n)) (col (lastAssigned n)) = true
  ∧ in_grid (lastAssigned n)
  ∧ ∃ v, at_pos solution (lastAssigned n) = Some (Some v)
         ∧ v ∈ domain_at (domain (problem n))
                         (row (lastAssigned n)) (col (lastAssigned n)).
Proof.
  intros Hsolved Hleads [_ Hfirst] Hgoal.
  pose proof (leads_to_consistent solution n Hsolved Hleads) as Hc.
  destruct Hfirst as [Hnull|Hfull].
  - assert (in_grid (lastAssigned n)) as Hin.
    { destruct Hleads as ((Hg & _) & _). apply is_null_true in Hnull.
      by eapply (in_grid_at_pos (state (problem n))). }
    split_and!; [done..|].
    destruct (solved_value solution _ Hsolved Hin) as (v & Hv & _).
    exists v. split; [done|]. destruct Hleads as (_ & _ & Hdom). by apply Hdom.
  - assert (isgoal (problem n) = true) by by apply isgoal_true. congruence.
Qed.

Lemma child_of_leads solution parent v :
  solved solution → leads_to solution parent → at_first_empty parent →
  isgoal (problem parent) = false →
  at_pos solution (lastAssigned parent) = Some (Some v) →
  let child :=
    child_of parent
      (getNextPosition (state (problem parent)) (Some (lastAssigned parent)))
      (set_cell (row (lastAssigned parent)) (col (lastAssigned parent)) (Some v)
                (state (problem parent)))
      (updateDomain (domain (problem parent)) (lastAssigned parent) v) in
  leads_to solution child ∧ at_first_empty child.
Proof.
  intros Hsolved Hleads Hfirst Hgoal Hv.
  destruct (open_cell_value solution parent Hsolved Hleads Hfirst Hgoal)
    as (Hnull & Hin & _).
  pose proof Hleads as ((Hg & _) & _).
  set (p := lastAssigned parent) in *. cbn zeta. split.
  { by apply (leads_to_candidate solution parent p v). }
  destruct Hfirst as [Hbefore _].
  assert (∀ r, r ≠ p →
            at_pos (set_cell (row p) (col p) (Some v) (state (problem parent))) r
            = at_pos (state (problem parent)) r) as Hframe.
  { intros r Hr. by rewrite at_pos_set_cell, decide_False. }
  assert (at_pos (set_cell (row p) (col p) (Some v) (state (problem parent))) p
          ≠ Some None) as Hfilled.
  { rewrite at_pos_set_cell, decide_True by done.
    by destruct (at_pos (state (problem parent)) p). }
  unfold at_first_empty, child_of. cbn [problem state lastAssigned].
  destruct (getNextPosition _ _) as [next|] eqn:Hnext.
  - apply getNextPosition_Some in Hnext as (Hopen & Hafter & _ & _ & Hskip).
    cbn [after] in *. split.
    + intros r Hr. destruct (decide (r = p)) as [->|Hne]; [done|].
      rewrite Hframe by done.
      destruct (pos_lt_trichotomy r p) as [Hlt|[->|Hgt]]; [by apply Hbefore|done|].
      apply scanned_not_null; [done|]. intros. by apply Hskip.
    + left. rewrite is_null_set_cell_ne; [done|]. by apply pos_lt_ne.
  - split.
    + intros r Hr. rewrite Hframe by by apply not_eq_sym, pos_lt_ne.
      by apply Hbefore.
    + right. apply no_empty_cell_intro. intros r.
      destruct (decide (r = p)) as [->|Hne]; [done|]. rewrite Hframe by done.
      destruct (pos_lt_trichotomy r p) as [Hlt|[->|Hgt]]; [by apply Hbefore|done|].
      apply scanned_not_null; [done|]. intros.
      by apply (proj1 (getNextPosition_None _ _) Hnext).
Qed.

Lemma getChildren_leads solution parent metrics :
  solved solution → leads_to solution parent ∧ at_first_empty parent →
  isgoal (problem parent) = false →
  Exists (λ n, leads_to solution n ∧ at_first_empty n) (getChildren parent metrics).1.
Proof.
  intros Hsolved [Hleads Hfirst] Hgoal.
  destruct (open_cell_value solution parent Hsolved Hleads Hfirst Hgoal)
    as (_ & _ & v & Hv & Hcand).
  pose proof (child_of_leads solution parent v Hsolved Hleads Hfirst Hgoal Hv) as Hchild.
  apply Exists_exists. eexists. split; [|exact Hchild].
  unfold getChildren. destruct (lastAssigned parent) as [r c]. cbn [fst row col] in *.
  apply list_elem_of_fmap. by exists v.
Qed.

Lemma getChildren_forwarding_leads solution parent metrics :
  solved solution → leads_to solution parent ∧ at_first_empty parent →
  isgoal (problem parent) = false →
  Exists (λ n, leads_to solution n ∧ at_first_empty n)
         (getChildren_forwarding parent metrics).1.
Proof.
  intros Hsolved [Hleads Hfirst] Hgoal.
  destruct (open_cell_value solution parent Hsolved Hleads Hfirst Hgoal)
    as (_ & _ & v & Hv & Hcand).
  pose proof (child_of_leads solution parent v Hsolved Hleads Hfirst Hgoal Hv) as Hchild.
  pose proof (leads_to_no_dead_end solution _ Hsolved (proj1 Hchild)) as Hlive.
  apply Exists_exists. eexists. split; [|exact Hchild].
  unfold getChildren_forwarding.
  destruct (lastAssigned parent) as [r c]. cbn [fst row col] in *.
  apply list_elem_of_omap. exists v. split; [done|].
  unfold child_of in Hlive. cbn [problem state domain] in Hlive. by rewrite Hlive.
Qed.

Lemma getChildren_MRV_LCV_leads solution parent metrics :
  solved solution → leads_to solution parent →
  isgoal (problem parent) = false →
  Exists (leads_to solution) (getChildren_MRV_LCV parent metrics).1.
Proof.
  intros Hsolved Hleads Hgoal.
  pose proof (leads_to_consistent solution parent Hsolved Hleads) as Hc.
  pose proof Hleads as ((Hg & _) & _ & Hdom).
  unfold getChildren_MRV_LCV.
  destruct (getMRVPosition (problem parent)) as [nextPosition|] eqn:Hmrv.
  - apply getMRVPosition_Some in Hmrv as (Hin & [Hnull _] & _).
    destruct (solved_value solution nextPosition Hsolved Hin) as (v & Hv & _).
    pose proof (leads_to_candidate solution parent nextPosition v
                  (default nextPosition
                     (getMRVPosition (candidate parent nextPosition v)))
                  Hsolved Hleads Hin Hnull Hv) as Hchild.
    pose proof (leads_to_no_dead_end solution _ Hsolved Hchild) as Hlive.
    cbn [fst]. apply Exists_exists. eexists. split; [|exact Hchild].
    apply list_elem_of_omap. exists v. split.
    + rewrite getLCV_Permutation. by apply Hdom.
    + cbn [problem candidate state domain] in Hlive. by rewrite Hlive.
  - exfalso. pose proof (open_node_has_null _ Hc Hgoal) as Hopen.
    apply has_empty_cell_count in Hopen as (i & j & Hij).
    assert (in_grid (mkPos i j)) as Hin
      by by eapply (in_grid_at_pos (state (problem parent))).
    destruct (solved_value solution (mkPos i j) Hsolved Hin) as (v & Hv & _).
    apply (getMRVPosition_None _ Hmrv (mkPos i j) Hin). split.
    + by apply is_null_true.
    + unfold remaining. cbn [row col].
      assert (v ∈ domain_at (domain (problem parent)) i j) as Hcand.
      { apply (Hdom (mkPos i j) v); [by apply is_null_true|done]. }
      destruct (domain_at _ i j); [by apply elem_of_nil in Hcand|cbn; lia].
Qed.

(** The givens of a grid that has a solution are digits. *)
Lemma solvable_digits (grid solution : Grid) :
  grid9 grid → solved solution → extends grid solution → digits_grid grid.
Proof.
  intros Hg Hsolved Hext. apply Forall_lookup. intros i r Hr.
  apply Forall_lookup. intros j c Hc. destruct c as [v|]; [|done]. cbn.
  assert (at_pos grid (mkPos i j) = Some (Some v)) as Hv.
  { unfold at_pos, cell_at. cbn [row col]. by rewrite Hr. }
  pose proof (in_grid_at_pos _ _ _ Hg Hv) as Hin.
  destruct (solved_value solution _ Hsolved Hin) as (w & Hw & Hdigit).
  apply Hext in Hv. congruence.
Qed.

Lemma leads_to_root (grid solution : Grid) pos :
  grid9 grid → solved solution → extends grid solution →
  leads_to solution (mkNode (initiate grid) None pos).
Proof.
  intros Hg Hsolved Hext. split_and!.
  - apply node_ok_initiate; [done|]. by eapply solvable_digits.
  - cbn [problem]. by rewrite initiate_state.
  - cbn [problem]. rewrite initiate_state. intros q v Hq%is_null_true Hv.
    unfold domain_at. rewrite (initiate_domain_empty_cell grid _ _ Hq). cbn.
    apply digit_full_domain.
    assert (in_grid q) as Hin by by eapply (in_grid_at_pos grid).
    destruct (solved_value solution _ Hsolved Hin) as (w & Hw & Hdigit). congruence.
Qed.

Lemma at_first_empty_root (grid : Grid) pos :
  grid9 grid → getNextPosition grid None = Some pos →
  at_first_empty (mkNode (initiate grid) None pos).
Proof.
  intros Hg Hnext. apply getNextPosition_Some in Hnext as (Hopen & _ & _ & _ & Hskip).
  unfold at_first_empty. cbn [problem lastAssigned]. rewrite initiate_state.
  split; [|by left]. intros r Hr. apply scanned_not_null; [done|].
  intros. by apply Hskip.
Qed.

(** A procedure does not report failure on a grid that has a solution. *)
Lemma procedure_never_fails solve (grid : Grid) fuel :
  solve ∈ procedures → grid9 grid → solvable grid →
  (solve fuel grid).1 ≠ NoSolution.
Proof.
  intros Hsolve Hg (solution & Hsolved & Hext). unfold procedures in Hsolve.
  repeat (apply elem_of_cons in Hsolve as [->|Hsolve]); [| | |by apply elem_of_nil in Hsolve].
  - unfold backtack. destruct (getNextPosition grid None) as [pos|] eqn:Hnext; [|done].
    apply (search_complete (λ n, leads_to solution n ∧ at_first_empty n)).
    + intros n [Hn _]. by eapply leads_to_consistent.
    + intros n m. by apply getChildren_leads.
    + apply Exists_cons. left. split; [by apply leads_to_root|by apply at_first_empty_root].
  - unfold backtack_forward.
    destruct (getNextPosition grid None) as [pos|] eqn:Hnext; [|done].
    apply (search_complete (λ n, leads_to solution n ∧ at_first_empty n)).
    + intros n [Hn _]. by eapply leads_to_consistent.
    + intros n m. by apply getChildren_forwarding_leads.
    + apply Exists_cons. left. split; [by apply leads_to_root|by apply at_first_empty_root].
  - unfold backtrack_MRV_LCV.
    destruct (getMRVPosition (initiate grid)) as [pos|] eqn:Hnext; [|done].
    apply (search_complete (leads_to solution)).
    + intros n Hn. by eapply leads_to_consistent.
    + intros n m. by apply getChildren_MRV_LCV_leads.
    + apply Exists_cons. left. by apply leads_to_root.
Qed.

(** A grid without an empty cell that a solved grid extends is solved. *)
Lemma full_solvable_solved (grid solution : Grid) :
  grid9 grid → no_empty_cell grid → solved solution → extends grid solution →
  solved grid.
Proof.
  intros Hg Hfull Hsolved Hext.
  assert (∀ q, in_grid q → at_pos grid q = at_pos solution q) as Hagree.
  { intros q [Hr Hc]. destruct (grid9_cell_at grid (row q) (col q) Hg Hr Hc) as [c Hcell].
    unfold at_pos at 1. rewrite Hcell. destruct c as [v|].
    - symmetry. by apply Hext.
    - by destruct (no_empty_cell_at grid q Hfull). }
  destruct Hsolved as (_ & Hrows & Hcols & Hblocks). split_and!; [done|..].
  - intros i Hi. apply (complete_agree solution); [|by apply Hrows].
    intros q Hq. apply Hagree.
    destruct (group_line_row i Hi) as (_ & _ & Hin & _).
    rewrite Forall_forall in Hin. by apply Hin.
  - intros j Hj. apply (complete_agree solution); [|by apply Hcols].
    intros q Hq. apply Hagree.
    destruct (group_line_col j Hj) as (_ & _ & Hin & _).
    rewrite Forall_forall in Hin. by apply Hin.
  - intros br bc Hbr Hbc. apply (complete_agree solution); [|by apply Hblocks].
    intros q Hq. apply Hagree.
    destruct (group_line_block br bc Hbr Hbc) as (_ & _ & Hin & _).
    rewrite Forall_forall in Hin. by apply Hin.
Qed.

(** The node a procedure returns on a grid that has a solution carries a
    solved grid. *)
Lemma solvable_found_solved solve (grid : Grid) fuel node metrics :
  solve ∈ procedures → grid9 grid → solvable grid →
  solve fuel grid = (Found node, metrics) →
  solved (state (problem node)).
Proof.
  intros Hsolve Hg (solution & Hsolved & Hext) Hfound.
  pose proof (solvable_digits grid solution Hg Hsolved Hext) as Hdigits.
  destruct (procedure_cases solve grid Hsolve Hg)
    as [[Hfull Hrun]|(expand & pos & Hexpand & Hnull & Hrun)];
    rewrite Hrun in Hfound.
  - injection Hfound as <- _. cbn [problem]. rewrite initiate_state.
    apply (full_solvable_solved grid solution); [done| |done..].
    by apply count_nulls_zero.
  - assert (node_ok node ∧ isgoal (problem node) = true) as [Hok Hgoal].
    { eapply (search_found node_ok); [|by apply Forall_singleton, node_ok_initiate|done].
      intros n m. by apply expansion_ok. }
    destruct Hok as (Hs & _ & Hds & _).
    apply isgoal_true in Hgoal as [Hfull Hc].
    apply solved_intro; [done..|]. by apply consistent_no_conflict.
Qed.

Lemma extends_by_positions (grid result : Grid) :
  grid9 grid →
  Forall (λ p, at_pos grid p = at_pos result p ∨ at_pos grid p = Some None)
         all_positions →
  extends grid result.
Proof.
  intros Hg Hall p v Hp. rewrite Forall_forall in Hall.
  destruct (Hall p) as [<-|Hnull]; [|done|congruence].
  apply elem_of_all_positions. by eapply in_grid_at_pos.
Qed.

Lemma solved_sample_solution : solved sample_solution.
Proof.
  apply solved_intro; [by_evaluation|repeat constructor; by_evaluation|by_evaluation|].
  apply (consistent_no_conflict (mkProblem sample_solution [] [])). by vm_compute.
Qed.

Lemma solvable_sample_puzzle : solvable sample_puzzle.
Proof.
  exists sample_solution. split; [apply solved_sample_solution|].
  apply extends_by_positions; by_evaluation.
Qed.

(** X4: every backtracking procedure returns.  On a 9x9 grid its loop ends
    after a bounded number of iterations, with a node or with the failure
    value, and what it returns does not depend on the bound once the bound
    is large enough. *)
Theorem backtracking_terminates solve (grid : Grid) :
  solve ∈ procedures → grid9 grid →
  ∃ bound outcome metrics,
    outcome ≠ OutOfFuel
    ∧ ∀ fuel, bound ≤ fuel → solve fuel grid = (outcome, metrics).
Proof. apply procedure_returns. Qed.

Lemma backtracking_terminates_witness :
  ∃ bound outcome metrics,
    outcome ≠ OutOfFuel
    ∧ ∀ fuel, bound ≤ fuel → backtack fuel empty_grid = (outcome, metrics).
Proof.
  apply (backtracking_terminates backtack empty_grid);
    [apply elem_of_cons; by left|by_evaluation].
Defined.

(** X5: a backtracking procedure reports failure only on a puzzle that has no
    solution: no solved grid keeps the givens of the input. *)
Theorem failure_means_unsolvable solve (grid : Grid) fuel :
  solve ∈ procedures → grid9 grid →
  (solve fuel grid).1 = NoSolution → ¬ solvable grid.
Proof.
  intros Hsolve Hg Hfail Hsolvable.
  by apply (procedure_never_fails solve grid fuel Hsolve Hg Hsolvable).
Qed.

Lemma failure_means_unsolvable_witness : ¬ solvable sample_clash.
Proof.
  apply (failure_means_unsolvable backtack sample_clash 5);
    [apply elem_of_cons; by left|by_evaluation|by vm_compute].
Defined.

(** X6: a backtracking procedure solves every puzzle that has a solution:
    after a bounded number of iterations it returns a node whose grid is
    solved and keeps the givens of the input. *)
Theorem solvable_puzzle_is_solved solve (grid : Grid) :
  solve ∈ procedures → grid9 grid → solvable grid →
  ∃ bound node metrics,
    (∀ fuel, bound ≤ fuel → solve fuel grid = (Found node, metrics))
    ∧ solved (state (problem node))
    ∧ extends grid (state (problem node)).
Proof.
  intros Hsolve Hg Hsolvable.
  destruct (procedure_returns solve grid Hsolve Hg)
    as (bound & outcome & metrics & Hout & Hrun).
  pose proof (procedure_never_fails solve grid bound Hsolve Hg Hsolvable) as Hfail.
  pose proof (Hrun bound (le_n _)) as Hbound. rewrite Hbound in Hfail. cbn in Hfail.
  destruct outcome as [node| |]; [|done..].
  exists bound, node, metrics. split_and!; [done|..].
  - by apply (solvable_found_solved solve grid bound node metrics).
  - by destruct (procedure_found solve grid bound node metrics Hsolve Hg Hbound).
Qed.

Lemma solvable_puzzle_is_solved_witness :
  ∃ bound node metrics,
    (∀ fuel, bound ≤ fuel → backtrack_MRV_LCV fuel sample_puzzle = (Found node, metrics))
    ∧ solved (state (problem node))
    ∧ extends sample_puzzle (state (problem node)).
Proof.
  apply (solvable_puzzle_is_solved backtrack_MRV_LCV sample_puzzle);
    [do 2 (apply elem_of_cons; right); apply elem_of_cons; by left
    |apply grid9_sample_puzzle|apply solvable_sample_puzzle].
Defined.

(** X7: on a 9x9 grid [getNextPosition] returns the first empty cell after
    the current position in row-major order (the first empty cell of the
    grid when there is no current position): the cell is empty, it comes
    after the current position, and no cell between them is empty.  It
    returns nothing exactly when no cell after the current position is
    empty. *)
Theorem getNextPosition_spec (state : Grid) (currentPosition : option Position) :
  grid9 state →
  match getNextPosition state currentPosition with
  | Some q =>
      at_pos state q = Some None ∧ after currentPosition q
      ∧ ∀ r, after currentPosition r → pos_lt r q → at_pos state r ≠ Some None
  | None => ∀ r, after currentPosition r → at_pos state r ≠ Some None
  end.
Proof.
  intros Hg. destruct (getNextPosition state currentPosition) as [q|] eqn:Hnext.
  - apply getNextPosition_Some in Hnext as (Hnull & Hafter & _ & _ & Hskip).
    split_and!; [by apply is_null_true|done|].
    intros r Hr Hlt. apply scanned_not_null; [done|]. intros. by apply Hskip.
  - intros r Hr. apply scanned_not_null; [done|]. intros.
    by apply (proj1 (getNextPosition_None _ _) Hnext).
Qed.

Lemma getNextPosition_spec_witness :
  match getNextPosition sample_puzzle (Some (mkPos 0 8)) with
  | Some q =>
      at_pos sample_puzzle q = Some None ∧ after (Some (mkPos 0 8)) q
      ∧ ∀ r, after (Some (mkPos 0 8)) r → pos_lt r q →
             at_pos sample_puzzle r ≠ Some None
  | None => ∀ r, after (Some (mkPos 0 8)) r → at_pos sample_puzzle r ≠ Some None
  end.
Proof.
  apply (getNextPosition_spec sample_puzzle (Some (mkPos 0 8))), grid9_sample_puzzle.
Defined.

(** X8: [getMRVPosition] returns an empty cell of the grid that has a
    candidate left, with the fewest candidates among such cells, and the
    first of them in row-major order when several have as few.  It returns
    nothing exactly when no empty cell has a candidate left. *)
Theorem getMRVPosition_spec (problem : SudokuProblem) :
  grid9 (state problem) → grid9 (domain problem) →
  match getMRVPosition problem with
  | Some p =>
      in_grid p ∧ eligible problem p
      ∧ ∀ q, in_grid q → eligible problem q →
             remaining problem p ≤ remaining problem q
             ∧ (pos_lt q p → remaining problem p < remaining problem q)
  | None => ∀ q, in_grid q → ¬ eligible problem q
  end.
Proof.
  intros _ _. destruct (getMRVPosition problem) as [p|] eqn:Hmrv.
  - by apply getMRVPosition_Some.
  - by apply getMRVPosition_None.
Qed.

Lemma getMRVPosition_spec_witness :
  match getMRVPosition sample_open_row with
  | Some p =>
      in_grid p ∧ eligible sample_open_row p
      ∧ ∀ q, in_grid q → eligible sample_open_row q →
             remaining sample_open_row p ≤ remaining sample_open_row q
             ∧ (pos_lt q p → remaining sample_open_row p < remaining sample_open_row q)
  | None => ∀ q, in_grid q → ¬ eligible sample_open_row q
  end.
Proof. apply (getMRVPosition_spec sample_open_row); by_evaluation. Defined.

(** X9: on a 9x9 grid of digits [isgoal] holds exactly of the solved grids:
    no cell is empty and every row, column and block holds each digit
    once. *)
Theorem isgoal_iff_solved (problem : SudokuProblem) :
  grid9 (state problem) → digits_grid (state problem) →
  isgoal problem = true ↔ solved (state problem).
Proof.
  intros Hg Hdigits. rewrite isgoal_true, consistent_no_conflict. split.
  - intros [Hfull Hclean]. by apply solved_intro.
  - intros Hsolved. split; [by destruct Hsolved|].
    apply (extends_solved_no_conflict _ (state problem)); [done| |done].
    apply extends_refl.
Qed.

Lemma isgoal_iff_solved_witness :
  isgoal (initiate sample_solution) = true ↔ solved (state (initiate sample_solution)).
Proof.
  apply (isgoal_iff_solved (initiate sample_solution));
    [by_evaluation|repeat constructor; by_evaluation].
Defined.

(** ** The tally and the order of [getLCV] *)

Lemma tally_cons {A} (f : A → bool) x l :
  tally f (x :: l) = (if f x then 1 else 0) + tally f l.
Proof.
  unfold tally. rewrite filter_cons.
  destruct (decide (f x = true)) as [Hfx|Hfx]; destruct (f x); done.
Qed.

Lemma tally_app {A} (f : A → bool) l1 l2 : tally f (l1 ++ l2) = tally f l1 + tally f l2.
Proof. unfold tally. by rewrite filter_app, length_app. Qed.

Lemma tally_fmap {A B} (g : A → B) (f : B → bool) l :
  tally f (g <$> l) = tally (λ x, f (g x)) l.
Proof.
  induction l as [|x l IH]; [done|]. cbn [fmap list_fmap].
  change (list_fmap A B g l) with (g <$> l). by rewrite !tally_cons, IH.
Qed.

Lemma foldl_count {A} (f : A → bool) c l :
  foldl (λ c x, if f x then c + 1 else c) c l = c + tally f l.
Proof.
  revert c. induction l as [|x l IH]; intros c; cbn [foldl]; [cbn; lia|].
  rewrite IH, tally_cons. destruct (f x); lia.
Qed.

Lemma foldl_count_both {A} (f g : A → bool) c l :
  foldl (λ c x, let c := if f x then c + 1 else c in if g x then c + 1 else c) c l
  = c + tally f l + tally g l.
Proof.
  revert c. induction l as [|x l IH]; intros c; cbn [foldl]; [cbn; lia|].
  rewrite IH, !tally_cons. destruct (f x), (g x); lia.
Qed.

Lemma range_shift a n : range a (a + n) = (λ i, a + i) <$> range 0 n.
Proof.
  unfold range. replace (a + n - a) with n by lia. rewrite Nat.sub_0_r.
  by rewrite fmap_add_seq, Nat.add_0_r.
Qed.

Lemma block_count (f : nat → nat → bool) k r c :
  foldl (λ count i,
    foldl (λ count j, if f i j then count + 1 else count) count
          (range (c / 3 * 3) (c / 3 * 3 + 3)))
    k (range (r / 3 * 3) (r / 3 * 3 + 3))
  = k + tally (λ q, f (row q) (col q)) (block_cells (r / 3) (c / 3)).
Proof.
  rewrite <-(foldl_count (λ q, f (row q) (col q))). unfold block_cells.
  rewrite foldl_bind, (range_shift (r / 3 * 3) 3), foldl_fmap.
  apply foldl_ext_eq. intros count i.
  rewrite foldl_bind, (range_shift (c / 3 * 3) 3), foldl_fmap.
  apply foldl_ext_eq. intros count' j. done.
Qed.

Lemma lcv_count_cells problem pos value :
  lcv_count problem pos value
  = tally (λ q, open_with problem value (row q) (col q)) (lcv_cells pos).
Proof.
  destruct pos as [r c]. unfold lcv_count, lcv_cells. cbn [row col].
  rewrite (foldl_count_both (λ i, open_with problem value r i)
                            (λ i, open_with problem value i c)).
  rewrite (block_count (open_with problem value)).
  rewrite !tally_app. unfold row_cells, col_cells. rewrite !tally_fmap. cbn [row col].
  lia.
Qed.

Lemma tally_elem_of {A} (f : A → bool) x l : x ∈ l → f x = true → 0 < tally f l.
Proof.
  intros Hx Hfx. induction l as [|y l IH]; [by apply elem_of_nil in Hx|].
  rewrite tally_cons. apply elem_of_cons in Hx as [<-|Hx].
  - rewrite Hfx. lia.
  - specialize (IH Hx). lia.
Qed.

Lemma insert_by_count_sorted x sorted :
  StronglySorted by_count sorted → StronglySorted by_count (insert_by_count x sorted).
Proof.
  induction sorted as [|y rest IH]; intros Hsorted; cbn [insert_by_count].
  - by repeat constructor.
  - apply StronglySorted_cons in Hsorted as [Hy Hrest].
    destruct (Nat.leb_spec x.2 y.2) as [Hle|Hgt].
    + apply StronglySorted_cons. split; [|by apply StronglySorted_cons].
      constructor; [done|]. eapply Forall_impl; [done|]. unfold by_count. cbn. lia.
    + apply StronglySorted_cons. split; [|by apply IH].
      rewrite insert_by_count_Permutation. constructor; [|done].
      unfold by_count. lia.
Qed.

Lemma sort_by_count_sorted constraints :
  StronglySorted by_count (sort_by_count constraints).
Proof.
  induction constraints as [|x l IH]; cbn; [constructor|].
  by apply insert_by_count_sorted.
Qed.

(** The sort is stable: among the pairs with one tally the order is kept. *)
Lemma insert_by_count_stable k x sorted :
  filter (λ y : Z * nat, y.2 = k) (insert_by_count x sorted)
  = filter (λ y : Z * nat, y.2 = k) (x :: sorted).
Proof.
  induction sorted as [|y rest IH]; cbn [insert_by_count]; [done|].
  destruct (Nat.leb_spec x.2 y.2) as [Hle|Hgt]; [done|].
  rewrite filter_cons, IH, !filter_cons.
  destruct (decide (y.2 = k)), (decide (x.2 = k)); done || lia.
Qed.

Lemma sort_by_count_stable k constraints :
  filter (λ y : Z * nat, y.2 = k) (sort_by_count constraints)
  = filter (λ y : Z * nat, y.2 = k) constraints.
Proof.
  induction constraints as [|x l IH]; [done|]. cbn [sort_by_count foldr].
  fold (sort_by_count l). by rewrite insert_by_count_stable, !filter_cons, IH.
Qed.

Lemma filter_fst_keyed (count : Z → nat) k (l : list (Z * nat)) :
  Forall (λ y, y.2 = count y.1) l →
  filter (λ v, count v = k) (l.*1) = (filter (λ y : Z * nat, y.2 = k) l).*1.
Proof.
  induction 1 as [|y l Hy Hl IH]; [done|]. cbn [fmap list_fmap].
  change (list_fmap _ _ fst l) with (l.*1).
  rewrite !filter_cons, IH, <-Hy. by destruct (decide (y.2 = k)).
Qed.

Lemma keyed_pairs (count : Z → nat) (values : list Z) :
  Forall (λ y : Z * nat, y.2 = count y.1) ((λ v, (v, count v)) <$> values).
Proof. apply Forall_fmap, Forall_forall. by intros v _. Qed.

Lemma getLCV_sorted problem pos :
  StronglySorted (λ a b, lcv_count problem pos a ≤ lcv_count problem pos b)
                 (getLCV problem pos).
Proof.
  unfold getLCV. set (count := lcv_count problem pos).
  set (constraints := map (λ value, (value, count value)) _).
  assert (Forall (λ y : Z * nat, y.2 = count y.1) (sort_by_count constraints)) as Hkeyed.
  { rewrite sort_by_count_Permutation. apply keyed_pairs. }
  pose proof (sort_by_count_sorted constraints) as Hsorted.
  induction Hsorted as [|y l Hl IH Hy]; [constructor|].
  apply Forall_cons in Hkeyed as [Hkey Hkeyed]. cbn [map].
  constructor; [by apply IH|].
  apply Forall_fmap. rewrite Forall_forall in Hy, Hkeyed.
  apply Forall_forall. intros z Hz. cbn.
  specialize (Hy z Hz). unfold by_count in Hy. rewrite <-Hkey, <-(Hkeyed z Hz). done.
Qed.

Lemma getLCV_stable problem pos k :
  filter (λ v, lcv_count problem pos v = k) (getLCV problem pos)
  = filter (λ v, lcv_count problem pos v = k)
           (domain_at (domain problem) (row pos) (col pos)).
Proof.
  unfold getLCV. set (count := lcv_count problem pos).
  set (values := domain_at _ _ _).
  change (map fst ?l) with (l.*1).
  rewrite (filter_fst_keyed count).
  - rewrite sort_by_count_stable.
    rewrite <-(filter_fst_keyed count) by apply keyed_pairs.
    f_equal. rewrite <-list_fmap_compose. apply list_fmap_id.
  - rewrite sort_by_count_Permutation. apply keyed_pairs.
Qed.

(** ** Propagation steps compose *)

(** Two 9x9 matrices with the same entries are equal. *)
Lemma grid9_ext {A} (m m' : list (list A)) :
  grid9 m → grid9 m' → (∀ p, in_grid p → at_pos m p = at_pos m' p) → m = m'.
Proof.
  intros [Hlen Hrows] [Hlen' Hrows'] Heq.
  apply (list_eq_same_length m m' 9 Hlen' Hlen).
  intros i r r' Hi Hr Hr'.
  rewrite Forall_lookup in Hrows, Hrows'.
  apply (list_eq_same_length r r' 9 (Hrows' _ _ Hr') (Hrows _ _ Hr)).
  intros j x x' Hj Hx Hx'.
  specialize (Heq (mkPos i j) (conj Hi Hj)). unfold at_pos, cell_at in Heq.
  cbn [row col] in Heq. rewrite Hr, Hr' in Heq. cbn in Heq. congruence.
Qed.

Lemma strike_comm v w cell : strike v (strike w cell) = strike w (strike v cell).
Proof.
  rewrite !strike_filter, !list_filter_filter. apply list_filter_iff. tauto.
Qed.

Lemma struck_if_comm (P Q : Prop) `{!Decision P, !Decision Q} v w c :
  struck_if P v (struck_if Q w c) = struck_if Q w (struck_if P v c).
Proof.
  unfold struck_if. destruct (decide P), (decide Q), c as [cell|]; cbn; try done.
  by rewrite strike_comm.
Qed.

Lemma struck_if_nil (P : Prop) `{!Decision P} v : struck_if P v (Some []) = Some [].
Proof. unfold struck_if. by destruct (decide P). Qed.

Lemma updateDomain_comm (domain : Domain) p q v w :
  grid9 domain → in_grid p → in_grid q →
  updateDomain (updateDomain domain p v) q w
  = updateDomain (updateDomain domain q w) p v.
Proof.
  intros Hg Hp Hq.
  apply grid9_ext; [by do 2 apply grid9_updateDomain..|].
  intros r Hr.
  rewrite !cell_at_updateDomain by (done || by apply grid9_updateDomain).
  destruct (decide (r = q)) as [Hrq|Hrq], (decide (r = p)) as [Hrp|Hrp];
    rewrite ?struck_if_nil; try done.
  apply struck_if_comm.
Qed.

Lemma updateDomain_idemp (domain : Domain) p v :
  grid9 domain → in_grid p →
  updateDomain (updateDomain domain p v) p v = updateDomain domain p v.
Proof.
  intros Hg Hp.
  apply grid9_ext; [by do 2 apply grid9_updateDomain|by apply grid9_updateDomain|].
  intros r Hr.
  rewrite !cell_at_updateDomain by (done || by apply grid9_updateDomain).
  destruct (decide (r = p)) as [->|Hrp]; [done|].
  rewrite struck_if_twice. apply struck_if_iff. tauto.
Qed.

Lemma strike_sublist v cell : strike v cell `sublist_of` cell.
Proof. rewrite strike_filter. apply sublist_filter. Qed.

Lemma updateDomain_sublist (domain : Domain) p v q cell' :
  grid9 domain → in_grid p → in_grid q →
  at_pos (updateDomain domain p v) q = Some cell' →
  ∃ cell, at_pos domain q = Some cell ∧ cell' `sublist_of` cell.
Proof.
  intros Hg Hp [Hqr Hqc]. rewrite cell_at_updateDomain by done.
  destruct (grid9_cell_at domain (row q) (col q) Hg Hqr Hqc) as [cell Hcell].
  assert (at_pos domain q = Some cell) as Hq by done. rewrite Hq.
  destruct (decide (q = p)).
  - intros [= <-]. exists cell. split; [done|]. apply sublist_nil_l.
  - unfold struck_if. destruct (decide (share_group p q)); cbn.
    + intros [= <-]. exists cell. split; [done|]. apply strike_sublist.
    + intros [= <-]. by exists cell.
Qed.

(** X10: [getLCV] returns the candidates of the cell, each as often as the
    domain holds it, in the order of their tallies, smallest first; the
    candidates with one tally keep the order they have in the domain. *)
Theorem getLCV_sorts (problem : SudokuProblem) (pos : Position) :
  grid9 (state problem) → grid9 (domain problem) → in_grid pos →
  let values := domain_at (domain problem) (row pos) (col pos) in
  let count := lcv_count problem pos in
  getLCV problem pos ≡ₚ values
  ∧ StronglySorted (λ a b, count a ≤ count b) (getLCV problem pos)
  ∧ ∀ k, filter (λ v, count v = k) (getLCV problem pos)
         = filter (λ v, count v = k) values.
Proof.
  intros _ _ _. split_and!.
  - apply getLCV_Permutation.
  - apply getLCV_sorted.
  - apply getLCV_stable.
Qed.

Lemma getLCV_sorts_witness :
  let values := domain_at (domain sample_open_row) 4 4 in
  let count := lcv_count sample_open_row (mkPos 4 4) in
  getLCV sample_open_row (mkPos 4 4) ≡ₚ values
  ∧ StronglySorted (λ a b, count a ≤ count b) (getLCV sample_open_row (mkPos 4 4))
  ∧ ∀ k, filter (λ v, count v = k) (getLCV sample_open_row (mkPos 4 4))
         = filter (λ v, count v = k) values.
Proof. apply (getLCV_sorts sample_open_row (mkPos 4 4)); by_evaluation. Defined.

(** X11: the tally [getLCV] computes for a value adds up, over the row, the
    column and the block of the position, the empty cells whose domain
    holds the value.  A cell is counted once for each of the three groups
    it lies in: the position itself, when it is empty and holds the value,
    counts three times. *)
Theorem lcv_count_adds_groups (problem : SudokuProblem) (pos : Position) (value : Z) :
  grid9 (state problem) → grid9 (domain problem) → in_grid pos →
  lcv_count problem pos value
  = tally (λ q, open_with problem value (row q) (col q)) (lcv_cells pos)
  ∧ (open_with problem value (row pos) (col pos) = true →
     3 ≤ lcv_count problem pos value).
Proof.
  intros _ _ Hpos. rewrite lcv_count_cells. split; [done|]. intros Hopen.
  unfold lcv_cells. rewrite !tally_app.
  pose proof (tally_elem_of (λ q, open_with problem value (row q) (col q)) pos
                (row_cells (row pos)) (elem_of_row_cells pos Hpos) Hopen).
  pose proof (tally_elem_of (λ q, open_with problem value (row q) (col q)) pos
                (col_cells (col pos)) (elem_of_col_cells pos Hpos) Hopen).
  assert (pos ∈ block_cells (row pos / 3) (col pos / 3)) as Hblock
    by by apply elem_of_block_cells.
  pose proof (tally_elem_of (λ q, open_with problem value (row q) (col q)) pos
                _ Hblock Hopen).
  lia.
Qed.

Lemma lcv_count_adds_groups_witness :
  lcv_count sample_open_row (mkPos 4 4) 2
  = tally (λ q, open_with sample_open_row 2 (row q) (col q)) (lcv_cells (mkPos 4 4))
  ∧ (open_with sample_open_row 2 4 4 = true →
     3 ≤ lcv_count sample_open_row (mkPos 4 4) 2).
Proof. apply (lcv_count_adds_groups sample_open_row (mkPos 4 4) 2); by_evaluation. Defined.

(** X12: propagation steps on a 9x9 matrix of domains can be taken in any
    order, and a step taken twice has the effect of the step taken once. *)
Theorem updateDomain_commutes (domain : Domain) (p q : Position) (v w : Z) :
  grid9 domain → in_grid p → in_grid q →
  updateDomain (updateDomain domain p v) q w
  = updateDomain (updateDomain domain q w) p v
  ∧ updateDomain (updateDomain domain p v) p v = updateDomain domain p v.
Proof.
  intros Hg Hp Hq. split; [by apply updateDomain_comm|by apply updateDomain_idemp].
Qed.

Lemma updateDomain_commutes_witness :
  updateDomain (updateDomain (domain empty_problem) (mkPos 0 0) 5) (mkPos 0 4) 7
  = updateDomain (updateDomain (domain empty_problem) (mkPos 0 4) 7) (mkPos 0 0) 5
  ∧ updateDomain (updateDomain (domain empty_problem) (mkPos 0 0) 5) (mkPos 0 0) 5
    = updateDomain (domain empty_problem) (mkPos 0 0) 5.
Proof.
  apply (updateDomain_commutes (domain empty_problem) (mkPos 0 0) (mkPos 0 4) 5 7);
    by_evaluation.
Defined.

(** X13: [updateDomain] only removes candidates: the result is a 9x9 matrix
    again, and each of its domains is the domain of the input with some
    candidates left out, the others in their order. *)
Theorem updateDomain_shrinks (domain : Domain) (p : Position) (v : Z) :
  grid9 domain → in_grid p →
  grid9 (updateDomain domain p v)
  ∧ ∀ q, in_grid q →
      ∃ cell cell', at_pos domain q = Some cell
                    ∧ at_pos (updateDomain domain p v) q = Some cell'
                    ∧ cell' `sublist_of` cell.
Proof.
  intros Hg Hp. split; [by apply grid9_updateDomain|]. intros q Hq.
  destruct (grid9_cell_at (updateDomain domain p v) (row q) (col q))
    as [cell' Hcell']; [by apply grid9_updateDomain|apply Hq..|].
  destruct (updateDomain_sublist domain p v q cell' Hg Hp Hq Hcell')
    as (cell & Hcell & Hsub).
  by exists cell, cell'.
Qed.

Lemma updateDomain_shrinks_witness :
  grid9 (updateDomain (domain empty_problem) (mkPos 4 4) 5)
  ∧ ∀ q, in_grid q →
      ∃ cell cell', at_pos (domain empty_problem) q = Some cell
                    ∧ at_pos (updateDomain (domain empty_problem) (mkPos 4 4) 5) q
                      = Some cell'
                    ∧ cell' `sublist_of` cell.
Proof.
  apply (updateDomain_shrinks (domain empty_problem) (mkPos 4 4) 5); by_evaluation.
Defined.

(** ** The draft never fills the last empty cell *)

Lemma draft_next_open (state : Grid) p q :
  Draft.getNextPosition state (Some p) = Some q →
  is_null state (row q) (col q) = true ∧ q ≠ p.
Proof.
  unfold Draft.getNextPosition. intros (Hnull & Hscan & _)%scan_Some.
  split; [done|]. intros ->. unfold scan_from in Hscan. lia.
Qed.

Lemma draft_child_open parent next value :
  Draft.getNextPosition (state (problem parent)) (Some (lastAssigned parent)) = Some next →
  has_empty_cell
    (set_cell (row (lastAssigned parent)) (col (lastAssigned parent)) (Some value)
              (state (problem parent))).
Proof.
  intros [Hnull Hne]%draft_next_open. exists (row next), (col next).
  apply is_null_true. by rewrite is_null_set_cell_ne.
Qed.

Lemma draft_getChildren_open parent :
  Forall (λ n, has_empty_cell (state (problem n))) (DraftSearch.getChildren parent).
Proof.
  unfold DraftSearch.getChildren.
  destruct (Draft.getNextPosition _ _) as [next|] eqn:Hnext; [|constructor].
  apply Forall_fmap, Forall_forall. intros value _. cbn.
  by eapply draft_child_open.
Qed.

Lemma draft_getChildren_forwarding_open parent :
  Forall (λ n, has_empty_cell (state (problem n)))
         (DraftSearch.getChildren_forwarding parent).
Proof.
  unfold DraftSearch.getChildren_forwarding.
  destruct (Draft.getNextPosition _ _) as [next|] eqn:Hnext; [|constructor].
  apply Forall_forall. intros child (value & _ & Heq)%list_elem_of_omap.
  destruct (hasEmptyDomain _ _); [done|]. injection Heq as <-. cbn.
  by eapply draft_child_open.
Qed.

Lemma draft_search_found (P : Node → Prop) expand fuel fringe node :
  (∀ n, Forall P (expand n)) → Forall P fringe →
  DraftSearch.search expand fuel fringe = Found node →
  P node ∧ isgoal (problem node) = true.
Proof.
  intros Hexpand. revert fringe.
  induction fuel as [|fuel IH]; intros fringe Hfringe; cbn [DraftSearch.search].
  - destruct (pop fringe) as [[current rest]|]; done.
  - destruct (pop fringe) as [[current rest]|] eqn:Hpop; [|done].
    apply pop_Some in Hpop as ->. apply Forall_app in Hfringe as [Hrest Hcur].
    rewrite Forall_singleton in Hcur.
    destruct (consistent (problem current)); [|by apply IH].
    destruct (isgoal (problem current)) eqn:Hgoal.
    + by intros [= <-].
    + apply IH, Forall_app. split; [done|apply Hexpand].
Qed.

Lemma open_is_no_goal problem :
  has_empty_cell (state problem) → isgoal problem = true → False.
Proof.
  intros (i & j & Hij) [Hfull _]%isgoal_true.
  by apply (no_empty_cell_at _ (mkPos i j) Hfull).
Qed.

(** X14: the searches of the earlier draft never solve a puzzle.  Their
    expansion functions generate no child when no empty cell follows the
    current one, so every generated grid has an empty cell left: on a grid
    with an empty cell neither procedure returns a node, whatever the
    number of iterations. *)
Theorem draft_never_solves (grid : Grid) (fuel : nat) (node : Node) :
  grid9 grid → has_empty_cell grid →
  DraftSearch.backtack fuel grid ≠ Found node
  ∧ DraftSearch.backtack_forward fuel grid ≠ Found node.
Proof.
  intros _ Hempty.
  assert (Forall (λ n, has_empty_cell (state (problem n)))
                 [mkNode (initiate grid) None (mkPos 0 0)]) as Hroot.
  { apply Forall_singleton. cbn [problem]. by rewrite initiate_state. }
  split; intros Hfound.
  - apply (draft_search_found _ _ _ _ _ draft_getChildren_open Hroot) in Hfound
      as [Hopen Hgoal].
    by apply (open_is_no_goal (problem node)).
  - apply (draft_search_found _ _ _ _ _ draft_getChildren_forwarding_open Hroot)
      in Hfound as [Hopen Hgoal].
    by apply (open_is_no_goal (problem node)).
Qed.

Lemma draft_never_solves_witness :
  DraftSearch.backtack 100 sample_puzzle
    ≠ Found (mkNode (initiate sample_solution) None (mkPos 0 0))
  ∧ DraftSearch.backtack_forward 100 sample_puzzle
    ≠ Found (mkNode (initiate sample_solution) None (mkPos 0 0)).
Proof.
  apply (draft_never_solves sample_puzzle 100);
    [apply grid9_sample_puzzle|apply has_empty_cell_sample_puzzle].
Defined.

(** ** The givens during the local search *)

Lemma extends_set_null (grid state : Grid) p (x : Cell) :
  extends grid state → is_null state (row p) (col p) = true →
  extends grid (set_cell (row p) (col p) x state).
Proof.
  intros Hext Hnull%is_null_true q w Hq. rewrite at_pos_set_cell.
  destruct (decide (q = p)) as [->|]; [|by apply Hext].
  apply Hext in Hq. unfold at_pos in Hq. congruence.
Qed.

Lemma fill_block_extends (grid : Grid) missing block (state : Grid) :
  extends grid state → extends grid (fill_block missing block state).
Proof.
  intros Hext. unfold fill_block.
  apply (foldl_invariant (λ acc : Grid * nat, extends grid acc.1)); [done|].
  intros [newState idx] p Hacc. cbn [fst] in *.
  destruct (is_null newState (row p) (col p)) eqn:Hnull; [|done].
  by apply extends_set_null.
Qed.

Section SeedGivens.

Context {R : Type}.
Variable random : nat → R.
Variable scale : R → nat → nat.

Lemma randomCompleteAssignment_extends (state : Grid) k :
  extends state (randomCompleteAssignment random scale state k).1.
Proof.
  unfold randomCompleteAssignment.
  apply (foldl_invariant (λ acc : Grid * nat, extends state acc.1));
    [apply extends_refl|].
  intros acc blockRow Hacc.
  apply (foldl_invariant (λ acc : Grid * nat, extends state acc.1)); [done|].
  intros [newState k'] blockCol Hacc'. cbn [fst] in *.
  destruct (shuffle random scale _ k') as [missing k''].
  by apply fill_block_extends.
Qed.

End SeedGivens.

Lemma at_pos_swap_cells_frame (g : Grid) a b p :
  p ≠ a → p ≠ b → at_pos (swap_cells a b g) p = at_pos g p.
Proof.
  intros Ha Hb. unfold swap_cells.
  destruct (at_pos g a) as [x|]; [|done]. destruct (at_pos g b) as [y|]; [|done].
  by rewrite !at_pos_set_cell, !decide_False.
Qed.

Section AnnealingInvariant.

Context {R Temp : Type}.
Variable random : nat → R.
Variable scale : R → nat → nat.
Variable T_start : Temp.
Variable cool : Temp → Temp.
Variable metropolis : R → Z → Temp → bool.
Hypothesis Hscale : scale_ok scale.

(** A property of the grid that every exchange of two cells that are not
    fixed keeps holds of the grid the loop returns. *)
Lemma anneal_invariant (I : Grid → Prop) steps fixed current currentConflicts
    T metrics k trace g :
  (∀ current a b, I current →
     at_pos fixed a ≠ Some true → at_pos fixed b ≠ Some true →
     I (swap_cells a b current)) →
  I current →
  (anneal random scale cool metropolis steps fixed current currentConflicts
          T metrics k trace).1.1 = Some g →
  I g.
Proof using Hscale.
  intros Hswap. revert current currentConflicts T metrics k trace.
  induction steps as [|steps IH];
    intros current currentConflicts T metrics k trace HI; cbn [anneal].
  - destruct (currentConflicts =? 0); [|done]. cbn [fst]. by intros [= <-].
  - destruct (currentConflicts =? 0) eqn:Hz; [cbn [fst]; by intros [= <-]|].
    set (blockRow := scale (random k) 3).
    set (blockCol := scale (random (k + 1)) 3).
    set (cells := filter (λ p, at_pos fixed p ≠ Some true)
                         (block_cells blockRow blockCol)).
    destruct (length cells <? 2) eqn:Hfew; [by apply IH|].
    apply Nat.ltb_ge in Hfew.
    set (a := cells !!! scale (random (k + 2)) (length cells)).
    set (b := cells !!! scale (random (k + 3)) (length cells)).
    destruct (decide (a = b)) as [|Hab]; [by apply IH|].
    assert (at_pos fixed a ≠ Some true) as Ha.
    { assert (a ∈ cells) as Hin
        by (apply list_elem_of_lookup_total_2, Hscale; lia).
      apply list_elem_of_filter in Hin. tauto. }
    assert (at_pos fixed b ≠ Some true) as Hb.
    { assert (b ∈ cells) as Hin
        by (apply list_elem_of_lookup_total_2, Hscale; lia).
      apply list_elem_of_filter in Hin. tauto. }
    pose proof (Hswap current a b HI Ha Hb) as Hnext.
    destruct (if (_ <? 0)%Z then _ else _) as [accept k'].
    destruct accept.
    + destruct (countConflicts (swap_cells a b current) =? 0) eqn:Hzn.
      * cbn [fst]. by intros [= <-].
      * by apply IH.
    + rewrite Hz. by apply IH.
Qed.

(** The cells marked fixed hold at the end what the random complete
    assignment gave them, and so do the givens among them. *)
Lemma simulatedAnnealing_fixed (grid : Grid) fixed maxSteps g p v :
  (simulatedAnnealing random scale T_start cool metropolis grid fixed maxSteps).1.1
  = Some g →
  at_pos fixed p = Some true → at_pos grid p = Some (Some v) →
  at_pos g p = Some (Some v).
Proof using Hscale.
  unfold simulatedAnnealing. intros Hrun Hfixed Hgiven.
  pose proof (randomCompleteAssignment_extends random scale grid 0 p v Hgiven) as Hseed.
  destruct (randomCompleteAssignment random scale grid 0) as [current k].
  cbn [fst] in Hseed.
  destruct (countConflicts current =? 0).
  - cbn [fst] in Hrun. by injection Hrun as <-.
  - revert Hrun. apply (anneal_invariant (λ g, at_pos g p = Some (Some v))); [|done].
    intros c a b Hc Ha Hb. rewrite at_pos_swap_cells_frame; [done|congruence..].
Qed.

End AnnealingInvariant.

(** ** When the objective is zero *)

Lemma NoDup_repeats_zero line : NoDup line → repeats line = 0.
Proof.
  intros Hnodup. unfold repeats. rewrite size_list_to_set by done. lia.
Qed.

Lemma sum_list_zero_iff (l : list nat) : sum_list l = 0 ↔ Forall (λ x, x = 0) l.
Proof.
  induction l as [|x l IH]; [split; [constructor|done]|].
  cbn [sum_list]. rewrite Forall_cons, <-IH. unfold id. lia.
Qed.

Lemma repeats_zero_iff line : repeats line = 0 ↔ NoDup line.
Proof. split; [apply repeats_zero_NoDup|apply NoDup_repeats_zero]. Qed.

Lemma repeats_bound line : 0 < length line → repeats line < length line.
Proof.
  intros Hpos. unfold repeats. destruct line as [|x line]; [cbn in Hpos; lia|].
  assert (0 < size (list_to_set (x :: line) : gset (option Cell))); [|lia].
  cbn [list_to_set]. rewrite size_union_alt, size_singleton. lia.
Qed.

Lemma sum_list_bound (l : list nat) b : Forall (λ x, x ≤ b) l → sum_list l ≤ b * length l.
Proof.
  induction 1 as [|x l Hx Hl IH]; cbn [sum_list length]; [lia|].
  change (id x) with x. rewrite Nat.mul_succ_r. lia.
Qed.

Lemma length_row_line (state : Grid) i : length (row_line state i) = 9.
Proof. unfold row_line. by rewrite length_fmap. Qed.

Lemma length_col_line (state : Grid) j : length (col_line state j) = 9.
Proof. unfold col_line. by rewrite length_fmap. Qed.

Lemma lines_zero_iff (line : nat → list (option Cell)) :
  sum_list ((λ i, repeats (line i)) <$> range 0 9) = 0
  ↔ ∀ i, i < 9 → NoDup (line i).
Proof.
  rewrite sum_list_zero_iff, Forall_fmap, Forall_forall. split.
  - intros Hall i Hi. apply repeats_zero_iff, Hall, elem_of_range. lia.
  - intros Hall i Hi%elem_of_range. cbn. apply repeats_zero_iff, Hall. lia.
Qed.

Lemma lines_bound (line : nat → list (option Cell)) :
  (∀ i, length (line i) = 9) →
  sum_list ((λ i, repeats (line i)) <$> range 0 9) ≤ 72.
Proof.
  intros Hlen.
  assert (Forall (λ x, x ≤ 8) ((λ i, repeats (line i)) <$> range 0 9)) as Hall.
  { apply Forall_fmap, Forall_forall. intros i _. cbn.
    pose proof (repeats_bound (line i)). rewrite Hlen in *. lia. }
  apply sum_list_bound in Hall. rewrite length_fmap in Hall.
  change (length (range 0 9)) with 9 in Hall. lia.
Qed.





(** X17: the objective of the local search is zero exactly when no row and
    no column of the grid holds a value twice, and it is at most 144: a
    line of nine cells has at most eight repeats. *)
Theorem countConflicts_zero_iff (state : Grid) :
  grid9 state →
  (countConflicts state = 0
   ↔ (∀ i, i < 9 → NoDup (row_line state i))
     ∧ (∀ j, j < 9 → NoDup (col_line state j)))
  ∧ countConflicts state ≤ 144.
Proof.
  intros _. rewrite countConflicts_sum. split.
  - rewrite <-!lines_zero_iff. lia.
  - pose proof (lines_bound (row_line state) (length_row_line state)).
    pose proof (lines_bound (col_line state) (length_col_line state)). lia.
Qed.

Lemma countConflicts_zero_iff_witness :
  (countConflicts ones_grid = 0
   ↔ (∀ i, i < 9 → NoDup (row_line ones_grid i))
     ∧ (∀ j, j < 9 → NoDup (col_line ones_grid j)))
  ∧ countConflicts ones_grid ≤ 144.
Proof. apply (countConflicts_zero_iff ones_grid). by_evaluation. Defined.

(** ** Positions outside the matrix *)

Lemma bind_None {A B} (c : Heap.M A) (k : A → Heap.M B) h :
  c h = None → Heap.bind c k h = None.
Proof. unfold Heap.bind. by intros ->. Qed.

Lemma updateDomain_throws h r (domain : Domain) p value :
  Heap.holds h r domain → grid9 domain → ¬ in_grid p →
  Heap.updateDomain r p value h = None.
Proof.
  intros Hholds Hg. destruct p as [row col]. unfold in_grid.
  change (¬ (row < 9 ∧ col < 9) → Heap.updateDomain r (mkPos row col) value h = None).
  intros Hout.
  destruct (copy_domain_ok h r domain Hholds) as (nd & h1 & Hcopy & Hfresh1).
  pose proof Hfresh1 as (_ & rows & Hnd & Hrows & _).
  assert (length rows = 9) as Hlen_rows.
  { destruct Hg as [Hl _]. rewrite <-Hl. by eapply Forall2_length. }
  unfold Heap.updateDomain. erewrite bind_Some by exact Hcopy.
  destruct (decide (row < 9)) as [Hrow|Hrow].
  - assert (9 ≤ col) as Hcol by lia.
    destruct (lookup_lt_is_Some_2 domain row) as [line Hline]; [destruct Hg; lia|].
    destruct (Forall2_lookup_r _ _ _ _ _ Hrows Hline)
      as (rr & Hrr & cells & Hcells & Hall).
    assert (length cells = length (domain !!! row)) as Hlen_cells.
    { rewrite (list_lookup_total_correct _ _ _ Hline). by eapply Forall2_length. }
    destruct (forM_strike_ok (λ j, (row, j)) value h nd
                (range 0 (length (domain !!! row))) h1 domain)
      as (h2 & Hrun2 & Hfresh2); [|done..|].
    { intros j Hj%elem_of_range. cbn. rewrite grid9_row_length in Hj by done. lia. }
    cbn [fst snd] in Hrun2, Hfresh2.
    set (d2 := foldl (λ d j, strike_at value row j d) domain
                     (range 0 (length (domain !!! row)))) in *.
    assert (grid9 d2) as Hg2
      by (apply grid9_foldl; [intros; by apply grid9_strike_at|done]).
    pose proof Hfresh2 as (_ & rows2 & Hnd2 & Hrows2 & _).
    assert (length rows2 = 9) as Hlen_rows2.
    { destruct Hg2 as [Hl _]. rewrite <-Hl. by eapply Forall2_length. }
    erewrite bind_Some; cycle 1.
    { unfold Heap.row_of. erewrite bind_Some; cycle 1.
      { erewrite bind_Some by (by apply read_refs_Some).
        unfold Heap.defined. rewrite Hrr. reflexivity. }
      by apply read_refs_Some. }
    rewrite Hlen_cells. erewrite bind_Some by exact Hrun2.
    erewrite bind_Some by (by apply read_refs_Some).
    rewrite Hlen_rows2. apply bind_None.
    rewrite (range_cons 0 9) by lia. cbn [Heap.forM]. apply bind_None.
    destruct (lookup_lt_is_Some_2 d2 0) as [line0 Hline0]; [destruct Hg2; lia|].
    destruct (Forall2_lookup_r _ _ _ _ _ Hrows2 Hline0)
      as (r0 & Hr0 & cells0 & Hcells0 & Hall0).
    assert (length cells0 = 9) as Hlen0.
    { destruct Hg2 as [_ Hall2]. rewrite Forall_lookup in Hall2.
      rewrite <-(Hall2 _ _ Hline0). by eapply Forall2_length. }
    unfold Heap.strike_entry, Heap.row_of.
    erewrite bind_Some; cycle 1.
    { erewrite bind_Some by (by apply read_refs_Some).
      unfold Heap.defined. rewrite Hr0. reflexivity. }
    erewrite bind_Some by (by apply read_refs_Some).
    apply bind_None. unfold Heap.defined.
    by rewrite (lookup_ge_None_2 cells0 col) by lia.
  - apply bind_None, bind_None. unfold Heap.row_of.
    erewrite bind_Some by (by apply read_refs_Some).
    unfold Heap.defined. by rewrite (lookup_ge_None_2 rows row) by lia.
Qed.

(** X18: on a 9x9 matrix of domains [updateDomain] returns exactly for the
    positions of the grid: for a row or a column past the end it throws,
    when it reads a property of an entry that does not exist. *)
Theorem updateDomain_returns_iff_in_grid h r (domain : Domain) (p : Position) (value : Z) :
  Heap.holds h r domain → grid9 domain →
  is_Some (Heap.updateDomain r p value h) ↔ in_grid p.
Proof.
  intros Hholds Hg. split.
  - intros Hsome. destruct (decide (in_grid p)) as [|Hout]; [done|].
    rewrite (updateDomain_throws h r domain p value Hholds Hg Hout) in Hsome.
    by destruct Hsome.
  - intros Hin.
    destruct (updateDomain_run h r domain p value Hholds Hg Hin) as (r' & h' & -> & _).
    by eexists.
Qed.

Lemma updateDomain_returns_iff_in_grid_witness :
  is_Some (Heap.updateDomain sample_heap.2 (mkPos 0 9) 5 sample_heap.1)
  ↔ in_grid (mkPos 0 9).
Proof.
  apply (updateDomain_returns_iff_in_grid sample_heap.1 sample_heap.2
           (domain empty_problem) (mkPos 0 9) 5);
    [apply sample_heap_holds|apply grid9_empty_domain].
Defined.

(** ** The board of the interface *)

Lemma first_some_range_extend {B} (f : nat → option B) a b c :
  b ≤ c → (∀ k, b ≤ k < c → f k = None) →
  first_some f (range a c) = first_some f (range a b).
Proof.
  intros Hle Hnone. destruct (first_some f (range a b)) as [y|] eqn:Hscan.
  - apply first_some_range_Some in Hscan as (k & Hk & Hfk & Hbefore).
    apply first_some_range_Some. exists k. split_and!; [lia..|done|done].
  - rewrite first_some_range_None in Hscan. apply first_some_range_None.
    intros k Hk. destruct (decide (k < b)); [apply Hscan; lia|apply Hnone; lia].
Qed.

Lemma is_null_past_row (board : Grid) i j :
  length (board !!! i) ≤ j → is_null board i j = false.
Proof.
  intros Hj. apply is_null_false. intros Hcell.
  apply cell_at_Some in Hcell as [_ Hlt]. lia.
Qed.

Lemma findFirstEmpty_getNextPosition (board : Grid) :
  Forall (λ r, length r ≤ length board) board →
  App.findFirstEmpty board = getNextPosition board None.
Proof.
  intros Hrows. unfold App.findFirstEmpty, getNextPosition.
  destruct (Nat.leb_spec (length board) 0) as [Hzero|Hpos].
  { by rewrite !range_nil by lia. }
  apply first_some_ext_in. intros i Hi%elem_of_range.
  replace (if i =? 0 then 0 else 0) with 0 by by destruct (i =? 0).
  symmetry. apply first_some_range_extend.
  - destruct (lookup_lt_is_Some_2 board i) as [r Hr]; [lia|].
    rewrite (list_lookup_total_correct _ _ _ Hr).
    rewrite Forall_lookup in Hrows. by eapply Hrows.
  - intros j Hj. rewrite is_null_past_row; [done|lia].
Qed.

Lemma grid9_rows_le (board : Grid) :
  grid9 board → Forall (λ r, length r ≤ length board) board.
Proof.
  intros [Hlen Hrows]. eapply Forall_impl; [done|]. cbn. intros r ->. lia.
Qed.

(** The mask of the interface marks the givens. *)
Lemma fixed_mask_given (board : Grid) p v :
  at_pos board p = Some (Some v) → at_pos (App.fixed_mask board) p = Some true.
Proof.
  unfold at_pos, cell_at, App.fixed_mask. rewrite list_lookup_fmap.
  destruct (board !! row p) as [r|]; [|done]. cbn. rewrite list_lookup_fmap.
  by intros ->.
Qed.

(** The guards: a 9x9 board on which a scan finds no empty cell has none. *)
Lemma getNextPosition_None_iff (board : Grid) :
  grid9 board → getNextPosition board None = None ↔ no_empty_cell board.
Proof.
  intros Hg. split.
  - intros Hnone. by apply count_nulls_zero, getNextPosition_None_full.
  - apply getNextPosition_full.
Qed.

Lemma getMRVPosition_None_iff (board : Grid) :
  grid9 board → getMRVPosition (initiate board) = None ↔ no_empty_cell board.
Proof.
  intros Hg. split.
  - intros Hnone. by apply count_nulls_zero, getMRVPosition_None_full.
  - intros Hfull. apply getMRVPosition_full. by rewrite initiate_state.
Qed.

(** A node a procedure returns on a 9x9 grid of digits with an empty cell
    carries a solved grid. *)
Lemma procedure_found_solved solve (grid : Grid) fuel node metrics :
  solve ∈ procedures → grid9 grid → digits_grid grid → has_empty_cell grid →
  solve fuel grid = (Found node, metrics) → solved (state (problem node)).
Proof.
  intros Hsolve Hg Hd Hempty Hfound.
  apply (backtracking_success_solved grid fuel node metrics Hg Hd Hempty).
  unfold procedures in Hsolve.
  repeat (apply elem_of_cons in Hsolve as [->|Hsolve]);
    [tauto..|by apply elem_of_nil in Hsolve].
Qed.

(** The names under which the interface offers the three procedures. *)
Lemma runSolver_procedure {R Temp : Type} (random : nat → R) scale (T_start : Temp)
    cool metropolis algorithm :
  algorithm ∈ ["backtracking"; "forward"; "mrv_lcv"] →
  ∃ solve, solve ∈ procedures ∧ ∀ fuel (board : Grid),
    is_Some (App.findFirstEmpty board) →
    App.runSolver random scale T_start cool metropolis fuel algorithm board
    = solution ← App.solution_of (solve fuel board).1;
      Some (solution, match solution with
                      | Some _ => None
                      | None => Some App.failure_message
                      end).
Proof.
  intros Halg.
  repeat (apply elem_of_cons in Halg as [->|Halg]); [| | |by apply elem_of_nil in Halg].
  - exists backtack. split; [apply elem_of_cons; by left|].
    intros fuel board [p Hp]. unfold App.runSolver. by rewrite Hp.
  - exists backtack_forward.
    split; [apply elem_of_cons; right; apply elem_of_cons; by left|].
    intros fuel board [p Hp]. unfold App.runSolver. by rewrite Hp.
  - exists backtrack_MRV_LCV.
    split; [do 2 (apply elem_of_cons; right); apply elem_of_cons; by left|].
    intros fuel board [p Hp]. unfold App.runSolver. by rewrite Hp.
Qed.

Lemma findFirstEmpty_Some (board : Grid) :
  grid9 board → has_empty_cell board → is_Some (App.findFirstEmpty board).
Proof.
  intros Hg Hempty. rewrite findFirstEmpty_getNextPosition by by apply grid9_rows_le.
  by apply getNextPosition_first.
Qed.

Lemma findFirstEmpty_None (board : Grid) :
  grid9 board → no_empty_cell board → App.findFirstEmpty board = None.
Proof.
  intros Hg Hfull. rewrite findFirstEmpty_getNextPosition by by apply grid9_rows_le.
  by apply getNextPosition_full.
Qed.

Lemma runSolver_annealing_run {R Temp : Type} (random : nat → R) scale (T_start : Temp)
    cool metropolis fuel (board : Grid) :
  is_Some (App.findFirstEmpty board) →
  App.runSolver random scale T_start cool metropolis fuel "annealing" board
  = let solution :=
      (simulatedAnnealing random scale T_start cool metropolis board
                          (App.fixed_mask board) App.maxSteps_default).1.1 in
    Some (solution, match solution with
                    | Some _ => None
                    | None => Some App.failure_message
                    end).
Proof. intros [p Hp]. unfold App.runSolver. by rewrite Hp. Qed.

(** A text of at most one character leaves a digit from 1 to 9 or nothing. *)
Lemma onChange_cell (board : Grid) i j text :
  String.length text ≤ 1 →
  ∃ c : Cell, App.onChange board i j text = Some (set_cell i j c board)
              ∧ from_option digit True c.
Proof.
  intros Hlen. unfold App.onChange, App.handleInput.
  destruct text as [|c [|c' rest]]; [| |cbn in Hlen; lia].
  - exists None. by cbn.
  - cbn [App.strip_first]. destruct (App.is_1_to_9 c) eqn:Hclass.
    + unfold App.is_1_to_9 in Hclass.
      apply andb_true_iff in Hclass as [Hlo%Nat.leb_le Hhi%Nat.leb_le].
      exists (Some (Z.of_nat (nat_of_ascii c - 48))). split.
      * rewrite decide_False by done. unfold App.Number. cbn [String.length Nat.leb].
        cbn [App.decimal]. unfold App.digit_value.
        assert ((48 <=? nat_of_ascii c) = true) as -> by (apply Nat.leb_le; lia).
        assert ((nat_of_ascii c <=? 57) = true) as -> by (apply Nat.leb_le; lia).
        cbn [andb mbind option_bind App.decimal]. done.
      * cbn. unfold digit. lia.
    + exists None. by cbn.
Qed.

(** X19: the guard of the interface and the guards of the procedures fire
    on the same 9x9 boards.  [findFirstEmpty] returns what
    [getNextPosition] returns without a current position, and both, like
    [getMRVPosition] on the initial problem, return nothing exactly on the
    boards without an empty cell. *)
Theorem findFirstEmpty_agrees (board : Grid) :
  grid9 board →
  App.findFirstEmpty board = getNextPosition board None
  ∧ (App.findFirstEmpty board = None ↔ no_empty_cell board)
  ∧ (getMRVPosition (initiate board) = None ↔ no_empty_cell board).
Proof.
  intros Hg.
  rewrite (findFirstEmpty_getNextPosition board) by by apply grid9_rows_le.
  split_and!; [done|by apply getNextPosition_None_iff|by apply getMRVPosition_None_iff].
Qed.

Lemma findFirstEmpty_agrees_witness :
  App.findFirstEmpty sample_puzzle = getNextPosition sample_puzzle None
  ∧ (App.findFirstEmpty sample_puzzle = None ↔ no_empty_cell sample_puzzle)
  ∧ (getMRVPosition (initiate sample_puzzle) = None ↔ no_empty_cell sample_puzzle).
Proof. apply (findFirstEmpty_agrees sample_puzzle), grid9_sample_puzzle. Defined.

(** X20: what the interface shows after a backtracking solver has run on a
    9x9 board of digits with an empty cell.  The solver returns; a grid
    that is shown is solved and keeps the entries of the board; and when
    the failure message is shown the board has no solution. *)
Theorem runSolver_backtracking {R Temp : Type} (random : nat → R)
    (scale : R → nat → nat) (T_start : Temp) (cool : Temp → Temp)
    (metropolis : R → Z → Temp → bool) (algorithm : string) (board : Grid) :
  grid9 board → digits_grid board → has_empty_cell board →
  algorithm ∈ ["backtracking"; "forward"; "mrv_lcv"] →
  (∃ bound, ∀ fuel, bound ≤ fuel →
     is_Some (App.runSolver random scale T_start cool metropolis fuel algorithm board))
  ∧ ∀ fuel result message,
      App.runSolver random scale T_start cool metropolis fuel algorithm board
      = Some (result, message) →
      match result with
      | Some g => message = None ∧ solved g ∧ extends board g
      | None => message = Some App.failure_message ∧ ¬ solvable board
      end.
Proof.
  intros Hg Hd Hempty Halg.
  destruct (runSolver_procedure random scale T_start cool metropolis algorithm Halg)
    as (solve & Hsolve & Hrun).
  pose proof (findFirstEmpty_Some board Hg Hempty) as Hfirst. split.
  - destruct (procedure_returns solve board Hsolve Hg)
      as (bound & outcome & metrics & Hout & Hreturn).
    exists bound. intros fuel Hle.
    rewrite (Hrun fuel board Hfirst), (Hreturn fuel Hle). cbn [fst].
    destruct outcome as [node| |]; [| |done]; cbn; by eexists.
  - intros fuel result message. rewrite (Hrun fuel board Hfirst).
    destruct (solve fuel board) as [outcome metrics] eqn:Hcall. cbn [fst].
    destruct outcome as [node| |]; cbn; [| |done].
    + intros [= <- <-]. split_and!; [done|..].
      * by apply (procedure_found_solved solve board fuel node metrics).
      * by destruct (procedure_found solve board fuel node metrics Hsolve Hg Hcall).
    + intros [= <- <-]. split; [done|]. intros Hsolvable.
      apply (procedure_never_fails solve board fuel Hsolve Hg Hsolvable).
      by rewrite Hcall.
Qed.

Lemma runSolver_backtracking_witness :
  (∃ bound, ∀ fuel, bound ≤ fuel →
     is_Some (App.runSolver zero_random zero_scale tt no_cooling never_accept
                            fuel "mrv_lcv" sample_puzzle))
  ∧ ∀ fuel result message,
      App.runSolver zero_random zero_scale tt no_cooling never_accept
                    fuel "mrv_lcv" sample_puzzle
      = Some (result, message) →
      match result with
      | Some g => message = None ∧ solved g ∧ extends sample_puzzle g
      | None => message = Some App.failure_message ∧ ¬ solvable sample_puzzle
      end.
Proof.
  apply (runSolver_backtracking zero_random zero_scale tt no_cooling never_accept
           "mrv_lcv" sample_puzzle);
    [apply grid9_sample_puzzle|apply digits_sample_puzzle
    |apply has_empty_cell_sample_puzzle
    |do 2 (apply elem_of_cons; right); apply elem_of_cons; by left].
Defined.

(** X21: what the interface shows after simulated annealing has run on a
    9x9 board of digits with an empty cell.  A grid that is shown keeps the
    entries of the board, has no empty cell and holds every digit once in
    each row and in each column, and in each block too when the entries of
    the board repeat no digit within a block; otherwise the failure message
    is shown. *)
Theorem runSolver_annealing {R Temp : Type} (random : nat → R)
    (scale : R → nat → nat) (T_start : Temp) (cool : Temp → Temp)
    (metropolis : R → Z → Temp → bool) (fuel : nat) (board : Grid) :
  scale_ok scale → grid9 board → digits_grid board → has_empty_cell board →
  ∃ result message,
    App.runSolver random scale T_start cool metropolis fuel "annealing" board
    = Some (result, message)
    ∧ match result with
      | Some g =>
          message = None ∧ extends board g ∧ no_empty_cell g
          ∧ rows_complete g ∧ columns_complete g
          ∧ (blocks_clean board → blocks_complete g)
      | None => message = Some App.failure_message
      end.
Proof.
  intros Hscale Hg Hd Hempty.
  rewrite runSolver_annealing_run by by apply findFirstEmpty_Some.
  cbn zeta.
  destruct (simulatedAnnealing random scale T_start cool metropolis board
              (App.fixed_mask board) App.maxSteps_default).1.1 as [g|] eqn:Hrun.
  - eexists _, _. split; [done|].
    destruct (simulatedAnnealing_success random scale T_start cool metropolis Hscale
                (blocks_clean board) board _ _ g Hg Hd (λ H, H) Hrun)
      as (Hg' & Hall & Hblocks & Hzero).
    destruct (no_conflicts_lines g Hg' Hall Hzero) as (Hfull & Hrows & Hcols).
    split_and!; [done| |done..].
    intros q v Hq.
    apply (simulatedAnnealing_fixed random scale T_start cool metropolis Hscale
             board _ _ g q v Hrun); [|done].
    by eapply fixed_mask_given.
  - by eexists _, _.
Qed.

Lemma runSolver_annealing_witness :
  ∃ result message,
    App.runSolver zero_random zero_scale tt no_cooling never_accept 0
                  "annealing" sample_puzzle
    = Some (result, message)
    ∧ match result with
      | Some g =>
          message = None ∧ extends sample_puzzle g ∧ no_empty_cell g
          ∧ rows_complete g ∧ columns_complete g
          ∧ (blocks_clean sample_puzzle → blocks_complete g)
      | None => message = Some App.failure_message
      end.
Proof.
  apply (runSolver_annealing zero_random zero_scale tt no_cooling never_accept 0
           sample_puzzle);
    [apply scale_ok_zero|apply grid9_sample_puzzle|apply digits_sample_puzzle
    |apply has_empty_cell_sample_puzzle].
Defined.

(** X22: on a 9x9 board without an empty cell the interface runs no solver.
    Whatever the algorithm, and whether or not the board is consistent, it
    shows the board itself as the result, with the message that the board
    is already complete. *)
Theorem runSolver_full_board {R Temp : Type} (random : nat → R)
    (scale : R → nat → nat) (T_start : Temp) (cool : Temp → Temp)
    (metropolis : R → Z → Temp → bool) (fuel : nat) (algorithm : string)
    (board : Grid) :
  grid9 board → no_empty_cell board →
  App.runSolver random scale T_start cool metropolis fuel algorithm board
  = Some (Some board, Some App.complete_message).
Proof.
  intros Hg Hfull. unfold App.runSolver. by rewrite findFirstEmpty_None.
Qed.

Lemma runSolver_full_board_witness :
  consistent (initiate ones_grid) = false
  ∧ App.runSolver zero_random zero_scale tt no_cooling never_accept 0
                  "backtracking" ones_grid
    = Some (Some ones_grid, Some App.complete_message).
Proof.
  split; [by vm_compute|].
  apply (runSolver_full_board zero_random zero_scale tt no_cooling never_accept 0
           "backtracking" ones_grid); [by_evaluation|apply no_empty_cell_ones].
Defined.

(** X23: every board the user can build in the interface is a 9x9 grid
    whose entries are digits from 1 to 9: the empty board is one, and a
    text of at most one character that comes in for a cell leaves a digit
    from 1 to 9 or nothing in that cell and the board as it was elsewhere. *)
Theorem typed_board_valid (board : Grid) :
  App.typed board →
  grid9 board ∧ digits_grid board
  ∧ ∀ i j text, i < 9 → j < 9 → String.length text ≤ 1 →
      ∃ c : Cell, App.onChange board i j text = Some (set_cell i j c board)
                  ∧ from_option digit True c.
Proof.
  intros Htyped.
  assert (grid9 board ∧ digits_grid board) as [Hg Hd].
  { induction Htyped as [|board i j text board' _ [Hg Hd] _ _ Hlen Hchange].
    - split; [by_evaluation|repeat constructor].
    - destruct (onChange_cell board i j text Hlen) as (c & Hrun & Hc).
      rewrite Hrun in Hchange. injection Hchange as <-.
      split; [by apply grid9_set_cell|by apply digits_grid_set_cell_opt]. }
  split_and!; [done..|]. intros i j text _ _ Hlen. by apply onChange_cell.
Qed.

Lemma typed_board_valid_witness :
  grid9 App.emptyBoard ∧ digits_grid App.emptyBoard
  ∧ ∀ i j text, i < 9 → j < 9 → String.length text ≤ 1 →
      ∃ c : Cell, App.onChange App.emptyBoard i j text
                  = Some (set_cell i j c App.emptyBoard)
                  ∧ from_option digit True c.
Proof. apply (typed_board_valid App.emptyBoard), App.typed_empty. Defined.

(** ** The order in which children are taken *)









(** ** The draft on a grid with a given in the corner *)

Lemma initiate_domain_given (grid : Grid) i j v :
  cell_at grid i j = Some (Some v) →
  cell_at (domain (initiate grid)) i j = Some [].
Proof.
  unfold initiate, inititationHelper, cell_at. cbn [domain].
  rewrite list_lookup_fmap. destruct (grid !! i) as [r|]; [|done]. cbn.
  intros Hj. rewrite lookup_app_l by (rewrite length_map; by eapply lookup_lt_Some).
  by rewrite list_lookup_fmap, Hj.
Qed.

Lemma draft_search_empty expand fuel : DraftSearch.search expand fuel [] = NoSolution.
Proof. by destruct fuel. Qed.

Lemma draft_no_actions parent :
  DraftSearch.Actions (problem parent) (lastAssigned parent) = [] →
  DraftSearch.getChildren parent = [] ∧ DraftSearch.getChildren_forwarding parent = [].
Proof.
  intros Hnone. unfold DraftSearch.getChildren, DraftSearch.getChildren_forwarding.
  destruct (Draft.getNextPosition _ _); [|done]. by rewrite Hnone.
Qed.

(** X25: [consistent] never rejects a part of a grid it accepts: when
    every value of a grid is a value of another grid that is consistent,
    the first grid is consistent too.  So every grid that a solution
    extends is consistent. *)
Theorem consistent_of_part (part whole : SudokuProblem) :
  extends (state part) (state whole) →
  consistent whole = true → consistent part = true.
Proof.
  rewrite !consistent_no_conflict. intros Hext Hwhole p q v Hne Hshare Hp Hq.
  apply (Hwhole p q v Hne Hshare); by apply Hext.
Qed.

Lemma consistent_of_part_witness : consistent (initiate sample_puzzle) = true.
Proof.
  apply (consistent_of_part (initiate sample_puzzle) (initiate sample_solution));
    [|by vm_compute].
  rewrite !initiate_state. apply extends_by_positions; by_evaluation.
Defined.

(** X26: the procedures of the draft start at the top-left corner.  When the
    corner holds a given and the grid has an empty cell, the root has no
    candidate to assign, and both procedures return the failure value
    after one iteration of the loop, whether or not the puzzle has a
    solution. *)
Theorem draft_fails_on_given_corner (grid : Grid) (v : Z) (fuel : nat) :
  grid9 grid → cell_at grid 0 0 = Some (Some v) → has_empty_cell grid →
  DraftSearch.backtack (S fuel) grid = NoSolution
  ∧ DraftSearch.backtack_forward (S fuel) grid = NoSolution.
Proof.
  intros _ Hcorner Hempty.
  set (root := mkNode (initiate grid) None (mkPos 0 0)).
  assert (isgoal (problem root) = false) as Hgoal.
  { destruct (isgoal (problem root)) eqn:Hgoal; [|done].
    destruct (open_is_no_goal (problem root)); [|done].
    cbn [root problem]. by rewrite initiate_state. }
  destruct (draft_no_actions root) as [Hplain Hforward].
  { unfold DraftSearch.Actions, domain_at. cbn [root problem lastAssigned row col].
    by rewrite (initiate_domain_given grid 0 0 v Hcorner). }
  unfold DraftSearch.backtack, DraftSearch.backtack_forward. fold root.
  cbn [DraftSearch.search].
  assert (pop [root] = Some (root, [])) as -> by done.
  rewrite Hgoal, Hplain, Hforward. cbn [app].
  by destruct (consistent (problem root)); rewrite !draft_search_empty.
Qed.

Lemma draft_fails_on_given_corner_witness :
  DraftSearch.backtack 1 sample_puzzle = NoSolution
  ∧ DraftSearch.backtack_forward 1 sample_puzzle = NoSolution.
Proof.
  apply (draft_fails_on_given_corner sample_puzzle 5 0);
    [apply grid9_sample_puzzle|by vm_compute|apply has_empty_cell_sample_puzzle].
Defined.
